(** * review_api: review aggregation and CSV export

    A shallow embedding of the services of the review API
    (appStoreService.ts, reviewService.ts, csvService.ts and the App Store
    route of routes/reviews.ts), with the properties of the aggregation
    loops, of the field sanitizer and of the CSV writer. *)

From Stdlib Require Import String Ascii.
From Stdlib Require Import List NArith ZArith Arith Bool Lia.
Import ListNotations.

Set Implicit Arguments.

(** ** JavaScript strings

    A string is the sequence of its UTF-16 code units. [trim], [includes],
    [split], [join] and the patterns without the [u] flag read it unit by
    unit. The patterns of [removeEmojis] carry the [u] flag and read it by
    code points: a high surrogate followed by a low surrogate is one
    character, the code point of the pair, and every other code unit, an
    unpaired surrogate too, is a character of its own. *)

Module JS.

Definition codeunit := N.
Bind Scope N_scope with codeunit.
Definition codepoint := N.
Bind Scope N_scope with codepoint.
Definition jsstring := list codeunit.

(** A literal of the source, given in ASCII. *)
Definition lit (s : string) : jsstring :=
  map N_of_ascii (list_ascii_of_string s).

Definition comma : codeunit := 44%N.
Definition dquote : codeunit := 34%N.
Definition newline : codeunit := 10%N.
Definition semicolon : codeunit := 59%N.
Definition space : codeunit := 32%N.

Definition in_range (lo hi c : N) : bool :=
  ((lo <=? c) && (c <=? hi))%N.

(** ECMAScript WhiteSpace and LineTerminator: what [trim] strips and what
    [\s] matches. *)
Definition is_ws (c : codeunit) : bool :=
  (in_range 9 13 c || (c =? 32) || (c =? 160) || (c =? 0x1680)
   || in_range 0x2000 0x200A c || (c =? 0x2028) || (c =? 0x2029)
   || (c =? 0x202F) || (c =? 0x205F) || (c =? 0x3000)
   || (c =? 0xFEFF))%N.

Fixpoint trimStart (s : jsstring) : jsstring :=
  match s with
  | [] => []
  | c :: s' => if is_ws c then trimStart s' else s
  end.

Definition trimEnd (s : jsstring) : jsstring := rev (trimStart (rev s)).

(** [s.trim()] *)
Definition trim (s : jsstring) : jsstring := trimEnd (trimStart s).

(** [s === ''] *)
Definition is_empty (s : jsstring) : bool :=
  match s with [] => true | _ :: _ => false end.

(** [s.includes(c)] for a one-character needle. *)
Definition includes (c : codeunit) (s : jsstring) : bool :=
  existsb (N.eqb c) s.

Definition is_high (c : codeunit) : bool := in_range 0xD800 0xDBFF c.
Definition is_low (c : codeunit) : bool := in_range 0xDC00 0xDFFF c.

(** The code point of a surrogate pair. *)
Definition pair_value (h l : codeunit) : codepoint :=
  ((h - 0xD800) * 0x400 + (l - 0xDC00) + 0x10000)%N.

(** [s.replace(/[lo-hi]/gu, '')]: the string is read by code points from
    left to right and the characters of the range are dropped. A pair is
    kept or dropped as a whole; the two units of a pair that is kept are
    passed over together, so the low one is never read on its own. *)
Fixpoint remove_range (lo hi : codepoint) (s : jsstring) : jsstring :=
  match s with
  | [] => []
  | c :: s' =>
      match s' with
      | d :: s'' =>
          if is_high c && is_low d
          then (if in_range lo hi (pair_value c d)
                then remove_range lo hi s''
                else c :: d :: remove_range lo hi s'')
          else (if in_range lo hi c
                then remove_range lo hi s'
                else c :: remove_range lo hi s')
      | [] => if in_range lo hi c then [] else [c]
      end
  end.

(** [String.fromCodePoint] for a code point up to 0x10FFFF: below 0x10000
    it is one unit, from there on a surrogate pair. *)
Definition units_of (cp : codepoint) : jsstring :=
  if (cp <? 0x10000)%N then [cp]
  else [(0xD800 + (cp - 0x10000) / 0x400)%N;
        (0xDC00 + (cp - 0x10000) mod 0x400)%N].

Definition of_code_points (cps : list codepoint) : jsstring :=
  flat_map units_of cps.

(** [s.replace(/\s+/g, ' ')]: every maximal run of white space becomes one
    space. [in_run] tells that the previous character was white space. *)
Fixpoint replace_ws_runs (in_run : bool) (s : jsstring) : jsstring :=
  match s with
  | [] => []
  | c :: s' =>
      if is_ws c
      then (if in_run then replace_ws_runs true s'
            else space :: replace_ws_runs true s')
      else c :: replace_ws_runs false s'
  end.

(** [s.replace] with the global pattern of one double quote and the
    replacement of two: every double quote is doubled. *)
Definition double_quotes (s : jsstring) : jsstring :=
  flat_map (fun c => if (c =? dquote)%N then [dquote; dquote] else [c]) s.

(** [pieces.join(sep)] *)
Fixpoint join (sep : jsstring) (pieces : list jsstring) : jsstring :=
  match pieces with
  | [] => []
  | [p] => p
  | p :: rest => p ++ sep ++ join sep rest
  end.

Fixpoint starts_with (p s : jsstring) : bool :=
  match p, s with
  | [], _ => true
  | _ :: _, [] => false
  | a :: p', b :: s' => (a =? b)%N && starts_with p' s'
  end.

(** [s.split(sep)] for a non-empty separator: the pieces between the
    non-overlapping occurrences of [sep], found from left to right.
    [skip] counts the characters of an occurrence still to pass over and
    [cur] holds the piece being read, last character first. *)
Fixpoint split_go (sep : jsstring) (skip : nat) (cur : jsstring)
    (s : jsstring) : list jsstring :=
  match s with
  | [] => [rev cur]
  | c :: s' =>
      match skip with
      | S k => split_go sep k cur s'
      | O =>
          if starts_with sep s
          then rev cur :: split_go sep (length sep - 1) [] s'
          else split_go sep 0 (c :: cur) s'
      end
  end.

Definition split (sep : jsstring) (s : jsstring) : list jsstring :=
  match sep with
  | [] => map (fun c => [c]) s
  | _ :: _ => split_go sep 0 [] s
  end.

(** [String(n)] for a number that is an integer: its decimal digits,
    with a minus sign below zero. This is how JavaScript prints the
    integers up to 2^53 in magnitude, among them the scores and the counts
    of the two stores; larger numbers are not meant. *)
Fixpoint uint_digits (d : Decimal.uint) : jsstring :=
  match d with
  | Decimal.Nil => []
  | Decimal.D0 d' => 48%N :: uint_digits d'
  | Decimal.D1 d' => 49%N :: uint_digits d'
  | Decimal.D2 d' => 50%N :: uint_digits d'
  | Decimal.D3 d' => 51%N :: uint_digits d'
  | Decimal.D4 d' => 52%N :: uint_digits d'
  | Decimal.D5 d' => 53%N :: uint_digits d'
  | Decimal.D6 d' => 54%N :: uint_digits d'
  | Decimal.D7 d' => 55%N :: uint_digits d'
  | Decimal.D8 d' => 56%N :: uint_digits d'
  | Decimal.D9 d' => 57%N :: uint_digits d'
  end.

Definition number_to_string (n : Z) : jsstring :=
  match Z.to_int n with
  | Decimal.Pos d => uint_digits d
  | Decimal.Neg d => 45%N :: uint_digits d
  end.

End JS.

Import JS.


(** [Math.ceil(n / d)] on natural numbers. *)
Definition ceil_div (n d : nat) : nat := (n + (d - 1)) / d.

(** ** appStoreService.ts *)

Module AppStoreService.

(** A text field is [None] when the value is [null] or [undefined] at run
    time, whatever the interface promises. *)
Record AppStoreReviewData := {
  id : option jsstring;
  userName : option jsstring;
  userUrl : option jsstring;
  version : option jsstring;
  score : Z;
  title : option jsstring;
  text : option jsstring;
  url : option jsstring;
  date : option jsstring
}.

Record AppStoreReviewResponse := {
  reviews : list AppStoreReviewData;
  hasMore : bool;
  totalCount : nat
}.

Definition mapReviewData (review : AppStoreReviewData) : AppStoreReviewData :=
  {| id := id review; userName := userName review; userUrl := userUrl review;
     version := version review; score := score review; title := title review;
     text := text review; url := url review; date := date review |}.

(** What one run does that can be observed from outside: every call of
    [appStore.reviews] with the page asked for and what came back (an error
    message or the page), every [console.error] of the loop's [catch], and
    every pause. *)
Inductive Event :=
| Call (page : nat) (outcome : string + list AppStoreReviewData)
| ErrorLogged (page : nat)
| Delay (ms : nat).

Definition reviewsPerPage : nat := 50.

Section Upstream.

(** The storefront: [appStore.reviews] for the application, country and
    sort order of the request, which are the same in every call of a run.
    [World] is whatever the storefront remembers between calls. *)
Variable World : Type.
Variable appStore_reviews :
  nat -> World -> (string + list AppStoreReviewData) * World.

Record Run := { world : World; trace : list Event }.

Definition emit (e : Event) (r : Run) : Run :=
  {| world := world r; trace := trace r ++ [e] |}.

(** [getReviews]: one page, [page = 1] when the option is left out. The
    [catch] wraps the message and throws again. *)
Definition getReviews (page : option nat) (r : Run)
  : (string + AppStoreReviewResponse) * Run :=
  let page := match page with Some p => p | None => 1 end in
  let (result, w) := appStore_reviews page (world r) in
  let r' := {| world := w; trace := trace r ++ [Call page result] |} in
  match result with
  | inr result =>
      (inr {| reviews := map mapReviewData result;
              hasMore := length result =? 50;
              totalCount := length result |}, r')
  | inl message =>
      (inl ("Failed to fetch App Store reviews: " ++ message)%string, r')
  end.

(** The exit a run of the loop took: one of its three [break]s, or the
    loop condition [page <= totalPages] turning false. *)
Inductive Stop := StopEmpty | StopTarget | StopShortPage | StopPages.

Record Loop := { allReviews : list AppStoreReviewData; run : Run }.

(** The body of the [for] loop of [getReviewsWithPagination] for one value
    of [page]: [Some stop] stands for [break], [None] for going on to
    [page++], be it through [continue] in the [catch] or at the end of the
    body. *)
Definition iteration (totalReviews page : nat) (st : Loop)
  : option Stop * Loop :=
  match getReviews (Some page) (run st) with
  | (inl _, r) =>
      (None, {| allReviews := allReviews st; run := emit (ErrorLogged page) r |})
  | (inr pageResult, r) =>
      if length (reviews pageResult) =? 0
      then (Some StopEmpty, {| allReviews := allReviews st; run := r |})
      else
        let all := allReviews st ++ reviews pageResult in
        if totalReviews <=? length all
        then (Some StopTarget,
              {| allReviews := firstn totalReviews all; run := r |})
        else if length (reviews pageResult) <? reviewsPerPage
        then (Some StopShortPage, {| allReviews := all; run := r |})
        else (None, {| allReviews := all; run := emit (Delay 1000) r |})
  end.

(** [for (let page = ...; page <= totalPages; page++)] with [left] pages
    still to visit, [left = totalPages + 1 - page]. *)
Fixpoint pages_loop (totalReviews left page : nat) (st : Loop) : Stop * Loop :=
  match left with
  | 0 => (StopPages, st)
  | S left' =>
      match iteration totalReviews page st with
      | (Some stop, st') => (stop, st')
      | (None, st') => pages_loop totalReviews left' (S page) st'
      end
  end.

(** [getReviewsWithPagination]; the exit taken is returned next to the
    response. The function has no [throw] of its own and catches those of
    [getReviews], so it always returns a response. *)
Definition getReviewsWithPagination (totalReviews : nat) (r : Run)
  : AppStoreReviewResponse * Stop * Run :=
  let totalPages := ceil_div totalReviews reviewsPerPage in
  let (stop, st) :=
    pages_loop totalReviews totalPages 1 {| allReviews := []; run := r |} in
  ({| reviews := allReviews st;
      hasMore := length (allReviews st) =? totalReviews;
      totalCount := length (allReviews st) |}, stop, run st).

End Upstream.

(** The pages asked for, in order. *)
Definition calls (t : list Event) : list nat :=
  flat_map (fun e => match e with Call p _ => [p] | _ => [] end) t.

(** The pages that came back, in order. *)
Definition fetched (t : list Event) : list (list AppStoreReviewData) :=
  flat_map (fun e => match e with Call _ (inr l) => [l] | _ => [] end) t.

Definition delays (t : list Event) : list nat :=
  flat_map (fun e => match e with Delay ms => [ms] | _ => [] end) t.

End AppStoreService.

(** ** reviewService.ts *)

Module ReviewService.

Record ReviewData := {
  id : option jsstring;
  userName : option jsstring;
  userImage : option jsstring;
  date : option jsstring;
  score : Z;
  scoreText : option jsstring;
  url : option jsstring;
  text : option jsstring;
  replyDate : option jsstring;
  replyText : option jsstring;
  version : option jsstring;
  thumbsUp : Z
}.

(** The options that differ between the calls of one request; [appId],
    [lang], [country] and [sort] are handed on unchanged. *)
Record ReviewOptions := {
  num : option nat;
  paginate : option bool;
  nextPaginationToken : option string
}.

(** [responseToken] is the response's [nextPaginationToken]. *)
Record ReviewResponse := {
  reviews : list ReviewData;
  responseToken : option string;
  totalCount : nat
}.

Definition mapReviewData (review : ReviewData) : ReviewData :=
  {| id := id review; userName := userName review;
     userImage := userImage review; date := date review;
     score := score review; scoreText := scoreText review;
     url := url review; text := text review;
     replyDate := replyDate review; replyText := replyText review;
     version := version review; thumbsUp := thumbsUp review |}.

(** What [gplay.reviews] is called with and what it gives. *)
Record GplayOptions := {
  gplayNum : nat;
  gplayPaginate : bool;
  gplayToken : option string
}.

Record GplayResult := {
  data : list ReviewData;
  resultToken : option string
}.

(** [if (token)]: an absent token and the empty string are falsy. *)
Definition truthy (token : option string) : bool :=
  match token with
  | None => false
  | Some t => negb (String.eqb t "")
  end.

Inductive Event :=
| Call (options : GplayOptions) (outcome : string + GplayResult)
| Delay (ms : nat).

Definition batchSize : nat := 200.

Section Upstream.

Variable World : Type.
Variable gplay_reviews : GplayOptions -> World -> (string + GplayResult) * World.

Record Run := { world : World; trace : list Event }.

Definition emit (e : Event) (r : Run) : Run :=
  {| world := world r; trace := trace r ++ [e] |}.

(** [fetchSingleBatch]: one call of [gplay.reviews] for at most 200
    reviews; the token is passed only when truthy. The [catch] wraps the
    message and throws again. *)
Definition fetchSingleBatch (options : ReviewOptions) (r : Run)
  : (string + ReviewResponse) * Run :=
  let num := match num options with Some n => n | None => 100 end in
  let paginate := match paginate options with Some b => b | None => true end in
  let reviewOptions :=
    {| gplayNum := Nat.min num 200;
       gplayPaginate := paginate;
       gplayToken := if truthy (nextPaginationToken options)
                     then nextPaginationToken options else None |} in
  let (result, w) := gplay_reviews reviewOptions (world r) in
  let r' := {| world := w; trace := trace r ++ [Call reviewOptions result] |} in
  match result with
  | inr result =>
      (inr {| reviews := map mapReviewData (data result);
              responseToken := resultToken result;
              totalCount := length (data result) |}, r')
  | inl message =>
      (inl ("Failed to fetch reviews batch: " ++ message)%string, r')
  end.

(** The exit a run of the [while] loop took: one of its two [break]s, or
    the loop condition [fetchedCount < num] turning false. *)
Inductive Stop := StopEmpty | StopNoToken | StopTarget.

Record Loop := {
  allReviews : list ReviewData;
  nextToken : option string;
  fetchedCount : nat;
  run : Run
}.

(** The body of the [while] loop of [fetchLargeDataset]. It has no
    [try]: an error thrown by [fetchSingleBatch] leaves the loop and the
    function ([inl]). [inr (Some stop, _)] stands for [break] and
    [inr (None, _)] for reaching the end of the body. *)
Definition iteration (num : nat) (st : Loop)
  : string * Run + option Stop * Loop :=
  let remainingCount := num - fetchedCount st in
  let currentBatchSize := Nat.min remainingCount batchSize in
  match fetchSingleBatch {| num := Some currentBatchSize;
                            paginate := Some true;
                            nextPaginationToken := nextToken st |} (run st) with
  | (inl message, r) => inl (message, r)
  | (inr batchResult, r) =>
      if length (reviews batchResult) =? 0
      then inr (Some StopEmpty,
                {| allReviews := allReviews st; nextToken := nextToken st;
                   fetchedCount := fetchedCount st; run := r |})
      else
        let all := allReviews st ++ reviews batchResult in
        let count := fetchedCount st + length (reviews batchResult) in
        let token := responseToken batchResult in
        if negb (truthy token)
        then inr (Some StopNoToken,
                  {| allReviews := all; nextToken := token;
                     fetchedCount := count; run := r |})
        else inr (None,
                  {| allReviews := all; nextToken := token;
                     fetchedCount := count; run := emit (Delay 500) r |})
  end.

(** [while (fetchedCount < num)]. A [while] loop has no bound of its own:
    [fuel] bounds the number of iterations and [None] says that it ran
    out. *)
Fixpoint batches (fuel num : nat) (st : Loop)
  : option (string * Run + Stop * Loop) :=
  if fetchedCount st <? num
  then
    match fuel with
    | 0 => None
    | S fuel' =>
        match iteration num st with
        | inl failure => Some (inl failure)
        | inr (Some stop, st') => Some (inr (stop, st'))
        | inr (None, st') => batches fuel' num st'
        end
    end
  else Some (inr (StopTarget, st)).

(** [fetchLargeDataset]; the exit taken is returned next to the
    response. *)
Definition fetchLargeDataset (fuel : nat) (options : ReviewOptions) (r : Run)
  : option ((string + ReviewResponse * Stop) * Run) :=
  let num := match num options with Some n => n | None => 100 end in
  match batches fuel num {| allReviews := []; nextToken := None;
                            fetchedCount := 0; run := r |} with
  | None => None
  | Some (inl (message, r')) => Some (inl message, r')
  | Some (inr (stop, st)) =>
      Some (inr ({| reviews := allReviews st;
                    responseToken := nextToken st;
                    totalCount := length (allReviews st) |}, stop), run st)
  end.

(** [getReviews]: more than 200 reviews go to [fetchLargeDataset], the
    others to [fetchSingleBatch]. Both promises are returned without
    [await], so their rejections pass the [catch] untouched. *)
Definition getReviews (fuel : nat) (options : ReviewOptions) (r : Run)
  : option ((string + ReviewResponse) * Run) :=
  let num := match num options with Some n => n | None => 100 end in
  if 200 <? num
  then
    match fetchLargeDataset fuel options r with
    | None => None
    | Some (inl message, r') => Some (inl message, r')
    | Some (inr (response, _), r') => Some (inr response, r')
    end
  else Some (fetchSingleBatch options r).

End Upstream.

(** The sizes asked for, in order. *)
Definition calls (t : list Event) : list nat :=
  flat_map (fun e => match e with Call o _ => [gplayNum o] | _ => [] end) t.

(** The batches that came back, in order. *)
Definition fetched (t : list Event) : list (list ReviewData) :=
  flat_map
    (fun e => match e with Call _ (inr res) => [data res] | _ => [] end) t.

End ReviewService.

(** ** csvService.ts *)

Module CSVService.

(** [removeEmojis]: the twelve replacements in the order of the source,
    then the white space clean-up and [trim]. *)
Definition removeEmojis (text : jsstring) : jsstring :=
  let text := remove_range 0x1F600 0x1F64F text in
  let text := remove_range 0x1F300 0x1F5FF text in
  let text := remove_range 0x1F680 0x1F6FF text in
  let text := remove_range 0x1F1E0 0x1F1FF text in
  let text := remove_range 0x2600 0x26FF text in
  let text := remove_range 0x2700 0x27BF text in
  let text := remove_range 0x2701 0x27BE text in
  let text := remove_range 0x1F900 0x1F9FF text in
  let text := remove_range 0x1FA70 0x1FAFF text in
  let text := remove_range 0xFE00 0xFE0F text in
  let text := remove_range 0x20D0 0x20FF text in
  let text := remove_range 0x200D 0x200D text in
  trim (replace_ws_runs false text).

(** [escapeCsvField]; [None] is [null] or [undefined]. *)
Definition escapeCsvField (field : option jsstring) : jsstring :=
  match field with
  | None => lit "Null"
  | Some original =>
      if is_empty original || is_empty (trim original) then lit "Nan"
      else
        let escaped := removeEmojis original in
        if is_empty escaped || is_empty (trim escaped) then []
        else if includes comma escaped || includes dquote escaped
                || includes newline escaped
        then dquote :: double_quotes escaped ++ [dquote]
        else escaped
  end.

Definition delimiter : jsstring := lit ";;".

Definition playHeader : list jsstring :=
  [lit "id"; lit "userName"; lit "content"; lit "score"; lit "date";
   lit "thumbsUp"; lit "version"].

Definition appStoreHeader : list jsstring :=
  [lit "id"; lit "userName"; lit "title"; lit "content"; lit "score";
   lit "version"; lit "date"].

(** [value || '']: an absent or empty string gives the empty string. *)
Definition or_empty (value : option jsstring) : option jsstring :=
  match value with
  | Some (c :: v) => Some (c :: v)
  | _ => Some []
  end.

Definition playFields (review : ReviewService.ReviewData) : list jsstring :=
  [escapeCsvField (ReviewService.id review);
   escapeCsvField (ReviewService.userName review);
   escapeCsvField (ReviewService.text review);
   number_to_string (ReviewService.score review);
   escapeCsvField (ReviewService.date review);
   number_to_string (ReviewService.thumbsUp review);
   escapeCsvField (or_empty (ReviewService.version review))].

Definition appStoreFields (review : AppStoreService.AppStoreReviewData)
  : list jsstring :=
  [escapeCsvField (AppStoreService.id review);
   escapeCsvField (AppStoreService.userName review);
   escapeCsvField (AppStoreService.title review);
   escapeCsvField (AppStoreService.text review);
   number_to_string (AppStoreService.score review);
   escapeCsvField (AppStoreService.version review);
   escapeCsvField (AppStoreService.date review)].

(** [csvContent] of [exportReviewsToCSV] and of
    [exportAppStoreReviewsToCSV]: the header and the rows, each joined by
    the delimiter, joined by line feeds. *)
Definition playContent (reviews : list ReviewService.ReviewData) : jsstring :=
  let csvHeader := join delimiter playHeader in
  let csvRows := map (fun review => join delimiter (playFields review)) reviews in
  join [newline] (csvHeader :: csvRows).

Definition appStoreContent
    (reviews : list AppStoreService.AppStoreReviewData) : jsstring :=
  let csvHeader := join delimiter appStoreHeader in
  let csvRows :=
    map (fun review => join delimiter (appStoreFields review)) reviews in
  join [newline] (csvHeader :: csvRows).

(** The export directory: the text of each file, by path. *)
Definition FileSystem := string -> option jsstring.

Definition writeFileSync (path : string) (content : jsstring)
    (fs : FileSystem) : FileSystem :=
  fun p => if String.eqb p path then Some content else fs p.

Record CSVExportOptions := {
  appId : string;
  filename : option string;
  outputDir : option string
}.

Definition DEFAULT_OUTPUT_DIR : string := "exports".

Section Environment.

(** [path.resolve] of one path and [path.join] of a directory and a name,
    of Node's [path] module. What they return depends on the platform and
    on the working directory of the process; the service passes the
    results on and uses them as paths of the file system. *)
Variable path_resolve : string -> string.
Variable path_join : string -> string -> string.

(** [Date.now()], as it is printed in a default file name. *)
Variable now : string.

(** The two exports return the path they wrote to. The test for the
    directory and [mkdirSync] write no file. *)
Definition exportReviewsToCSV (reviews : list ReviewService.ReviewData)
    (options : CSVExportOptions) (fs : FileSystem) : string * FileSystem :=
  let filename :=
    match filename options with
    | Some f => f
    | None => (appId options ++ "_reviews_" ++ now ++ ".csv")%string
    end in
  let outputDir :=
    match outputDir options with Some d => d | None => DEFAULT_OUTPUT_DIR end in
  let fullOutputDir := path_resolve outputDir in
  let filePath := path_join fullOutputDir filename in
  (filePath, writeFileSync filePath (playContent reviews) fs).

Definition exportAppStoreReviewsToCSV
    (reviews : list AppStoreService.AppStoreReviewData)
    (options : CSVExportOptions) (fs : FileSystem) : string * FileSystem :=
  let filename :=
    match filename options with
    | Some f => f
    | None => ("appstore_" ++ appId options ++ "_reviews_" ++ now ++ ".csv")%string
    end in
  let outputDir :=
    match outputDir options with Some d => d | None => DEFAULT_OUTPUT_DIR end in
  let fullOutputDir := path_resolve outputDir in
  let filePath := path_join fullOutputDir filename in
  (filePath, writeFileSync filePath (appStoreContent reviews) fs).

End Environment.

(** What [getExportStats] computes from the text of the file; the sizes
    and times it copies from [fs.statSync] are left out. A missing file
    makes [readFileSync] throw ([None]). *)
Record ExportStats := {
  statsPath : string;
  reviewCount : Z
}.

Definition getExportStats (filePath : string) (fs : FileSystem)
  : option ExportStats :=
  match fs filePath with
  | None => None
  | Some content =>
      let lines := (Z.of_nat (length (split [newline] content)) - 1)%Z in
      Some {| statsPath := filePath; reviewCount := (lines - 1)%Z |}
  end.

End CSVService.

(** ** routes/reviews.ts: the App Store handlers *)

Module Routes.

Import AppStoreService.

(** How [GET /appstore/:appId] and [POST /appstore/export/csv] get their
    reviews for [numReviews = Math.max(parseInt(num) || default, 1)]: up to
    50 through [getReviews] without a page, more through
    [getReviewsWithPagination]. An error thrown by [getReviews] goes to the
    handler's [catch] ([inl]). *)
Definition appStoreReviews (World : Type)
    (appStore_reviews : nat -> World -> (string + list AppStoreReviewData) * World)
    (numReviews : nat) (r : Run World)
  : (string + AppStoreReviewResponse) * Run World :=
  if numReviews <=? 50
  then getReviews appStore_reviews None r
  else
    let '(reviewData, _, r') :=
      getReviewsWithPagination appStore_reviews numReviews r in
    (inr reviewData, r').

End Routes.

(** ** Storefronts that hold a given list of reviews

    A source with so many reviews available is a list [avail], served in
    the order of the list: by pages of 50 for the App Store, and for Play
    from the place that the token names, as many as asked for. Neither
    ever fails nor remembers anything between two calls. *)

Module Storefronts.

Section Paged.

Variable avail : list AppStoreService.AppStoreReviewData.

Definition page_of (page : nat) : list AppStoreService.AppStoreReviewData :=
  firstn 50 (skipn (50 * (page - 1)) avail).

Definition paged_source (page : nat) (w : unit)
  : (string + list AppStoreService.AppStoreReviewData) * unit :=
  (inr (page_of page), w).

(** What a run over [k] full pages from [page] on leaves in the trace. *)
Fixpoint paged_trace (page k : nat) : list AppStoreService.Event :=
  match k with
  | 0 => []
  | S k' =>
      AppStoreService.Call page (inr (page_of page))
      :: match k' with
         | 0 => []
         | S _ => AppStoreService.Delay 1000 :: paged_trace (S page) k'
         end
  end.

End Paged.

(** A token for every place in the list, never the empty string. *)
Fixpoint token_of (offset : nat) : string :=
  match offset with
  | 0 => "@"
  | S n => String "+" (token_of n)
  end.

Fixpoint offset_of (token : string) : nat :=
  match token with
  | String "+" rest => S (offset_of rest)
  | _ => 0
  end.

Section Tokens.

Variable avail : list ReviewService.ReviewData.

Definition token_source (options : ReviewService.GplayOptions) (w : unit)
  : (string + ReviewService.GplayResult) * unit :=
  let offset :=
    match ReviewService.gplayToken options with
    | Some token => offset_of token
    | None => 0
    end in
  let batch := firstn (ReviewService.gplayNum options) (skipn offset avail) in
  let next := offset + length batch in
  (inr {| ReviewService.data := batch;
          ReviewService.resultToken :=
            if next <? length avail then Some (token_of next) else None |}, w).

End Tokens.

(** A store whose [failing]-th call fails and whose other calls serve 200
    reviews and a token; [World] counts the calls made. *)
Definition flaky_store (review : ReviewService.ReviewData) (failing : nat)
    (options : ReviewService.GplayOptions) (made : nat)
  : (string + ReviewService.GplayResult) * nat :=
  if S made =? failing
  then (inl "socket hang up"%string, S made)
  else (inr {| ReviewService.data := repeat review 200;
               ReviewService.resultToken := Some "next"%string |}, S made).

(** An App Store whose page [failing] fails and whose other pages are
    those of [paged_source]. *)
Definition flaky_pages (avail : list AppStoreService.AppStoreReviewData)
    (failing : nat) (page : nat) (w : unit)
  : (string + list AppStoreService.AppStoreReviewData) * unit :=
  if page =? failing then (inl "socket hang up"%string, w)
  else paged_source avail page w.

End Storefronts.

(** A run that starts with nothing in its trace. *)
Definition appStore_start (World : Type) (w : World) : AppStoreService.Run World :=
  {| AppStoreService.world := w; AppStoreService.trace := [] |}.

Definition play_start (World : Type) (w : World) : ReviewService.Run World :=
  {| ReviewService.world := w; ReviewService.trace := [] |}.

(** The state in which each loop starts. *)
Definition appStore_loop_start (World : Type) (w : World)
  : AppStoreService.Loop World :=
  {| AppStoreService.allReviews := []; AppStoreService.run := appStore_start w |}.

Definition play_loop_start (World : Type) (w : World) : ReviewService.Loop World :=
  {| ReviewService.allReviews := []; ReviewService.nextToken := None;
     ReviewService.fetchedCount := 0; ReviewService.run := play_start w |}.

(** [num = 100] when the option is left out. *)
Definition requested (options : ReviewService.ReviewOptions) : nat :=
  match ReviewService.num options with Some n => n | None => 100 end.

(** ** Sample reviews and requests

    A Play review with the given body, an App Store review with the given
    title, and the options of a Play request for [n] reviews. *)
Definition play_review (body : string) : ReviewService.ReviewData :=
  {| ReviewService.id := Some (lit "gp:1");
     ReviewService.userName := Some (lit "Ada");
     ReviewService.userImage := None;
     ReviewService.date := Some (lit "2025-08-25T12:00:00.000Z");
     ReviewService.score := 5;
     ReviewService.scoreText := Some (lit "5");
     ReviewService.url := None;
     ReviewService.text := Some (lit body);
     ReviewService.replyDate := None;
     ReviewService.replyText := None;
     ReviewService.version := None;
     ReviewService.thumbsUp := 12 |}.

Definition appStore_review (heading : string)
  : AppStoreService.AppStoreReviewData :=
  {| AppStoreService.id := Some (lit "1001");
     AppStoreService.userName := Some (lit "Ada");
     AppStoreService.userUrl := None;
     AppStoreService.version := Some (lit "2.1");
     AppStoreService.score := 4;
     AppStoreService.title := Some (lit heading);
     AppStoreService.text := Some (lit "works");
     AppStoreService.url := None;
     AppStoreService.date := Some (lit "2025-08-25") |}.

Definition play_options (n : nat) : ReviewService.ReviewOptions :=
  {| ReviewService.num := Some n; ReviewService.paginate := Some true;
     ReviewService.nextPaginationToken := None |}.

Example split_lines : split (lit "|") (lit "a|b||c") = [lit "a"; lit "b"; []; lit "c"].
Proof. reflexivity. Qed.

Example split_pairs : split (lit ";;") (lit "a;;;b;;;;c") = [lit "a"; lit ";b"; []; lit "c"].
Proof. reflexivity. Qed.

Example trim_example : trim (lit "  a b  ") = lit "a b".
Proof. reflexivity. Qed.

Example number_examples :
  number_to_string 5 = lit "5" /\ number_to_string 0 = lit "0"
  /\ number_to_string (-12) = lit "-12" /\ number_to_string 1234 = lit "1234".
Proof. repeat split; reflexivity. Qed.

(** ** Facts on strings *)

Section StringFacts.

Lemma trimStart_all_ws (s : jsstring) :
  forallb is_ws s = true -> trimStart s = [].
Proof.
  induction s as [|c s IH]; simpl; [reflexivity|].
  destruct (is_ws c); simpl; [exact IH | discriminate].
Qed.

Lemma trimStart_split (s : jsstring) :
  exists w, s = w ++ trimStart s /\ forallb is_ws w = true.
Proof.
  induction s as [|c s [w [E W]]]; simpl.
  - exists []; split; reflexivity.
  - destruct (is_ws c) eqn:C.
    + exists (c :: w); simpl. rewrite C, W. split; [f_equal; exact E | reflexivity].
    + exists []; split; reflexivity.
Qed.

(** A string is clean at its start when it is empty or starts with
    something else than white space. *)
Definition starts_clean (s : jsstring) : bool :=
  match s with [] => true | c :: _ => negb (is_ws c) end.

Lemma trimStart_starts_clean (s : jsstring) : starts_clean (trimStart s) = true.
Proof.
  induction s as [|c s IH]; simpl; [reflexivity|].
  destruct (is_ws c) eqn:C; [exact IH | simpl; rewrite C; reflexivity].
Qed.

Lemma trimStart_id (s : jsstring) : starts_clean s = true -> trimStart s = s.
Proof.
  destruct s as [|c s]; simpl; [reflexivity|].
  destruct (is_ws c); [discriminate | reflexivity].
Qed.

Lemma starts_clean_prefix (p q : jsstring) :
  starts_clean (p ++ q) = true -> starts_clean p = true.
Proof. destruct p; simpl; auto. Qed.

Lemma trimEnd_split (s : jsstring) :
  exists w, s = trimEnd s ++ w /\ forallb is_ws w = true.
Proof.
  unfold trimEnd. destruct (trimStart_split (rev s)) as [w [E W]].
  exists (rev w). split.
  - rewrite <- rev_app_distr, <- E, rev_involutive. reflexivity.
  - rewrite forallb_forall in *. intros c H. apply W, in_rev, H.
Qed.

Lemma trim_split (s : jsstring) :
  exists w1 w2, s = w1 ++ trim s ++ w2
                /\ forallb is_ws w1 = true /\ forallb is_ws w2 = true.
Proof.
  destruct (trimStart_split s) as [w1 [E1 W1]].
  destruct (trimEnd_split (trimStart s)) as [w2 [E2 W2]].
  exists w1, w2. unfold trim. rewrite <- E2. auto.
Qed.

Lemma trim_starts_clean (s : jsstring) : starts_clean (trim s) = true.
Proof.
  unfold trim. destruct (trimEnd_split (trimStart s)) as [w [E _]].
  apply starts_clean_prefix with (q := w). rewrite <- E.
  apply trimStart_starts_clean.
Qed.

Lemma trim_ends_clean (s : jsstring) : starts_clean (rev (trim s)) = true.
Proof.
  unfold trim, trimEnd. rewrite rev_involutive. apply trimStart_starts_clean.
Qed.

Lemma trim_id (s : jsstring) :
  starts_clean s = true -> starts_clean (rev s) = true -> trim s = s.
Proof.
  intros H1 H2. unfold trim, trimEnd.
  rewrite (trimStart_id s H1), (trimStart_id (rev s) H2).
  apply rev_involutive.
Qed.

Lemma trim_idempotent (s : jsstring) : trim (trim s) = trim s.
Proof. apply trim_id; [apply trim_starts_clean | apply trim_ends_clean]. Qed.

Lemma trim_all_ws (s : jsstring) : forallb is_ws s = true -> trim s = [].
Proof.
  intros H. unfold trim. rewrite (trimStart_all_ws s H). reflexivity.
Qed.

Lemma trim_nil_all_ws (s : jsstring) : trim s = [] -> forallb is_ws s = true.
Proof.
  intros H. destruct (trim_split s) as [w1 [w2 [E [W1 W2]]]].
  rewrite H in E. rewrite E. simpl. rewrite forallb_app, W1, W2. reflexivity.
Qed.

Lemma trim_incl (s : jsstring) (c : codeunit) : In c (trim s) -> In c s.
Proof.
  intros H. destruct (trim_split s) as [w1 [w2 [E _]]]. rewrite E.
  apply in_or_app. right. apply in_or_app. left. exact H.
Qed.

(** What [\s+] to one space leaves: white space only as single spaces.
    [prev] tells that the previous character was white space. *)
Fixpoint ws_normal (prev : bool) (s : jsstring) : bool :=
  match s with
  | [] => true
  | c :: s' =>
      if is_ws c then negb prev && (c =? space)%N && ws_normal true s'
      else ws_normal false s'
  end.

Lemma replace_ws_runs_normal (b : bool) (s : jsstring) :
  ws_normal b (replace_ws_runs b s) = true.
Proof.
  revert b. induction s as [|c s IH]; intros b; simpl; [reflexivity|].
  destruct (is_ws c) eqn:C.
  - destruct b; [apply IH|]. simpl. change (is_ws space) with true. simpl. apply IH.
  - simpl. rewrite C. apply IH.
Qed.

Lemma replace_ws_runs_id (b : bool) (s : jsstring) :
  ws_normal b s = true -> replace_ws_runs b s = s.
Proof.
  revert b. induction s as [|c s IH]; intros b; simpl; [reflexivity|].
  destruct (is_ws c) eqn:C.
  - destruct b; simpl; [discriminate|].
    destruct (c =? space)%N eqn:E; simpl; [|discriminate].
    apply N.eqb_eq in E. intros H. rewrite (IH true H), E. reflexivity.
  - intros H. rewrite (IH false H). reflexivity.
Qed.

Lemma ws_normal_weaken (s : jsstring) :
  ws_normal true s = true -> ws_normal false s = true.
Proof.
  destruct s as [|c s]; simpl; [reflexivity|].
  destruct (is_ws c); [discriminate | auto].
Qed.

Lemma ws_normal_suffix (b : bool) (p s : jsstring) :
  ws_normal b (p ++ s) = true -> ws_normal false s = true.
Proof.
  revert b. induction p as [|c p IH]; intros b; simpl.
  - destruct b; [apply ws_normal_weaken | auto].
  - destruct (is_ws c).
    + intros H. apply andb_prop in H. destruct H as [_ H]. exact (IH _ H).
    + apply IH.
Qed.

Lemma ws_normal_prefix (b : bool) (p s : jsstring) :
  ws_normal b (p ++ s) = true -> ws_normal b p = true.
Proof.
  revert b. induction p as [|c p IH]; intros b; simpl; [reflexivity|].
  destruct (is_ws c).
  - intros H. apply andb_prop in H. destruct H as [H1 H2].
    rewrite H1. simpl. exact (IH _ H2).
  - apply IH.
Qed.

Lemma ws_normal_trim (s : jsstring) :
  ws_normal false s = true -> ws_normal false (trim s) = true.
Proof.
  intros H. destruct (trim_split s) as [w1 [w2 [E _]]]. rewrite E in H.
  apply ws_normal_suffix in H. apply ws_normal_prefix in H. exact H.
Qed.

Lemma ws_normal_space (b : bool) (s : jsstring) (c : codeunit) :
  ws_normal b s = true -> In c s -> is_ws c = true -> c = space.
Proof.
  revert b. induction s as [|a s IH]; intros b N I W; [destruct I|].
  simpl in N. destruct I as [E|I].
  - subst a. rewrite W in N. apply andb_prop in N. destruct N as [N _].
    apply andb_prop in N. destruct N as [_ N]. apply N.eqb_eq, N.
  - destruct (is_ws a).
    + apply andb_prop in N. destruct N as [_ N]. exact (IH _ N I W).
    + exact (IH _ N I W).
Qed.

Lemma replace_ws_runs_incl (b : bool) (s : jsstring) (c : codeunit) :
  In c (replace_ws_runs b s) -> In c s \/ c = space.
Proof.
  revert b. induction s as [|a s IH]; intros b; simpl; [tauto|].
  destruct (is_ws a).
  - destruct b; simpl; intros H.
    + destruct (IH _ H); auto.
    + destruct H as [H|H]; [auto|]. destruct (IH _ H); auto.
  - simpl. intros [H|H]; [auto|]. destruct (IH _ H); auto.
Qed.

Lemma replace_ws_runs_all_ws (b : bool) (s : jsstring) :
  forallb is_ws s = true -> forallb is_ws (replace_ws_runs b s) = true.
Proof.
  revert b. induction s as [|a s IH]; intros b; simpl; [reflexivity|].
  destruct (is_ws a); simpl; [|discriminate].
  intros H. destruct b; simpl; [apply IH, H|].
  change (is_ws space) with true. simpl. apply IH, H.
Qed.

End StringFacts.

(** ** Facts on the field sanitizer *)

Module SanitizerFacts.

Import CSVService.

(** The characters, as code points, that the twelve replacements of
    [removeEmojis] take out. *)
Definition is_stripped (c : codepoint) : bool :=
  in_range 0x1F600 0x1F64F c || in_range 0x1F300 0x1F5FF c
  || in_range 0x1F680 0x1F6FF c || in_range 0x1F1E0 0x1F1FF c
  || in_range 0x2600 0x26FF c || in_range 0x2700 0x27BF c
  || in_range 0x2701 0x27BE c || in_range 0x1F900 0x1F9FF c
  || in_range 0x1FA70 0x1FAFF c || in_range 0xFE00 0xFE0F c
  || in_range 0x20D0 0x20FF c || in_range 0x200D 0x200D c.

Definition kept (c : codepoint) : bool := negb (is_stripped c).

(** The twelve replacements, before the white space is cleaned up. *)
Definition strip (text : jsstring) : jsstring :=
  let text := remove_range 0x1F600 0x1F64F text in
  let text := remove_range 0x1F300 0x1F5FF text in
  let text := remove_range 0x1F680 0x1F6FF text in
  let text := remove_range 0x1F1E0 0x1F1FF text in
  let text := remove_range 0x2600 0x26FF text in
  let text := remove_range 0x2700 0x27BF text in
  let text := remove_range 0x2701 0x27BE text in
  let text := remove_range 0x1F900 0x1F9FF text in
  let text := remove_range 0x1FA70 0x1FAFF text in
  let text := remove_range 0xFE00 0xFE0F text in
  let text := remove_range 0x20D0 0x20FF text in
  remove_range 0x200D 0x200D text.

Lemma removeEmojis_strip (s : jsstring) :
  removeEmojis s = trim (replace_ws_runs false (strip s)).
Proof. reflexivity. Qed.

(** *** One replacement, on any string *)

Lemma pair_induction (P : jsstring -> Prop) :
  P [] -> (forall c, P [c]) ->
  (forall c d s, P s -> P (d :: s) -> P (c :: d :: s)) ->
  forall s, P s.
Proof.
  intros H0 H1 H2.
  assert (A : forall s, P s /\ forall c, P (c :: s)).
  { induction s as [|d s [IH1 IH2]].
    - split; [exact H0 | exact H1].
    - split; [apply IH2|]. intros c. apply H2; [exact IH1 | apply IH2]. }
  intros s. apply A.
Qed.

Lemma remove_range_one (lo hi : codepoint) (c : codeunit) :
  remove_range lo hi [c] = if in_range lo hi c then [] else [c].
Proof. reflexivity. Qed.

Lemma remove_range_two (lo hi : codepoint) (c d : codeunit) (s : jsstring) :
  remove_range lo hi (c :: d :: s)
  = if is_high c && is_low d
    then (if in_range lo hi (pair_value c d)
          then remove_range lo hi s
          else c :: d :: remove_range lo hi s)
    else (if in_range lo hi c
          then remove_range lo hi (d :: s)
          else c :: remove_range lo hi (d :: s)).
Proof. reflexivity. Qed.

(** A unit that is not a high surrogate is a character of its own. *)
Lemma remove_range_unit (lo hi : codepoint) (c : codeunit) (s : jsstring) :
  is_high c = false ->
  remove_range lo hi (c :: s)
  = if in_range lo hi c then remove_range lo hi s else c :: remove_range lo hi s.
Proof.
  intros H. destruct s as [|d s].
  - rewrite remove_range_one. destruct (in_range lo hi c); reflexivity.
  - rewrite remove_range_two, H. reflexivity.
Qed.

Lemma remove_range_pair (lo hi : codepoint) (h l : codeunit) (s : jsstring) :
  is_high h = true -> is_low l = true ->
  remove_range lo hi (h :: l :: s)
  = if in_range lo hi (pair_value h l) then remove_range lo hi s
    else h :: l :: remove_range lo hi s.
Proof. intros H L. rewrite remove_range_two, H, L. reflexivity. Qed.

(** A replacement only takes units out. *)
Lemma remove_range_incl (lo hi : codepoint) (s : jsstring) (x : codeunit) :
  In x (remove_range lo hi s) -> In x s.
Proof.
  revert s. apply (pair_induction (fun s => In x (remove_range lo hi s) -> In x s)).
  - intros H. exact H.
  - intros c. rewrite remove_range_one. destruct (in_range lo hi c); [intros [] | auto].
  - intros c d s IH1 IH2. rewrite remove_range_two.
    destruct (is_high c && is_low d).
    + destruct (in_range lo hi (pair_value c d)).
      * intros H. right. right. exact (IH1 H).
      * intros [H|[H|H]]; [left; exact H | right; left; exact H|].
        right. right. exact (IH1 H).
    + destruct (in_range lo hi c).
      * intros H. right. exact (IH2 H).
      * intros [H|H]; [left; exact H | right; exact (IH2 H)].
Qed.

(** A unit that is no surrogate is read on its own, so none of the range
    is left. *)
Lemma remove_range_gone (lo hi : codepoint) (s : jsstring) (x : codeunit) :
  is_high x = false -> is_low x = false ->
  In x (remove_range lo hi s) -> in_range lo hi x = false.
Proof.
  intros Xh Xl. revert s.
  apply (pair_induction
           (fun s => In x (remove_range lo hi s) -> in_range lo hi x = false)).
  - intros [].
  - intros c. rewrite remove_range_one. destruct (in_range lo hi c) eqn:C.
    + intros [].
    + intros [H|[]]. subst c. exact C.
  - intros c d s IH1 IH2. rewrite remove_range_two.
    destruct (is_high c && is_low d) eqn:P.
    + apply andb_prop in P. destruct P as [Ph Pl].
      destruct (in_range lo hi (pair_value c d)); [exact IH1|].
      intros [H|[H|H]]; [congruence | congruence | exact (IH1 H)].
    + destruct (in_range lo hi c) eqn:C; [exact IH2|].
      intros [H|H]; [subst c; exact C | exact (IH2 H)].
Qed.

Lemma surrogate_not_stripped (c : codeunit) :
  is_high c = true \/ is_low c = true -> is_stripped c = false.
Proof.
  unfold is_high, is_low, is_stripped, in_range.
  rewrite !andb_true_iff, !N.leb_le.
  rewrite !orb_false_iff, !andb_false_iff, !N.leb_gt. lia.
Qed.

Lemma strip_incl (s : jsstring) (x : codeunit) : In x (strip s) -> In x s.
Proof.
  unfold strip. cbv zeta. intros H.
  repeat apply remove_range_incl in H. exact H.
Qed.

(** No code unit of a stripped range is left: the symbols of the Basic
    Multilingual Plane are gone from every string. (An emoji above it is
    a pair of surrogates, which this does not speak of.) *)
Lemma strip_not_stripped (s : jsstring) (x : codeunit) :
  In x (strip s) -> is_stripped x = false.
Proof.
  destruct (is_high x) eqn:Xh; [intros _; apply surrogate_not_stripped; auto|].
  destruct (is_low x) eqn:Xl; [intros _; apply surrogate_not_stripped; auto|].
  unfold strip. cbv zeta. intros H.
  repeat (let R := fresh "R" in
          pose proof (@remove_range_gone _ _ _ _ Xh Xl H) as R;
          apply remove_range_incl in H).
  unfold is_stripped.
  repeat match goal with R : in_range _ _ x = false |- _ => rewrite R; clear R end.
  reflexivity.
Qed.

Lemma ws_not_stripped (c : codeunit) : is_ws c = true -> is_stripped c = false.
Proof.
  unfold is_ws, is_stripped, in_range.
  rewrite !orb_true_iff, !andb_true_iff, !N.leb_le, !N.eqb_eq.
  rewrite !orb_false_iff, !andb_false_iff, !N.leb_gt. lia.
Qed.

Lemma removeEmojis_incl (s : jsstring) (c : codeunit) :
  In c (removeEmojis s) -> (In c s /\ is_stripped c = false) \/ c = space.
Proof.
  rewrite removeEmojis_strip. intros H. apply trim_incl in H.
  apply replace_ws_runs_incl in H. destruct H as [H|H]; [left | right; exact H].
  split; [exact (strip_incl _ _ H) | exact (@strip_not_stripped _ _ H)].
Qed.

Lemma removeEmojis_ws_normal (s : jsstring) :
  ws_normal false (removeEmojis s) = true.
Proof.
  rewrite removeEmojis_strip. apply ws_normal_trim, replace_ws_runs_normal.
Qed.

Lemma removeEmojis_trimmed (s : jsstring) :
  trim (removeEmojis s) = removeEmojis s.
Proof. rewrite removeEmojis_strip. apply trim_idempotent. Qed.

Lemma removeEmojis_no_newline (s : jsstring) :
  includes newline (removeEmojis s) = false.
Proof.
  unfold includes. destruct (existsb _ _) eqn:E; [|reflexivity].
  apply existsb_exists in E. destruct E as [c [I E]]. apply N.eqb_eq in E.
  subst c. pose proof (ws_normal_space _ _ _ (removeEmojis_ws_normal s) I eq_refl).
  discriminate.
Qed.

(** The five ways through [escapeCsvField]. *)
Inductive Sanitized : option jsstring -> jsstring -> Prop :=
| SanNull : Sanitized None (lit "Null")
| SanBlank s : forallb is_ws s = true -> Sanitized (Some s) (lit "Nan")
| SanScrubbed s :
    forallb is_ws s = false -> removeEmojis s = [] -> Sanitized (Some s) []
| SanQuoted s :
    forallb is_ws s = false -> removeEmojis s <> [] ->
    includes comma (removeEmojis s) || includes dquote (removeEmojis s) = true ->
    Sanitized (Some s) (dquote :: double_quotes (removeEmojis s) ++ [dquote])
| SanPlain s :
    forallb is_ws s = false -> removeEmojis s <> [] ->
    includes comma (removeEmojis s) = false ->
    includes dquote (removeEmojis s) = false ->
    Sanitized (Some s) (removeEmojis s).

Lemma is_empty_true (s : jsstring) : is_empty s = true <-> s = [].
Proof. destruct s; simpl; split; congruence. Qed.

Lemma blank_test (s : jsstring) :
  is_empty s || is_empty (trim s) = forallb is_ws s.
Proof.
  destruct s as [|c s]; [reflexivity|]. cbn [is_empty orb].
  destruct (forallb is_ws (c :: s)) eqn:W.
  - rewrite (trim_all_ws _ W). reflexivity.
  - destruct (trim (c :: s)) eqn:T; [|reflexivity].
    apply trim_nil_all_ws in T. congruence.
Qed.

Lemma escapeCsvField_sanitized (field : option jsstring) :
  Sanitized field (escapeCsvField field).
Proof.
  destruct field as [s|]; [|constructor]. unfold escapeCsvField.
  rewrite blank_test. destruct (forallb is_ws s) eqn:W; [constructor; exact W|].
  rewrite removeEmojis_trimmed, orb_diag, removeEmojis_no_newline, orb_false_r.
  destruct (removeEmojis s) eqn:E; cbn [is_empty].
  - constructor; assumption.
  - rewrite <- E.
    destruct (includes comma (removeEmojis s) || includes dquote (removeEmojis s)) eqn:Q.
    + apply SanQuoted; [assumption | congruence | assumption].
    + apply orb_false_iff in Q. destruct Q.
      apply SanPlain; [assumption | congruence | assumption | assumption].
Qed.

(** The four ways of a present value, as equations. *)
Lemma sanitized_some (s : jsstring) :
  (forallb is_ws s = true /\ escapeCsvField (Some s) = lit "Nan")
  \/ (forallb is_ws s = false /\ removeEmojis s = []
      /\ escapeCsvField (Some s) = [])
  \/ (forallb is_ws s = false /\ removeEmojis s <> []
      /\ includes comma (removeEmojis s) || includes dquote (removeEmojis s) = true
      /\ escapeCsvField (Some s)
         = dquote :: double_quotes (removeEmojis s) ++ [dquote])
  \/ (forallb is_ws s = false /\ removeEmojis s <> []
      /\ includes comma (removeEmojis s) = false
      /\ includes dquote (removeEmojis s) = false
      /\ escapeCsvField (Some s) = removeEmojis s).
Proof.
  pose proof (escapeCsvField_sanitized (Some s)) as San.
  remember (escapeCsvField (Some s)) as r eqn:R. clear R.
  remember (Some s) as f eqn:F.
  destruct San as [|s' W|s' W E|s' W E I|s' W E I1 I2];
    try discriminate F; injection F as ->; tauto.
Qed.

Lemma escapeCsvField_blank (s : jsstring) :
  forallb is_ws s = true -> escapeCsvField (Some s) = lit "Nan".
Proof. intros W. unfold escapeCsvField. rewrite blank_test, W. reflexivity. Qed.

Lemma escapeCsvField_scrubbed (s : jsstring) :
  forallb is_ws s = false -> removeEmojis s = [] -> escapeCsvField (Some s) = [].
Proof.
  intros W E. unfold escapeCsvField. rewrite blank_test, W. cbv zeta.
  rewrite E. reflexivity.
Qed.

(** A sanitized value that needed no quoting is left as it is by a second
    pass when a second [removeEmojis] leaves it as it is. *)
Lemma escapeCsvField_plain_fixed (s : jsstring) :
  removeEmojis (removeEmojis s) = removeEmojis s ->
  removeEmojis s <> [] ->
  includes comma (removeEmojis s) = false ->
  includes dquote (removeEmojis s) = false ->
  escapeCsvField (Some (removeEmojis s)) = removeEmojis s.
Proof.
  intros Twice NE C Q. unfold escapeCsvField. rewrite blank_test.
  destruct (forallb is_ws (removeEmojis s)) eqn:W.
  - apply trim_all_ws in W. rewrite removeEmojis_trimmed in W. contradiction.
  - cbv zeta. rewrite Twice, removeEmojis_trimmed, orb_diag.
    rewrite C, Q, removeEmojis_no_newline.
    destruct (removeEmojis s); [contradiction | reflexivity].
Qed.

(** Counting double quotes. *)
Definition count_dq (s : jsstring) : nat := count_occ N.eq_dec s dquote.

Lemma count_dq_app (s t : jsstring) : count_dq (s ++ t) = count_dq s + count_dq t.
Proof. apply count_occ_app. Qed.

Lemma count_dq_cons_other (c : codeunit) (s : jsstring) :
  c <> dquote -> count_dq (c :: s) = count_dq s.
Proof. intros H. apply count_occ_cons_neq, H. Qed.

Lemma count_dq_cons_dquote (s : jsstring) : count_dq (dquote :: s) = S (count_dq s).
Proof. apply count_occ_cons_eq. reflexivity. Qed.

Lemma ws_not_dquote (c : codeunit) : is_ws c = true -> c <> dquote.
Proof. intros W E. subst c. discriminate. Qed.

Lemma count_dq_all_ws (w : jsstring) : forallb is_ws w = true -> count_dq w = 0.
Proof.
  induction w as [|c w IH]; simpl; [reflexivity|]. intros H.
  apply andb_prop in H. destruct H as [C W].
  rewrite count_dq_cons_other by apply ws_not_dquote, C. apply IH, W.
Qed.

Lemma count_dq_trim (s : jsstring) : count_dq (trim s) = count_dq s.
Proof.
  destruct (trim_split s) as [w1 [w2 [E [W1 W2]]]].
  rewrite E at 2. rewrite !count_dq_app.
  rewrite (count_dq_all_ws _ W1), (count_dq_all_ws _ W2). lia.
Qed.

Lemma count_dq_replace_ws_runs (b : bool) (s : jsstring) :
  count_dq (replace_ws_runs b s) = count_dq s.
Proof.
  revert b. induction s as [|c s IH]; intros b; simpl; [reflexivity|].
  destruct (is_ws c) eqn:C.
  - rewrite (count_dq_cons_other s) by apply ws_not_dquote, C.
    destruct b; [apply IH|].
    rewrite count_dq_cons_other by discriminate. apply IH.
  - destruct (N.eq_dec c dquote) as [E|E].
    + subst c. rewrite !count_dq_cons_dquote, IH. reflexivity.
    + rewrite !count_dq_cons_other by exact E. apply IH.
Qed.

Lemma surrogate_not_dquote (c : codeunit) :
  is_high c = true \/ is_low c = true -> c <> dquote.
Proof. intros H E. subst c. destruct H; discriminate. Qed.

Lemma count_dq_remove_range (lo hi : codepoint) (s : jsstring) :
  in_range lo hi dquote = false ->
  count_dq (remove_range lo hi s) = count_dq s.
Proof.
  intros R.
  assert (Out : forall c, in_range lo hi c = true -> c <> dquote).
  { intros c C E. subst c. congruence. }
  assert (Cons : forall c a b,
             count_dq a = count_dq b -> count_dq (c :: a) = count_dq (c :: b)).
  { intros c a b E. destruct (N.eq_dec c dquote) as [D|D].
    - subst c. rewrite !count_dq_cons_dquote, E. reflexivity.
    - rewrite !count_dq_cons_other by exact D. exact E. }
  revert s.
  apply (pair_induction
           (fun s => count_dq (remove_range lo hi s) = count_dq s)).
  - reflexivity.
  - intros c. rewrite remove_range_one. destruct (in_range lo hi c) eqn:C.
    + rewrite count_dq_cons_other by exact (Out c C). reflexivity.
    + reflexivity.
  - intros c d s IH1 IH2. rewrite remove_range_two.
    destruct (is_high c && is_low d) eqn:P.
    + apply andb_prop in P. destruct P as [Ph Pl].
      pose proof (surrogate_not_dquote (or_introl Ph)) as Nc.
      pose proof (surrogate_not_dquote (or_intror Pl)) as Nd.
      rewrite (count_dq_cons_other (d :: s) Nc), (count_dq_cons_other s Nd).
      destruct (in_range lo hi (pair_value c d)); [exact IH1|].
      rewrite (count_dq_cons_other (d :: remove_range lo hi s) Nc).
      rewrite (count_dq_cons_other (remove_range lo hi s) Nd). exact IH1.
    + destruct (in_range lo hi c) eqn:C.
      * rewrite (count_dq_cons_other (d :: s) (Out c C)). exact IH2.
      * apply Cons, IH2.
Qed.

Lemma count_dq_strip (s : jsstring) : count_dq (strip s) = count_dq s.
Proof.
  unfold strip. cbv zeta.
  rewrite !count_dq_remove_range by reflexivity. reflexivity.
Qed.

Lemma count_dq_removeEmojis (s : jsstring) : count_dq (removeEmojis s) = count_dq s.
Proof.
  rewrite removeEmojis_strip, count_dq_trim, count_dq_replace_ws_runs.
  apply count_dq_strip.
Qed.

Lemma count_dq_double_quotes (s : jsstring) :
  count_dq (double_quotes s) = 2 * count_dq s.
Proof.
  induction s as [|c s IH]; simpl; [reflexivity|].
  destruct (N.eqb_spec c dquote) as [E|E].
  - subst c. cbn [app]. rewrite !count_dq_cons_dquote, IH. lia.
  - cbn [app]. rewrite !count_dq_cons_other by exact E. exact IH.
Qed.

Lemma includes_dquote_count (s : jsstring) :
  includes dquote s = true <-> 0 < count_dq s.
Proof.
  unfold includes, count_dq. rewrite existsb_exists. split.
  - intros [c [I E]]. apply N.eqb_eq in E. subst c.
    apply (count_occ_In N.eq_dec), I.
  - intros I. apply (count_occ_In N.eq_dec) in I.
    exists dquote. split; [exact I | apply N.eqb_refl].
Qed.

(** A value that holds a double quote never comes back unchanged. *)
Lemma escapeCsvField_moves_quoted (s : jsstring) :
  includes dquote s = true -> escapeCsvField (Some s) <> s.
Proof.
  intros Q E. apply includes_dquote_count in Q.
  assert (C : count_dq (escapeCsvField (Some s)) = count_dq s) by (rewrite E; reflexivity).
  destruct (sanitized_some s) as [[W R]|[[W [X R]]|[[W [X [I R]]]|[W [X [I1 [I2 R]]]]]]];
    rewrite R in C.
  - change (count_dq (lit "Nan")) with 0 in C. lia.
  - change (count_dq []) with 0 in C. lia.
  - rewrite count_dq_cons_dquote, count_dq_app, count_dq_double_quotes in C.
    rewrite count_dq_removeEmojis in C. lia.
  - rewrite count_dq_removeEmojis in C.
    assert (Y : includes dquote (removeEmojis s) = true).
    { apply includes_dquote_count. rewrite count_dq_removeEmojis. exact Q. }
    congruence.
Qed.

(** *** Strings without unpaired surrogates

    A string that is the UTF-16 form of a sequence of Unicode scalar
    values (the code points up to 0x10FFFF that are no surrogates) is read
    by the patterns with the [u] flag as that sequence, and what
    [removeEmojis] does to it can be told on the code points. *)

Definition is_scalar (cp : codepoint) : bool :=
  (cp <? 0x110000)%N && negb (in_range 0xD800 0xDFFF cp).

(** [removeEmojis] told on code points: the stripped ones are dropped,
    then the white space, which lies below 0x10000, is cleaned up. *)
Definition scrub (cps : list codepoint) : list codepoint :=
  trim (replace_ws_runs false (filter kept cps)).

Lemma filter_twice (f g : codepoint -> bool) (s : list codepoint) :
  filter f (filter g s) = filter (fun c => g c && f c) s.
Proof.
  induction s as [|c s IH]; simpl; [reflexivity|].
  destruct (g c); simpl; [|exact IH].
  destruct (f c); simpl; [f_equal; exact IH | exact IH].
Qed.

Lemma filter_kept_id (s : list codepoint) :
  (forall c, In c s -> is_stripped c = false) -> filter kept s = s.
Proof.
  induction s as [|a s IH]; simpl; intros H; [reflexivity|].
  unfold kept at 1. rewrite (H a (or_introl eq_refl)). simpl.
  f_equal. apply IH. intros c I. apply H. right. exact I.
Qed.

Lemma scrub_incl (cps : list codepoint) (c : codepoint) :
  In c (scrub cps) -> (In c cps /\ is_stripped c = false) \/ c = space.
Proof.
  unfold scrub. intros H. apply trim_incl in H.
  apply replace_ws_runs_incl in H. destruct H as [H|H]; [left | right; exact H].
  apply filter_In in H. destruct H as [I K]. split; [exact I|].
  unfold kept in K. apply negb_true_iff, K.
Qed.

Lemma scrub_not_stripped (cps : list codepoint) (c : codepoint) :
  In c (scrub cps) -> is_stripped c = false.
Proof.
  intros H. destruct (scrub_incl _ _ H) as [[_ K]|E]; [exact K|].
  subst c. reflexivity.
Qed.

Lemma scrub_ws_normal (cps : list codepoint) : ws_normal false (scrub cps) = true.
Proof. apply ws_normal_trim, replace_ws_runs_normal. Qed.

Lemma scrub_idempotent (cps : list codepoint) : scrub (scrub cps) = scrub cps.
Proof.
  unfold scrub at 1.
  rewrite filter_kept_id by apply scrub_not_stripped.
  rewrite replace_ws_runs_id by apply scrub_ws_normal.
  apply trim_idempotent.
Qed.

Lemma scrub_blank (cps : list codepoint) :
  forallb (fun c => is_stripped c || is_ws c) cps = true -> scrub cps = [].
Proof.
  intros H. apply trim_all_ws.
  apply replace_ws_runs_all_ws. apply forallb_forall. intros c I.
  apply filter_In in I. destruct I as [I K].
  rewrite forallb_forall in H. specialize (H c I). unfold kept in K.
  apply negb_true_iff in K. rewrite K in H. exact H.
Qed.

Lemma scrub_scalar (cps : list codepoint) :
  forallb is_scalar cps = true -> forallb is_scalar (scrub cps) = true.
Proof.
  rewrite !forallb_forall. intros H c I.
  destruct (scrub_incl _ _ I) as [[J _]|E]; [exact (H c J)|].
  subst c. reflexivity.
Qed.

(** The units of a scalar value: itself, or a pair that reads back as
    it. *)
Lemma units_of_cases (cp : codepoint) :
  is_scalar cp = true ->
  (units_of cp = [cp] /\ is_high cp = false /\ is_low cp = false
   /\ (cp <? 0x10000)%N = true)
  \/ (exists h l,
        units_of cp = [h; l] /\ is_high h = true /\ is_low l = true
        /\ pair_value h l = cp /\ (cp <? 0x10000)%N = false).
Proof.
  unfold is_scalar, units_of, in_range. intros H.
  apply andb_prop in H. destruct H as [B S].
  apply N.ltb_lt in B. apply negb_true_iff in S.
  destruct (N.ltb_spec cp 0x10000) as [L|L].
  - left. split; [reflexivity|]. unfold is_high, is_low, in_range.
    rewrite !andb_false_iff, !N.leb_gt in *. split; [lia|]. split; [lia | reflexivity].
  - right. do 2 eexists. split; [reflexivity|].
    pose proof (N.div_mod' (cp - 0x10000) 0x400) as D.
    pose proof (N.mod_lt (cp - 0x10000) 0x400 ltac:(discriminate)) as M.
    assert (Q : ((cp - 0x10000) / 0x400 < 0x400)%N).
    { apply N.Div0.div_lt_upper_bound. lia. }
    unfold is_high, is_low, in_range, pair_value.
    rewrite !andb_true_iff, !N.leb_le. clear S.
    generalize dependent ((cp - 0x10000) / 0x400)%N.
    generalize dependent ((cp - 0x10000) mod 0x400)%N.
    intros r M q D Q. repeat split; lia.
Qed.

Lemma of_code_points_cons (cp : codepoint) (cps : list codepoint) :
  of_code_points (cp :: cps) = units_of cp ++ of_code_points cps.
Proof. reflexivity. Qed.

Lemma of_code_points_app (a b : list codepoint) :
  of_code_points (a ++ b) = of_code_points a ++ of_code_points b.
Proof. apply flat_map_app. Qed.

(** On such a string a replacement drops the code points of its range. *)
Lemma remove_range_of_code_points (lo hi : codepoint) (cps : list codepoint) :
  forallb is_scalar cps = true ->
  remove_range lo hi (of_code_points cps)
  = of_code_points (filter (fun cp => negb (in_range lo hi cp)) cps).
Proof.
  induction cps as [|cp cps IH]; [reflexivity|]. cbn [forallb]. intros H.
  apply andb_prop in H. destruct H as [S R]. specialize (IH R).
  rewrite of_code_points_cons. cbn [filter].
  destruct (units_of_cases _ S) as [[U [Nh _]]|[h [l [U [Hh [Ll [V _]]]]]]].
  - rewrite U. cbn [app]. rewrite remove_range_unit by exact Nh.
    destruct (in_range lo hi cp); cbn [negb]; [exact IH|].
    rewrite of_code_points_cons, U, IH. reflexivity.
  - rewrite U. cbn [app]. rewrite remove_range_pair by assumption. rewrite V.
    destruct (in_range lo hi cp); cbn [negb]; [exact IH|].
    rewrite of_code_points_cons, U, IH. reflexivity.
Qed.

Lemma filter_scalar (f : codepoint -> bool) (cps : list codepoint) :
  forallb is_scalar cps = true -> forallb is_scalar (filter f cps) = true.
Proof.
  rewrite !forallb_forall. intros H c I. apply filter_In in I. apply H, I.
Qed.

Lemma strip_of_code_points (cps : list codepoint) :
  forallb is_scalar cps = true ->
  strip (of_code_points cps) = of_code_points (filter kept cps).
Proof.
  intros S. unfold strip. cbv zeta.
  repeat rewrite remove_range_of_code_points
    by (repeat apply filter_scalar; exact S).
  rewrite !filter_twice. f_equal. apply filter_ext. intros c.
  unfold kept, is_stripped. rewrite !negb_orb, !andb_assoc. reflexivity.
Qed.

Lemma ws_is_unit (c : codepoint) :
  is_ws c = true -> units_of c = [c].
Proof.
  intros W. unfold units_of. destruct (N.ltb_spec c 0x10000) as [L|L]; [reflexivity|].
  exfalso. revert W. unfold is_ws, in_range.
  rewrite !orb_true_iff, !andb_true_iff, !N.leb_le, !N.eqb_eq. lia.
Qed.

Lemma surrogate_not_ws (c : codeunit) :
  is_high c = true \/ is_low c = true -> is_ws c = false.
Proof.
  unfold is_high, is_low, is_ws, in_range.
  rewrite !andb_true_iff, !N.leb_le.
  rewrite !orb_false_iff, !andb_false_iff, !N.leb_gt, !N.eqb_neq. lia.
Qed.

Lemma astral_not_ws (c : codepoint) :
  (c <? 0x10000)%N = false -> is_ws c = false.
Proof.
  intros L. destruct (is_ws c) eqn:W; [|reflexivity].
  apply ws_is_unit in W. unfold units_of in W. rewrite L in W. discriminate W.
Qed.

Lemma replace_ws_runs_of_code_points (b : bool) (cps : list codepoint) :
  forallb is_scalar cps = true ->
  replace_ws_runs b (of_code_points cps)
  = of_code_points (replace_ws_runs b cps).
Proof.
  revert b. induction cps as [|cp cps IH]; intros b; [reflexivity|].
  cbn [forallb]. intros H. apply andb_prop in H. destruct H as [S R].
  rewrite of_code_points_cons. cbn [replace_ws_runs].
  destruct (units_of_cases _ S) as [[U _]|[h [l [U [Hh [Ll [_ A]]]]]]].
  - rewrite U. cbn [app replace_ws_runs]. destruct (is_ws cp).
    + destruct b; [apply IH, R|].
      rewrite of_code_points_cons. change (units_of space) with [space].
      cbn [app]. f_equal. apply IH, R.
    + rewrite of_code_points_cons, U. cbn [app]. f_equal. apply IH, R.
  - rewrite U, (astral_not_ws _ A). cbn [app replace_ws_runs].
    rewrite (surrogate_not_ws _ (or_introl Hh)), (surrogate_not_ws _ (or_intror Ll)).
    rewrite of_code_points_cons, U. cbn [app]. do 2 f_equal. apply IH, R.
Qed.

Lemma trim_unique (w1 m w2 : jsstring) :
  forallb is_ws w1 = true -> forallb is_ws w2 = true ->
  starts_clean m = true -> starts_clean (rev m) = true ->
  trim (w1 ++ m ++ w2) = m.
Proof.
  intros W1 W2 C1 C2.
  assert (L : forall w t, forallb is_ws w = true -> trimStart (w ++ t) = trimStart t).
  { induction w as [|c w IH]; intros t W; [reflexivity|]. cbn [forallb] in W.
    apply andb_prop in W. destruct W as [C W]. cbn [app trimStart].
    rewrite C. apply IH, W. }
  unfold trim, trimEnd. rewrite L by exact W1.
  destruct m as [|c m].
  - cbn [app]. rewrite (trimStart_all_ws _ W2). reflexivity.
  - rewrite (trimStart_id ((c :: m) ++ w2)) by exact C1.
    rewrite rev_app_distr, L.
    + rewrite (trimStart_id _ C2). apply rev_involutive.
    + rewrite forallb_forall in *. intros x X. apply W2, in_rev, X.
Qed.

Lemma of_code_points_all_ws (w : list codepoint) :
  forallb is_ws w = true -> of_code_points w = w.
Proof.
  induction w as [|c w IH]; [reflexivity|]. cbn [forallb]. intros H.
  apply andb_prop in H. destruct H as [C W].
  rewrite of_code_points_cons, (ws_is_unit _ C), (IH W). reflexivity.
Qed.

Lemma units_of_starts_clean (c : codepoint) :
  is_scalar c = true -> is_ws c = false ->
  forall t, starts_clean (units_of c ++ t) = true
            /\ starts_clean (rev (units_of c) ++ t) = true.
Proof.
  intros S W t.
  destruct (units_of_cases _ S) as [[U _]|[h [l [U [Hh [Ll _]]]]]]; rewrite U.
  - cbn. rewrite W. split; reflexivity.
  - cbn. rewrite (surrogate_not_ws _ (or_introl Hh)), (surrogate_not_ws _ (or_intror Ll)).
    split; reflexivity.
Qed.

Lemma of_code_points_starts_clean (m : list codepoint) :
  forallb is_scalar m = true -> starts_clean m = true ->
  starts_clean (of_code_points m) = true.
Proof.
  destruct m as [|c m]; [reflexivity|]. cbn [forallb starts_clean]. intros H C.
  apply andb_prop in H. destruct H as [S _]. apply negb_true_iff in C.
  rewrite of_code_points_cons. apply (units_of_starts_clean _ S C).
Qed.

Lemma of_code_points_ends_clean (m : list codepoint) :
  forallb is_scalar m = true -> starts_clean (rev m) = true ->
  starts_clean (rev (of_code_points m)) = true.
Proof.
  intros S C. rewrite <- (rev_involutive m) in S |- *.
  destruct (rev m) as [|c r]; [reflexivity|].
  cbn [starts_clean] in C. apply negb_true_iff in C.
  cbn [rev] in S |- *. rewrite forallb_app in S. apply andb_prop in S.
  destruct S as [_ S]. cbn [forallb] in S. rewrite andb_true_r in S.
  rewrite of_code_points_app, rev_app_distr.
  change (of_code_points [c]) with (units_of c ++ []). rewrite app_nil_r.
  apply (units_of_starts_clean _ S C).
Qed.

Lemma trim_scalar (cps : list codepoint) :
  forallb is_scalar cps = true -> forallb is_scalar (trim cps) = true.
Proof.
  rewrite !forallb_forall. intros H c I. apply H, trim_incl, I.
Qed.

Lemma trim_of_code_points (cps : list codepoint) :
  forallb is_scalar cps = true ->
  trim (of_code_points cps) = of_code_points (trim cps).
Proof.
  intros S. destruct (trim_split cps) as [w1 [w2 [E [W1 W2]]]].
  rewrite E at 1. rewrite !of_code_points_app.
  rewrite (of_code_points_all_ws _ W1), (of_code_points_all_ws _ W2).
  apply trim_unique; try assumption.
  - apply of_code_points_starts_clean; [apply trim_scalar, S | apply trim_starts_clean].
  - apply of_code_points_ends_clean; [apply trim_scalar, S | apply trim_ends_clean].
Qed.

Lemma replace_ws_runs_scalar (b : bool) (cps : list codepoint) :
  forallb is_scalar cps = true ->
  forallb is_scalar (replace_ws_runs b cps) = true.
Proof.
  rewrite !forallb_forall. intros H c I.
  destruct (replace_ws_runs_incl _ _ _ I) as [J|E]; [exact (H c J)|].
  subst c. reflexivity.
Qed.

(** On a string without unpaired surrogates [removeEmojis] is [scrub] of
    its code points. *)
Lemma removeEmojis_of_code_points (cps : list codepoint) :
  forallb is_scalar cps = true ->
  removeEmojis (of_code_points cps) = of_code_points (scrub cps).
Proof.
  intros S. rewrite removeEmojis_strip, (strip_of_code_points _ S).
  rewrite replace_ws_runs_of_code_points by apply filter_scalar, S.
  apply trim_of_code_points, replace_ws_runs_scalar, filter_scalar, S.
Qed.

Lemma removeEmojis_twice_of_code_points (cps : list codepoint) :
  forallb is_scalar cps = true ->
  removeEmojis (removeEmojis (of_code_points cps))
  = removeEmojis (of_code_points cps).
Proof.
  intros S. rewrite (removeEmojis_of_code_points _ S).
  rewrite (removeEmojis_of_code_points _ (scrub_scalar _ S)).
  rewrite scrub_idempotent. reflexivity.
Qed.

Lemma of_code_points_blank (cps : list codepoint) :
  forallb is_scalar cps = true ->
  forallb is_ws (of_code_points cps) = forallb is_ws cps.
Proof.
  induction cps as [|cp cps IH]; [reflexivity|]. cbn [forallb]. intros H.
  apply andb_prop in H. destruct H as [S R].
  rewrite of_code_points_cons, forallb_app, (IH R).
  destruct (units_of_cases _ S) as [[U _]|[h [l [U [Hh [_ [_ A]]]]]]]; rewrite U.
  - cbn [forallb]. rewrite andb_true_r. reflexivity.
  - cbn [forallb]. rewrite (surrogate_not_ws _ (or_introl Hh)), (astral_not_ws _ A).
    reflexivity.
Qed.

Lemma stripped_or_ws_scalar (c : codepoint) :
  is_stripped c || is_ws c = true -> is_scalar c = true.
Proof.
  unfold is_stripped, is_ws, is_scalar, in_range.
  rewrite !orb_true_iff, !andb_true_iff, negb_true_iff, !N.leb_le, !N.eqb_eq.
  rewrite N.ltb_lt, andb_false_iff, !N.leb_gt. lia.
Qed.

End SanitizerFacts.

(** ** [split] after [join] *)

Section SplitJoin.

Variable d : codeunit.
Variable sep' : jsstring.

Let sep : jsstring := d :: sep'.

Lemma starts_with_app (p rest : jsstring) : starts_with p (p ++ rest) = true.
Proof.
  induction p as [|c p IH]; simpl; [reflexivity|].
  rewrite N.eqb_refl. exact IH.
Qed.

Lemma split_go_skip (a cur rest : jsstring) :
  split_go sep (length a) cur (a ++ rest) = split_go sep 0 cur rest.
Proof.
  induction a as [|c a IH]; simpl; [destruct rest; reflexivity | exact IH].
Qed.

(** Reading through a piece that holds no [d]. *)
Lemma split_go_piece (p cur rest : jsstring) :
  ~ In d p ->
  split_go sep 0 cur (p ++ rest) = split_go sep 0 (rev p ++ cur) rest.
Proof.
  revert cur. induction p as [|c p IH]; intros cur H; simpl.
  - destruct rest; reflexivity.
  - destruct (N.eqb_spec d c) as [E|E].
    + exfalso. apply H. left. symmetry. exact E.
    + simpl. rewrite IH by (intros I; apply H; right; exact I).
      rewrite <- app_assoc. reflexivity.
Qed.

(** Passing over one occurrence of the separator. *)
Lemma split_go_sep (cur rest : jsstring) :
  split_go sep 0 cur (sep ++ rest) = rev cur :: split_go sep 0 [] rest.
Proof.
  assert (ST : starts_with sep (d :: sep' ++ rest) = true)
    by apply (starts_with_app sep rest).
  assert (L : length sep - 1 = length sep') by (simpl; lia).
  change (sep ++ rest) with (d :: sep' ++ rest). cbn [split_go].
  rewrite ST, L, split_go_skip. reflexivity.
Qed.

Lemma split_go_join (pieces : list jsstring) (p cur : jsstring) :
  (forall q, In q (p :: pieces) -> ~ In d q) ->
  split_go sep 0 cur (join sep (p :: pieces)) = (rev cur ++ p) :: pieces.
Proof.
  revert p cur. induction pieces as [|q qs IH]; intros p cur H.
  - simpl. rewrite <- (app_nil_r p) at 1.
    rewrite split_go_piece by (apply H; left; reflexivity).
    simpl. rewrite rev_app_distr, rev_involutive. reflexivity.
  - change (join sep (p :: q :: qs)) with (p ++ sep ++ join sep (q :: qs)).
    rewrite split_go_piece by (apply H; left; reflexivity).
    rewrite split_go_sep, rev_app_distr, rev_involutive.
    rewrite IH by (intros x I; apply H; right; exact I).
    reflexivity.
Qed.

Lemma split_join (pieces : list jsstring) :
  pieces <> [] -> (forall q, In q pieces -> ~ In d q) ->
  split sep (join sep pieces) = pieces.
Proof.
  destruct pieces as [|p pieces]; [congruence|]. intros _ H.
  unfold split, sep at 1. fold sep. apply (@split_go_join pieces p [] H).
Qed.

End SplitJoin.

Lemma join_incl (sep : jsstring) (pieces : list jsstring) (c : codeunit) :
  In c (join sep pieces) -> In c sep \/ exists p, In p pieces /\ In c p.
Proof.
  induction pieces as [|p rest IH]; [intros []|].
  destruct rest as [|q rest].
  - simpl. intros H. right. exists p. auto.
  - change (join sep (p :: q :: rest)) with (p ++ sep ++ join sep (q :: rest)).
    intros H. apply in_app_or in H. destruct H as [H|H].
    + right. exists p. split; [left; reflexivity | exact H].
    + apply in_app_or in H. destruct H as [H|H]; [left; exact H|].
      destruct (IH H) as [H'|[x [I X]]]; [left; exact H'|].
      right. exists x. split; [right; exact I | exact X].
Qed.

Lemma includes_false (c : codeunit) (s : jsstring) :
  includes c s = false -> ~ In c s.
Proof.
  unfold includes. intros H I.
  assert (X : existsb (N.eqb c) s = true).
  { apply existsb_exists. exists c. split; [exact I | apply N.eqb_refl]. }
  congruence.
Qed.

(** ** Facts on the CSV text *)

Module CsvFacts.

Import CSVService SanitizerFacts.

Lemma double_quotes_incl (s : jsstring) (c : codeunit) :
  In c (double_quotes s) -> In c s \/ c = dquote.
Proof.
  induction s as [|a s IH]; simpl; [tauto|]. intros H.
  apply in_app_or in H. destruct H as [H|H].
  - destruct (a =? dquote)%N; simpl in H; intuition.
  - destruct (IH H); auto.
Qed.

(** The characters of a sanitized field come from the value, or from the
    two sentinels, the space and the double quote. *)
Lemma escapeCsvField_incl (field : option jsstring) (c : codeunit) :
  In c (escapeCsvField field) ->
  (exists s, field = Some s /\ In c s)
  \/ In c (lit "Null" ++ lit "Nan" ++ [space; dquote]).
Proof.
  assert (R : forall s, In c (removeEmojis s) ->
     (exists s', Some s = Some s' /\ In c s')
      \/ In c (lit "Null" ++ lit "Nan" ++ [space; dquote])).
  { intros s H. destruct (removeEmojis_incl _ _ H) as [[I _]|E].
    - left. exists s. split; [reflexivity | exact I].
    - right. subst c. apply in_or_app. right. apply in_or_app. right.
      left. reflexivity. }
  assert (Q : In dquote (lit "Null" ++ lit "Nan" ++ [space; dquote])).
  { apply in_or_app. right. apply in_or_app. right. right. left. reflexivity. }
  destruct field as [s|].
  - destruct (sanitized_some s) as [[_ E]|[[_ [_ E]]|[[_ [_ [_ E]]]|[_ [_ [_ [_ E]]]]]]];
      rewrite E; intros H.
    + right. apply in_or_app. right. apply in_or_app. left. exact H.
    + destruct H.
    + destruct H as [H|H]; [subst c; right; exact Q|].
      apply in_app_or in H. destruct H as [H|H].
      * apply double_quotes_incl in H. destruct H as [H|H]; [apply R, H|].
        subst c. right. exact Q.
      * destruct H as [H|[]]. subst c. right. exact Q.
    + apply R, H.
  - intros H. right. apply in_or_app. left. exact H.
Qed.

Lemma escapeCsvField_no_newline (field : option jsstring) :
  ~ In newline (escapeCsvField field).
Proof.
  destruct field as [s|]; [|apply includes_false; reflexivity].
  pose proof (includes_false _ _ (removeEmojis_no_newline s)) as N.
  destruct (sanitized_some s) as [[_ E]|[[_ [_ E]]|[[_ [_ [_ E]]]|[_ [_ [_ [_ E]]]]]]];
    rewrite E.
  - apply includes_false. reflexivity.
  - intros [].
  - intros [H|H]; [discriminate|]. apply in_app_or in H. destruct H as [H|H].
    + apply double_quotes_incl in H. destruct H as [H|H]; [exact (N H) | discriminate].
    + destruct H as [H|[]]. discriminate.
  - exact N.
Qed.

(** The text fields fed to the sanitizer hold no [c]. *)
Definition free_of (c : codeunit) (field : option jsstring) : Prop :=
  match field with
  | Some s => ~ In c s
  | None => True
  end.

Lemma escapeCsvField_no_semicolon (field : option jsstring) :
  free_of semicolon field -> ~ In semicolon (escapeCsvField field).
Proof.
  intros F H. apply escapeCsvField_incl in H. destruct H as [[s [E I]]|H].
  - subst field. exact (F I).
  - revert H. apply includes_false. reflexivity.
Qed.

Lemma or_empty_free (c : codeunit) (value : option jsstring) :
  free_of c value -> free_of c (or_empty value).
Proof. destruct value as [[|a v]|]; simpl; auto. Qed.

Lemma uint_digits_range (u : Decimal.uint) (c : codeunit) :
  In c (uint_digits u) -> (48 <= c <= 57)%N.
Proof.
  induction u; simpl; intros H; try (destruct H as [H|H]; [subst c; lia | auto]).
  destruct H.
Qed.

Lemma number_to_string_chars (n : Z) (c : codeunit) :
  In c (number_to_string n) -> c = 45%N \/ (48 <= c <= 57)%N.
Proof.
  unfold number_to_string. destruct (Z.to_int n) as [u|u]; simpl.
  - intros H. right. apply (uint_digits_range u), H.
  - intros [H|H]; [left; symmetry; exact H | right; apply (uint_digits_range u), H].
Qed.

Lemma number_to_string_free (n : Z) (c : codeunit) :
  c = newline \/ c = semicolon -> ~ In c (number_to_string n).
Proof.
  intros E H. apply number_to_string_chars in H.
  destruct E; subst c; destruct H as [H|H]; try discriminate H;
    unfold newline, semicolon in H; lia.
Qed.

Definition play_free_of (c : codeunit) (review : ReviewService.ReviewData) : Prop :=
  free_of c (ReviewService.id review)
  /\ free_of c (ReviewService.userName review)
  /\ free_of c (ReviewService.text review)
  /\ free_of c (ReviewService.date review)
  /\ free_of c (ReviewService.version review).

Definition appStore_free_of (c : codeunit)
    (review : AppStoreService.AppStoreReviewData) : Prop :=
  free_of c (AppStoreService.id review)
  /\ free_of c (AppStoreService.userName review)
  /\ free_of c (AppStoreService.title review)
  /\ free_of c (AppStoreService.text review)
  /\ free_of c (AppStoreService.version review)
  /\ free_of c (AppStoreService.date review).

Ltac each_field :=
  repeat match goal with
         | H : _ \/ _ |- _ => destruct H as [H|H]
         | H : _ = _ |- _ => subst
         | H : False |- _ => destruct H
         end.

Lemma playFields_no_newline (review : ReviewService.ReviewData) (q : jsstring) :
  In q (playFields review) -> ~ In newline q.
Proof.
  unfold playFields. simpl. intros H. each_field;
    first [apply escapeCsvField_no_newline
          | apply number_to_string_free; auto].
Qed.

Lemma appStoreFields_no_newline (review : AppStoreService.AppStoreReviewData)
    (q : jsstring) :
  In q (appStoreFields review) -> ~ In newline q.
Proof.
  unfold appStoreFields. simpl. intros H. each_field;
    first [apply escapeCsvField_no_newline
          | apply number_to_string_free; auto].
Qed.

Lemma playFields_no_semicolon (review : ReviewService.ReviewData) (q : jsstring) :
  play_free_of semicolon review -> In q (playFields review) -> ~ In semicolon q.
Proof.
  intros [F1 [F2 [F3 [F4 F5]]]]. unfold playFields. simpl. intros H.
  each_field;
    first [apply number_to_string_free; auto
          | apply escapeCsvField_no_semicolon; try assumption;
            apply or_empty_free; assumption].
Qed.

Lemma appStoreFields_no_semicolon (review : AppStoreService.AppStoreReviewData)
    (q : jsstring) :
  appStore_free_of semicolon review -> In q (appStoreFields review) ->
  ~ In semicolon q.
Proof.
  intros [F1 [F2 [F3 [F4 [F5 F6]]]]]. unfold appStoreFields. simpl. intros H.
  each_field;
    first [apply number_to_string_free; auto
          | apply escapeCsvField_no_semicolon; assumption].
Qed.

(** A row holds no line feed: neither the delimiter nor a field does. *)
Lemma row_no_newline (fields : list jsstring) :
  (forall q, In q fields -> ~ In newline q) ->
  ~ In newline (join delimiter fields).
Proof.
  intros H I. apply join_incl in I. destruct I as [I|[q [Q I]]].
  - revert I. apply includes_false. reflexivity.
  - exact (H q Q I).
Qed.

(** The lines of the text are the header and the rows. *)
Lemma play_lines (reviews : list ReviewService.ReviewData) :
  split [newline] (playContent reviews)
  = join delimiter playHeader
    :: map (fun review => join delimiter (playFields review)) reviews.
Proof.
  unfold playContent. cbv zeta. apply split_join; [discriminate|].
  intros q [E|I].
  - subst q. apply includes_false. reflexivity.
  - apply in_map_iff in I. destruct I as [review [E _]]. subst q.
    apply row_no_newline, playFields_no_newline.
Qed.

Lemma appStore_lines (reviews : list AppStoreService.AppStoreReviewData) :
  split [newline] (appStoreContent reviews)
  = join delimiter appStoreHeader
    :: map (fun review => join delimiter (appStoreFields review)) reviews.
Proof.
  unfold appStoreContent. cbv zeta. apply split_join; [discriminate|].
  intros q [E|I].
  - subst q. apply includes_false. reflexivity.
  - apply in_map_iff in I. destruct I as [review [E _]]. subst q.
    apply row_no_newline, appStoreFields_no_newline.
Qed.

Lemma play_row_fields (review : ReviewService.ReviewData) :
  play_free_of semicolon review ->
  split delimiter (join delimiter (playFields review)) = playFields review.
Proof.
  intros F. change delimiter with (semicolon :: [semicolon]).
  apply split_join; [discriminate|]. intros q. apply playFields_no_semicolon, F.
Qed.

Lemma appStore_row_fields (review : AppStoreService.AppStoreReviewData) :
  appStore_free_of semicolon review ->
  split delimiter (join delimiter (appStoreFields review))
  = appStoreFields review.
Proof.
  intros F. change delimiter with (semicolon :: [semicolon]).
  apply split_join; [discriminate|]. intros q.
  apply appStoreFields_no_semicolon, F.
Qed.

End CsvFacts.

(** ** The field sanitizer: sentinels, second pass, quoting *)

Section SanitizerClaims.

Import CSVService SanitizerFacts.

(** C3. The sanitizer gives [Null] for an absent value, [Nan] for a
    present value that is empty or all white space, and the empty string
    for a present value that is not blank but of which [removeEmojis]
    leaves nothing (as when every character is a stripped symbol or white
    space, the grinning face U+1F600, the pair D83D DE00, for one); the
    empty string is neither sentinel. *)
Theorem sanitizer_tri_state :
  escapeCsvField None = lit "Null"
  /\ (forall s, forallb is_ws s = true -> escapeCsvField (Some s) = lit "Nan")
  /\ (forall s, forallb is_ws s = false -> removeEmojis s = [] ->
      escapeCsvField (Some s) = [])
  /\ (forall cps, forallb is_ws cps = false ->
      forallb (fun c => is_stripped c || is_ws c) cps = true ->
      escapeCsvField (Some (of_code_points cps)) = [])
  /\ escapeCsvField (Some []) = lit "Nan"
  /\ escapeCsvField (Some (lit "   ")) = lit "Nan"
  /\ of_code_points [0x1F600%N] = [0xD83D%N; 0xDE00%N]
  /\ escapeCsvField (Some [0xD83D%N; 0xDE00%N]) = []
  /\ ([] : jsstring) <> lit "Null"
  /\ ([] : jsstring) <> lit "Nan".
Proof.
  split; [reflexivity|].
  split; [exact escapeCsvField_blank|].
  split; [exact escapeCsvField_scrubbed|].
  split.
  { intros cps W B.
    assert (S : forallb is_scalar cps = true).
    { rewrite forallb_forall in *. intros c I. apply stripped_or_ws_scalar, B, I. }
    apply escapeCsvField_scrubbed.
    - rewrite (of_code_points_blank _ S). exact W.
    - rewrite (removeEmojis_of_code_points _ S), (scrub_blank _ B). reflexivity. }
  repeat split; try reflexivity; discriminate.
Qed.

(** C3 at a string of a tab, a space and an ideographic space, and at a
    grinning face, a space and a heart with its variation selector. *)
Lemma sanitizer_tri_state_witness :
  escapeCsvField (Some [9%N; 32%N; 0x3000%N]) = lit "Nan"
  /\ escapeCsvField
       (Some (of_code_points [0x1F600%N; 32%N; 0x2764%N; 0xFE0F%N])) = [].
Proof.
  destruct sanitizer_tri_state as [_ [Blank [_ [Scrubbed _]]]].
  split; [apply Blank | apply Scrubbed]; reflexivity.
Defined.

(** C4, as the code has it. Sanitizing the sanitized value again gives the
    same value exactly when that value is not empty, holds no double quote
    and is left as it is by [removeEmojis]. For an absent value and for a
    string without unpaired surrogates the last condition always holds:
    [Null], [Nan] and the values returned unquoted are then fixed, the
    empty string of scrubbed content becomes [Nan], and a quoted value is
    quoted once more. *)
Theorem sanitize_twice_iff (field : option jsstring) :
  (escapeCsvField (Some (escapeCsvField field)) = escapeCsvField field
   <-> escapeCsvField field <> []
       /\ includes dquote (escapeCsvField field) = false
       /\ removeEmojis (escapeCsvField field) = escapeCsvField field)
  /\ ((field = None
       \/ exists cps,
            forallb is_scalar cps = true /\ field = Some (of_code_points cps)) ->
      (escapeCsvField (Some (escapeCsvField field)) = escapeCsvField field
       <-> escapeCsvField field <> []
           /\ includes dquote (escapeCsvField field) = false)).
Proof.
  assert (Back :
    escapeCsvField field <> [] ->
    includes dquote (escapeCsvField field) = false ->
    removeEmojis (escapeCsvField field) = escapeCsvField field ->
    escapeCsvField (Some (escapeCsvField field)) = escapeCsvField field).
  { intros NE Q T. destruct field as [s|]; [|reflexivity].
    destruct (sanitized_some s) as [[_ E]|[[_ [_ E]]|[[_ [_ [_ E]]]|[_ [X [C [D E]]]]]]];
      rewrite E in *.
    - reflexivity.
    - congruence.
    - simpl in Q. discriminate Q.
    - apply escapeCsvField_plain_fixed; assumption. }
  assert (Forth :
    escapeCsvField (Some (escapeCsvField field)) = escapeCsvField field ->
    escapeCsvField field <> []
    /\ includes dquote (escapeCsvField field) = false
    /\ removeEmojis (escapeCsvField field) = escapeCsvField field).
  { intros E.
    assert (NE : escapeCsvField field <> []).
    { intros Z. rewrite Z in E. discriminate E. }
    assert (Q : includes dquote (escapeCsvField field) = false).
    { destruct (includes dquote (escapeCsvField field)) eqn:Q; [|reflexivity].
      exfalso. exact (escapeCsvField_moves_quoted Q E). }
    split; [exact NE|]. split; [exact Q|].
    remember (escapeCsvField field) as v eqn:V. clear V.
    destruct (sanitized_some v) as [[W R]|[[W [_ R]]|[[_ [_ [_ R]]]|[_ [_ [_ [_ R]]]]]]];
      pose proof (eq_trans (eq_sym R) E) as X.
    - rewrite <- X in W. discriminate W.
    - congruence.
    - rewrite <- X in Q. simpl in Q. discriminate Q.
    - exact X. }
  split; [split; [exact Forth | intros [NE [Q T]]; exact (Back NE Q T)]|].
  intros Paired. split; [intros E; destruct (Forth E) as [NE [Q _]]; auto|].
  intros [NE Q]. apply Back; [exact NE | exact Q|].
  destruct Paired as [->|[cps [S ->]]]; [reflexivity|].
  destruct (sanitized_some (of_code_points cps))
    as [[_ E]|[[_ [_ E]]|[[_ [_ [_ E]]]|[_ [_ [_ [_ E]]]]]]]; rewrite E in *.
  - reflexivity.
  - congruence.
  - simpl in Q. discriminate Q.
  - apply removeEmojis_twice_of_code_points, S.
Qed.

(** C4 at a plain text and at an absent value: a second pass leaves the
    sanitized value as it is. *)
Lemma sanitize_twice_iff_witness :
  escapeCsvField (Some (escapeCsvField (Some (lit "good app"))))
  = escapeCsvField (Some (lit "good app"))
  /\ escapeCsvField (Some (escapeCsvField None)) = escapeCsvField None.
Proof.
  split.
  - apply (proj2 (sanitize_twice_iff (Some (lit "good app")))).
    + right. exists (lit "good app"). split; reflexivity.
    + split; [vm_compute; discriminate | vm_compute; reflexivity].
  - apply (proj2 (sanitize_twice_iff None)).
    + left. reflexivity.
    + split; [vm_compute; discriminate | vm_compute; reflexivity].
Defined.

(** C4 as stated fails on emoji-only content: the first pass gives the
    empty string and the second pass turns it into [Nan]. *)
Lemma sanitize_twice_emoji_differs :
  escapeCsvField (Some (escapeCsvField (Some [0xD83D%N; 0xDE00%N]))) = lit "Nan"
  /\ escapeCsvField (Some [0xD83D%N; 0xDE00%N]) = []
  /\ escapeCsvField (Some (escapeCsvField (Some [0xD83D%N; 0xDE00%N])))
     <> escapeCsvField (Some [0xD83D%N; 0xDE00%N]).
Proof. repeat split; try reflexivity. discriminate. Qed.

(** With unpaired surrogates a second pass can change a value that is not
    empty and holds no quote: the joiner between D83D and DE00 is taken
    out after the pass for U+1F600 has run, the two surrogates are left
    side by side, and the second pass reads them as the grinning face. *)
Example sanitize_twice_unpaired_surrogates :
  escapeCsvField (Some ([0xD83D%N; 0x200D%N; 0xDE00%N] ++ lit "a"))
  = [0xD83D%N; 0xDE00%N] ++ lit "a"
  /\ escapeCsvField (Some ([0xD83D%N; 0xDE00%N] ++ lit "a")) = lit "a"
  /\ removeEmojis [0xD83D%N; 0x200D%N; 0xDE00%N] = [0xD83D%N; 0xDE00%N]
  /\ removeEmojis [0xD83D%N; 0xDE00%N] = [].
Proof. repeat split; reflexivity. Qed.

(** C5 at its failing inputs. The test before quoting looks for a comma,
    not for the delimiter: a value with the delimiter in it comes back
    without quotes, and a value with a comma, which is none of the three
    characters of the claim, comes back quoted. A value with a double quote
    is quoted, its quote doubled. In general a present value that is not
    blank and of which [removeEmojis] leaves something is quoted exactly
    when what is left holds a comma or a double quote. *)
Theorem escapeCsvField_delimiter_not_quoted :
  escapeCsvField (Some (lit "a;;b")) = lit "a;;b"
  /\ escapeCsvField (Some (lit "a,b")) = dquote :: lit "a,b" ++ [dquote]
  /\ escapeCsvField (Some (lit "a" ++ dquote :: lit "b"))
     = dquote :: lit "a" ++ dquote :: dquote :: lit "b" ++ [dquote]
  /\ forall s,
      forallb is_ws s = false -> removeEmojis s <> [] ->
      escapeCsvField (Some s)
      = if includes comma (removeEmojis s) || includes dquote (removeEmojis s)
        then dquote :: double_quotes (removeEmojis s) ++ [dquote]
        else removeEmojis s.
Proof.
  split; [reflexivity|]. split; [reflexivity|]. split; [reflexivity|].
  intros s W NE.
  destruct (sanitized_some s)
    as [[W' _]|[[_ [X _]]|[[_ [_ [Q E]]]|[_ [_ [C [D E]]]]]]].
  - congruence.
  - contradiction.
  - rewrite Q. exact E.
  - rewrite C, D. exact E.
Qed.

End SanitizerClaims.

(** ** The CSV text: lines, fields and the row count of the statistics *)

Section CsvClaims.

Import CSVService SanitizerFacts CsvFacts.

Example play_row :
  playContent [play_review "good app"]
  = lit "id;;userName;;content;;score;;date;;thumbsUp;;version"
    ++ newline :: lit "gp:1;;Ada;;good app;;5;;2025-08-25T12:00:00.000Z;;12;;Nan".
Proof. reflexivity. Qed.

(** C6, as the code has it. The text of [M] records has [M + 1] lines,
    the header and one row per record in their order, for both schemas;
    the header splits on the delimiter into the seven names of its schema;
    and a row splits into seven fields when no text field of its record
    holds a semicolon. *)
Theorem csv_lines_and_fields :
  (forall reviews,
      length (split [newline] (playContent reviews)) = length reviews + 1
      /\ split [newline] (playContent reviews)
         = join delimiter playHeader
           :: map (fun review => join delimiter (playFields review)) reviews)
  /\ (forall reviews,
      length (split [newline] (appStoreContent reviews)) = length reviews + 1
      /\ split [newline] (appStoreContent reviews)
         = join delimiter appStoreHeader
           :: map (fun review => join delimiter (appStoreFields review)) reviews)
  /\ split delimiter (join delimiter playHeader)
     = [lit "id"; lit "userName"; lit "content"; lit "score"; lit "date";
        lit "thumbsUp"; lit "version"]
  /\ split delimiter (join delimiter appStoreHeader)
     = [lit "id"; lit "userName"; lit "title"; lit "content"; lit "score";
        lit "version"; lit "date"]
  /\ (forall reviews,
      Forall (play_free_of semicolon) reviews ->
      Forall (fun line => length (split delimiter line) = 7)
             (split [newline] (playContent reviews)))
  /\ (forall reviews,
      Forall (appStore_free_of semicolon) reviews ->
      Forall (fun line => length (split delimiter line) = 7)
             (split [newline] (appStoreContent reviews))).
Proof.
  split; [|split; [|split; [|split; [|split]]]].
  - intros reviews. rewrite play_lines. split; [|reflexivity].
    simpl. rewrite length_map. lia.
  - intros reviews. rewrite appStore_lines. split; [|reflexivity].
    simpl. rewrite length_map. lia.
  - reflexivity.
  - reflexivity.
  - intros reviews F. rewrite play_lines. constructor; [reflexivity|].
    apply Forall_map. apply Forall_impl with (2 := F).
    intros review H. rewrite (play_row_fields H). reflexivity.
  - intros reviews F. rewrite appStore_lines. constructor; [reflexivity|].
    apply Forall_map. apply Forall_impl with (2 := F).
    intros review H. rewrite (appStore_row_fields H). reflexivity.
Qed.

(** C6 at two Play reviews, one with a comma in its text, and at one App
    Store review. *)
Lemma csv_lines_and_fields_witness :
  Forall (fun line => length (split delimiter line) = 7)
         (split [newline]
            (playContent [play_review "good, cheap"; play_review "slow"]))
  /\ Forall (fun line => length (split delimiter line) = 7)
            (split [newline] (appStoreContent [appStore_review "nice"])).
Proof.
  destruct csv_lines_and_fields as [_ [_ [_ [_ [Play AppStore]]]]].
  split; [apply Play | apply AppStore];
    repeat constructor; simpl; intuition discriminate.
Defined.

(** C6 as stated fails on a review whose text holds the delimiter: its row
    splits into eight pieces. *)
Lemma csv_row_with_delimiter_in_text :
  map (fun line => length (split delimiter line))
      (split [newline] (playContent [play_review "fast;;cheap"]))
  = [7; 8]
  /\ ~ Forall (fun line => length (split delimiter line) = 7)
         (split [newline] (playContent [play_review "fast;;cheap"])).
Proof.
  split; [reflexivity|]. intros F.
  apply Forall_forall with (x := join delimiter (playFields (play_review "fast;;cheap"))) in F.
  - vm_compute in F. discriminate F.
  - rewrite play_lines. right. left. reflexivity.
Qed.

(** C9 at every input. The text written by the two exports ends without a
    line feed, so the [M + 1] lines are [M + 1] pieces of [split], and
    [getExportStats], which takes one off for a last empty piece and one
    for the header, reports [M - 1] reviews for a file of [M] records. *)
Theorem getExportStats_one_short :
  forall (path_resolve : string -> string)
         (path_join : string -> string -> string) (now : string)
         (options : CSVExportOptions) (fs : FileSystem),
    (forall reviews,
        let (filePath, fs') :=
          exportReviewsToCSV path_resolve path_join now reviews options fs in
        getExportStats filePath fs'
        = Some {| statsPath := filePath;
                  reviewCount := Z.of_nat (length reviews) - 1 |})
    /\ (forall reviews,
        let (filePath, fs') :=
          exportAppStoreReviewsToCSV path_resolve path_join now reviews options fs in
        getExportStats filePath fs'
        = Some {| statsPath := filePath;
                  reviewCount := Z.of_nat (length reviews) - 1 |}).
Proof.
  intros path_resolve path_join now options fs.
  split; intros reviews;
    unfold exportReviewsToCSV, exportAppStoreReviewsToCSV; cbv beta iota zeta;
    unfold getExportStats, writeFileSync; rewrite String.eqb_refl;
    [rewrite play_lines | rewrite appStore_lines];
    cbn [length]; rewrite length_map; do 2 f_equal; lia.
Qed.

(** One review written below the working directory [/srv/api]: the
    statistics of the file count no review. *)
Example getExportStats_single_review :
  getExportStats
    "/srv/api/exports/app.csv"
    (snd (exportReviewsToCSV
            (fun dir => ("/srv/api/" ++ dir)%string)
            (fun dir name => (dir ++ "/" ++ name)%string)
            "0" [play_review "good app"]
            {| appId := "app"; filename := Some "app.csv"%string;
               outputDir := None |}
            (fun _ => None)))
  = Some {| statsPath := "/srv/api/exports/app.csv"; reviewCount := 0 |}.
Proof. reflexivity. Qed.

End CsvClaims.

(** ** Facts on the App Store loop *)

Module AppStoreFacts.

Import AppStoreService.

Lemma mapReviewData_id (review : AppStoreReviewData) : mapReviewData review = review.
Proof. destruct review; reflexivity. Qed.

Lemma map_mapReviewData (l : list AppStoreReviewData) : map mapReviewData l = l.
Proof.
  induction l as [|a l IH]; simpl; [reflexivity|].
  rewrite mapReviewData_id, IH. reflexivity.
Qed.

Lemma calls_app (t u : list Event) : calls (t ++ u) = calls t ++ calls u.
Proof. apply flat_map_app. Qed.

Lemma fetched_app (t u : list Event) : fetched (t ++ u) = fetched t ++ fetched u.
Proof. apply flat_map_app. Qed.

Lemma delays_app (t u : list Event) : delays (t ++ u) = delays t ++ delays u.
Proof. apply flat_map_app. Qed.

Section AnyUpstream.

Variable World : Type.
Variable appStore_reviews :
  nat -> World -> (string + list AppStoreReviewData) * World.

Abbreviation Loop := (Loop World).
Abbreviation iteration := (iteration appStore_reviews).
Abbreviation pages_loop := (pages_loop appStore_reviews).

(** One iteration, by what the storefront answers. *)
Inductive Step (totalReviews page : nat) (st : Loop)
  : option Stop -> Loop -> Prop :=
| StepFailed message w :
    appStore_reviews page (world (run st)) = (inl message, w) ->
    Step totalReviews page st None
      {| allReviews := allReviews st;
         run := {| world := w;
                   trace := trace (run st)
                            ++ [Call page (inl message); ErrorLogged page] |} |}
| StepEmpty w :
    appStore_reviews page (world (run st)) = (inr [], w) ->
    Step totalReviews page st (Some StopEmpty)
      {| allReviews := allReviews st;
         run := {| world := w;
                   trace := trace (run st) ++ [Call page (inr [])] |} |}
| StepTarget result w :
    appStore_reviews page (world (run st)) = (inr result, w) ->
    result <> [] ->
    totalReviews <= length (allReviews st ++ result) ->
    Step totalReviews page st (Some StopTarget)
      {| allReviews := firstn totalReviews (allReviews st ++ result);
         run := {| world := w;
                   trace := trace (run st) ++ [Call page (inr result)] |} |}
| StepShortPage result w :
    appStore_reviews page (world (run st)) = (inr result, w) ->
    result <> [] ->
    length (allReviews st ++ result) < totalReviews ->
    length result < 50 ->
    Step totalReviews page st (Some StopShortPage)
      {| allReviews := allReviews st ++ result;
         run := {| world := w;
                   trace := trace (run st) ++ [Call page (inr result)] |} |}
| StepFullPage result w :
    appStore_reviews page (world (run st)) = (inr result, w) ->
    result <> [] ->
    length (allReviews st ++ result) < totalReviews ->
    50 <= length result ->
    Step totalReviews page st None
      {| allReviews := allReviews st ++ result;
         run := {| world := w;
                   trace := trace (run st)
                            ++ [Call page (inr result); Delay 1000] |} |}.

Lemma iteration_step (totalReviews page : nat) (st : Loop) :
  Step totalReviews page st (fst (iteration totalReviews page st))
       (snd (iteration totalReviews page st)).
Proof.
  unfold AppStoreService.iteration, getReviews, emit.
  destruct (appStore_reviews page (world (run st))) as [[message|result] w] eqn:E;
    cbv beta iota zeta; cbn [reviews fst snd world trace].
  - rewrite <- app_assoc. apply StepFailed, E.
  - rewrite map_mapReviewData.
    destruct result as [|a result]; [apply StepEmpty, E|].
    replace (length (a :: result) =? 0) with false by reflexivity.
    destruct (Nat.leb_spec totalReviews (length (allReviews st ++ a :: result))) as [T|T].
    + apply StepTarget; [exact E | discriminate | exact T].
    + unfold reviewsPerPage.
      destruct (Nat.ltb_spec (length (a :: result)) 50) as [S|S];
        cbn [fst snd].
      * apply StepShortPage; [exact E | discriminate | exact T | exact S].
      * rewrite <- app_assoc. apply StepFullPage; [exact E | discriminate | exact T | exact S].
Qed.

(** The loop, by its iterations. *)
Inductive Loops (totalReviews : nat)
  : nat -> nat -> Loop -> Stop -> Loop -> Prop :=
| LoopsDone page st : Loops totalReviews 0 page st StopPages st
| LoopsStop left page st stop st' :
    Step totalReviews page st (Some stop) st' ->
    Loops totalReviews (S left) page st stop st'
| LoopsNext left page st st' stop st'' :
    Step totalReviews page st None st' ->
    Loops totalReviews left (S page) st' stop st'' ->
    Loops totalReviews (S left) page st stop st''.

Lemma pages_loop_loops (totalReviews left page : nat) (st : Loop) :
  Loops totalReviews left page st
        (fst (pages_loop totalReviews left page st))
        (snd (pages_loop totalReviews left page st)).
Proof.
  revert page st. induction left as [|left IH]; intros page st; simpl.
  - constructor.
  - pose proof (iteration_step totalReviews page st) as S.
    destruct (iteration totalReviews page st) as [[stop|] st']; simpl in S.
    + apply LoopsStop, S.
    + eapply LoopsNext; [exact S | apply IH].
Qed.

(** What holds between two iterations of a run that started with nothing
    fetched: the reviews kept are the pages that came back, one after the
    other, and they are fewer than asked for. *)
Definition Collecting (totalReviews : nat) (st : Loop) : Prop :=
  allReviews st = concat (fetched (trace (run st)))
  /\ length (allReviews st) < totalReviews.

(** What a run leaves behind, by its exit: on the target, everything but
    the last page is kept whole and the last page is cut at its end;
    otherwise all the pages are kept and they are fewer than asked for. *)
Definition Collected (totalReviews : nat) (stop : Stop) (st : Loop) : Prop :=
  match stop with
  | StopTarget =>
      exists earlier lastPage,
        fetched (trace (run st)) = earlier ++ [lastPage]
        /\ length (concat earlier) < totalReviews
        /\ allReviews st
           = concat earlier
             ++ firstn (totalReviews - length (concat earlier)) lastPage
        /\ length (allReviews st) = totalReviews
  | _ =>
      allReviews st = concat (fetched (trace (run st)))
      /\ length (allReviews st) < totalReviews
  end.

Lemma step_next (totalReviews page : nat) (st st' : Loop) :
  Step totalReviews page st None st' ->
  Collecting totalReviews st ->
  Collecting totalReviews st'
  /\ calls (trace (run st')) = calls (trace (run st)) ++ [page]
  /\ length (allReviews st) <= length (allReviews st').
Proof.
  intros S [C L]. inversion S as [message w E| | | |result w E NE T F]; subst; cbn.
  - rewrite calls_app. unfold Collecting. cbn. rewrite fetched_app. cbn.
    rewrite app_nil_r. auto.
  - rewrite calls_app. unfold Collecting. cbn. rewrite fetched_app. cbn.
    rewrite concat_app. cbn. rewrite app_nil_r, <- C, length_app.
    rewrite length_app in T. repeat split; lia.
Qed.

Lemma step_stop (totalReviews page : nat) (st st' : Loop) (stop : Stop) :
  Step totalReviews page st (Some stop) st' ->
  Collecting totalReviews st ->
  Collected totalReviews stop st'
  /\ calls (trace (run st')) = calls (trace (run st)) ++ [page]
  /\ stop <> StopPages.
Proof.
  intros S [C L].
  inversion S as [|w E|result w E NE T|result w E NE T F|]; subst; cbn;
    (split; [|split; [rewrite calls_app; reflexivity | discriminate]]).
  - cbn. rewrite fetched_app. cbn. rewrite concat_app. cbn.
    rewrite !app_nil_r. auto.
  - exists (fetched (trace (run st))), result. cbn. rewrite fetched_app. cbn.
    rewrite <- C. split; [reflexivity|]. split; [exact L|].
    rewrite firstn_app, (firstn_all2 (allReviews st)) by lia.
    split; [reflexivity|].
    rewrite length_app, length_firstn. rewrite length_app in T. lia.
  - cbn. rewrite fetched_app. cbn. rewrite concat_app. cbn.
    rewrite app_nil_r, <- C. auto.
Qed.

Lemma loops_collected (totalReviews left page : nat) (st st' : Loop) (stop : Stop) :
  Loops totalReviews left page st stop st' ->
  Collecting totalReviews st ->
  Collected totalReviews stop st'
  /\ exists k, k <= left
      /\ calls (trace (run st')) = calls (trace (run st)) ++ seq page k.
Proof.
  induction 1 as [page st|left page st stop st' Hs|left page st st' stop st'' Hs L IH];
    intros C.
  - split; [exact C|]. exists 0. rewrite app_nil_r. auto.
  - destruct (step_stop Hs C) as [D [E _]]. split; [exact D|].
    exists 1. split; [lia | exact E].
  - destruct (step_next Hs C) as [C' [E _]].
    destruct (IH C') as [D [k [K F]]]. split; [exact D|].
    exists (S k). split; [lia|]. rewrite F, E, <- app_assoc. reflexivity.
Qed.


Lemma collected_prefix (totalReviews : nat) (stop : Stop) (st : Loop) :
  Collected totalReviews stop st ->
  allReviews st = firstn totalReviews (concat (fetched (trace (run st)))).
Proof.
  destruct stop; cbn.
  2:{ intros [earlier [lastPage [F [L [A _]]]]]. rewrite F, concat_app. cbn.
      rewrite app_nil_r, firstn_app, firstn_all2 by lia. exact A. }
  all: intros [A L]; rewrite <- A, firstn_all2 by lia; reflexivity.
Qed.

End AnyUpstream.

End AppStoreFacts.

(** ** Facts on the Play loop *)

Module PlayFacts.

Import ReviewService.

Lemma play_mapReviewData_id (review : ReviewData) : mapReviewData review = review.
Proof. destruct review; reflexivity. Qed.

Lemma play_map_mapReviewData (l : list ReviewData) : map mapReviewData l = l.
Proof.
  induction l as [|a l IH]; simpl; [reflexivity|].
  rewrite play_mapReviewData_id, IH. reflexivity.
Qed.

Lemma play_calls_app (t u : list Event) : calls (t ++ u) = calls t ++ calls u.
Proof. apply flat_map_app. Qed.

Lemma play_fetched_app (t u : list Event) : fetched (t ++ u) = fetched t ++ fetched u.
Proof. apply flat_map_app. Qed.

(** A call that threw. *)
Definition is_failure (e : Event) : bool :=
  match e with Call _ (inl _) => true | _ => false end.

Section AnyUpstream.

Variable World : Type.
Variable gplay_reviews : GplayOptions -> World -> (string + GplayResult) * World.

Abbreviation Loop := (Loop World).
Abbreviation Run := (Run World).
Abbreviation iteration := (iteration gplay_reviews).
Abbreviation batches := (batches gplay_reviews).

(** What [gplay.reviews] is asked in the iteration that starts in [st]. *)
Definition request (num : nat) (st : Loop) : GplayOptions :=
  {| gplayNum := Nat.min (Nat.min (num - fetchedCount st) batchSize) 200;
     gplayPaginate := true;
     gplayToken := if truthy (nextToken st) then nextToken st else None |}.

Definition after (st : Loop) (w : World) (events : list Event) : Run :=
  {| world := w; trace := trace (run st) ++ events |}.

(** One iteration, by what the store answers. *)
Inductive Step (num : nat) (st : Loop)
  : string * Run + option Stop * Loop -> Prop :=
| StepFailed message w :
    gplay_reviews (request num st) (world (run st)) = (inl message, w) ->
    Step num st
      (inl (("Failed to fetch reviews batch: " ++ message)%string,
            after st w [Call (request num st) (inl message)]))
| StepEmpty result w :
    gplay_reviews (request num st) (world (run st)) = (inr result, w) ->
    data result = [] ->
    Step num st
      (inr (Some StopEmpty,
            {| allReviews := allReviews st; nextToken := nextToken st;
               fetchedCount := fetchedCount st;
               run := after st w [Call (request num st) (inr result)] |}))
| StepNoToken result w :
    gplay_reviews (request num st) (world (run st)) = (inr result, w) ->
    data result <> [] ->
    truthy (resultToken result) = false ->
    Step num st
      (inr (Some StopNoToken,
            {| allReviews := allReviews st ++ data result;
               nextToken := resultToken result;
               fetchedCount := fetchedCount st + length (data result);
               run := after st w [Call (request num st) (inr result)] |}))
| StepMore result w :
    gplay_reviews (request num st) (world (run st)) = (inr result, w) ->
    data result <> [] ->
    truthy (resultToken result) = true ->
    Step num st
      (inr (None,
            {| allReviews := allReviews st ++ data result;
               nextToken := resultToken result;
               fetchedCount := fetchedCount st + length (data result);
               run := after st w [Call (request num st) (inr result);
                                  Delay 500] |})).

Lemma batch_step (num : nat) (st : Loop) : Step num st (iteration num st).
Proof.
  unfold ReviewService.iteration, fetchSingleBatch, emit.
  cbv beta iota zeta. cbn [ReviewService.num paginate nextPaginationToken].
  cbv beta iota zeta. fold (request num st).
  destruct (gplay_reviews (request num st) (world (run st)))
    as [[message|result] w] eqn:E;
    cbv beta iota zeta; cbn [reviews responseToken world trace].
  - apply StepFailed, E.
  - rewrite play_map_mapReviewData.
    destruct (Nat.eqb_spec (length (data result)) 0) as [Z|Z].
    + eapply StepEmpty; [exact E | apply length_zero_iff_nil, Z].
    + assert (NE : data result <> []) by (intros D; apply Z; rewrite D; reflexivity).
      destruct (truthy (resultToken result)) eqn:T; cbn [negb].
      * rewrite <- app_assoc. eapply StepMore; [exact E | exact NE | exact T].
      * eapply StepNoToken; [exact E | exact NE | exact T].
Qed.



(** More fuel than needed changes nothing. *)
Lemma batches_fuel (fuel fuel' num : nat) (st : Loop) :
  fuel <= fuel' -> batches fuel num st <> None ->
  batches fuel' num st = batches fuel num st.
Proof.
  revert fuel' st. induction fuel as [|fuel IH]; intros fuel' st F; simpl.
  - destruct fuel'; simpl; destruct (fetchedCount st <? num); congruence.
  - destruct fuel' as [|fuel']; [lia|]. simpl.
    destruct (fetchedCount st <? num); [|reflexivity].
    destruct (iteration num st) as [failure|[[stop|] st']]; try reflexivity.
    apply IH. lia.
Qed.

(** What holds between two iterations of a run that started with nothing
    fetched: the reviews kept are the batches that came back, one after the
    other, [fetchedCount] counts them, and no call has failed. *)
Definition Collecting (st : Loop) : Prop :=
  allReviews st = concat (fetched (trace (run st)))
  /\ fetchedCount st = length (allReviews st)
  /\ existsb is_failure (trace (run st)) = false.

(** How a run ends: with the error of the call that failed, the first to
    fail, or with all the batches, none cut. *)
Definition Ended (num : nat) (out : string * Run + Stop * Loop) : Prop :=
  match out with
  | inl (message, r) =>
      exists t options cause,
        trace r = t ++ [Call options (inl cause)]
        /\ existsb is_failure t = false
        /\ message = ("Failed to fetch reviews batch: " ++ cause)%string
  | inr (stop, st) =>
      Collecting st /\ (stop = StopTarget -> num <= fetchedCount st)
  end.

Lemma batches_ended (fuel num : nat) (st : Loop) out :
  Collecting st -> batches fuel num st = Some out -> Ended num out.
Proof.
  revert st. induction fuel as [|fuel IH]; intros st C; simpl.
  - destruct (Nat.ltb_spec (fetchedCount st) num); [discriminate|].
    intros E. injection E as <-. split; [exact C | lia].
  - destruct (Nat.ltb_spec (fetchedCount st) num) as [L|L].
    2:{ intros E. injection E as <-. split; [exact C | lia]. }
    pose proof (batch_step num st) as S.
    destruct C as [A [F N]].
    destruct (iteration num st) as [failure|[[stop|] st']];
      inversion S as [message w G|result w G D|result w G D T|result w G D T];
      subst.
    + intros E. injection E as <-. cbn.
      exists (trace (run st)), (request num st), message. auto.
    + intros E. injection E as <-. cbn. unfold Collecting. cbn.
      rewrite play_fetched_app, existsb_app, concat_app. cbn.
      rewrite D, !app_nil_r, N. repeat split; try assumption. discriminate.
    + intros E. injection E as <-. cbn. unfold Collecting. cbn.
      rewrite play_fetched_app, existsb_app, concat_app. cbn.
      rewrite app_nil_r, N, <- A, length_app, F.
      repeat split. discriminate.
    + apply IH. unfold Collecting. cbn.
      rewrite play_fetched_app, existsb_app, concat_app. cbn.
      rewrite app_nil_r, N, <- A, length_app, F. repeat split.
Qed.

End AnyUpstream.

End PlayFacts.

(** ** Facts on lists and on the number of pages *)

Lemma firstn_then_more (A : Type) (a b : nat) (l : list A) :
  firstn a l ++ firstn b (skipn a l) = firstn (a + b) l.
Proof.
  revert l. induction a as [|a IH]; intros l; [reflexivity|].
  destruct l as [|x l]; simpl; [destruct b; reflexivity|].
  f_equal. apply IH.
Qed.

Lemma ceil_div_covers (n : nat) : n <= 50 * ceil_div n 50.
Proof.
  unfold ceil_div. pose proof (Nat.div_mod_eq (n + (50 - 1)) 50) as E.
  pose proof (Nat.mod_upper_bound (n + (50 - 1)) 50). lia.
Qed.

Lemma ceil_div_unique (n p : nat) :
  50 * p < n + 50 -> n <= 50 * p -> ceil_div n 50 = p.
Proof.
  intros L U. unfold ceil_div. symmetry.
  apply Nat.div_unique with (r := n + (50 - 1) - 50 * p); lia.
Qed.

(** ** The App Store loop over a storefront that holds [avail] *)

Module PagedFacts.

Import AppStoreService AppStoreFacts Storefronts.

Section Paged.

Variable avail : list AppStoreReviewData.
Variable totalReviews : nat.

Lemma page_of_length (page : nat) :
  length (page_of avail page) = Nat.min 50 (length avail - 50 * (page - 1)).
Proof. unfold page_of. rewrite length_firstn, length_skipn. reflexivity. Qed.

(** Before the iteration for [page]: the pages before it were full and
    are all kept, and they are fewer than asked for. *)
Definition AtPage (page : nat) (st : Loop unit) : Prop :=
  1 <= page
  /\ allReviews st = firstn (50 * (page - 1)) avail
  /\ 50 * (page - 1) <= length avail
  /\ 50 * (page - 1) < totalReviews.

Lemma kept_with_page (page : nat) (st : Loop unit) :
  AtPage page st ->
  allReviews st ++ page_of avail page = firstn (50 * (page - 1) + 50) avail.
Proof.
  intros [_ [A _]]. rewrite A. apply firstn_then_more.
Qed.

Lemma paged_loops (left page : nat) (st st' : Loop unit) (stop : Stop) :
  Loops (paged_source avail) totalReviews left page st stop st' ->
  AtPage page st ->
  left + page = ceil_div totalReviews 50 + 1 ->
  allReviews st' = firstn totalReviews avail
  /\ (totalReviews <= length avail ->
      stop = StopTarget
      /\ trace (run st') = trace (run st) ++ paged_trace avail page left)
  /\ (length avail < totalReviews ->
      stop = StopEmpty \/ stop = StopShortPage).
Proof.
  induction 1 as [page st|left page st stop st' Hs|left page st st' stop st'' Hs L IH];
    intros P Q.
  - exfalso. destruct P as [P1 [_ [_ P4]]].
    pose proof (ceil_div_covers totalReviews). nia.
  - pose proof (kept_with_page P) as K. pose proof (page_of_length page) as PL.
    destruct P as [P1 [P2 [P3 P4]]].
    inversion Hs as [|w E|result w E NE T|result w E NE T F|]; subst;
      unfold paged_source in E; injection E as E1 E2;
      cbn [allReviews run trace world].
    + rewrite E1 in PL. cbn [length] in PL.
      assert (X : length avail = 50 * (page - 1)) by lia.
      rewrite P2, <- X, !firstn_all2 by lia.
      split; [reflexivity|]. split; [lia | auto].
    + subst result. rewrite K in *. rewrite length_firstn in T.
      rewrite firstn_firstn. replace (Nat.min totalReviews (50 * (page - 1) + 50))
        with totalReviews by lia.
      split; [reflexivity|]. split; [|lia]. intros _. split; [reflexivity|].
      assert (X : ceil_div totalReviews 50 = page) by (apply ceil_div_unique; lia).
      assert (left = 0) by lia. subst left. reflexivity.
    + subst result. rewrite K in *. rewrite length_firstn in T.
      rewrite !firstn_all2 by lia.
      split; [reflexivity|]. split; [lia | auto].
  - pose proof (kept_with_page P) as K. pose proof (page_of_length page) as PL.
    destruct P as [P1 [P2 [P3 P4]]].
    inversion Hs as [message w E| | | |result w E NE T F]; subst;
      unfold paged_source in E; [discriminate E|]. injection E as E1 E2.
    subst result. rewrite K in *. rewrite length_firstn in T.
    match type of IH with ?A -> _ => assert (P' : A) end.
    { unfold AtPage. cbn [allReviews].
      replace (50 * (S page - 1)) with (50 * (page - 1) + 50) by lia.
      repeat split; lia. }
    assert (Q' : left + S page = ceil_div totalReviews 50 + 1) by lia.
    destruct (IH P' Q') as [A [B C]]. split; [exact A|]. split; [|exact C].
    intros U. destruct (B U) as [B1 B2]. split; [exact B1|].
    rewrite B2. cbn [run trace]. rewrite <- app_assoc.
    pose proof (ceil_div_covers totalReviews).
    destruct left as [|left]; [lia | reflexivity].
Qed.

End Paged.

End PagedFacts.

(** ** The Play loop over a store that holds [avail] *)

Module TokenFacts.

Import ReviewService PlayFacts Storefronts.

Lemma offset_of_token (n : nat) : offset_of (token_of n) = n.
Proof. induction n as [|n IH]; simpl; [reflexivity | rewrite IH; reflexivity]. Qed.

Lemma token_truthy (n : nat) : truthy (Some (token_of n)) = true.
Proof. destruct n; reflexivity. Qed.

Section Tokens.

Variable avail : list ReviewData.
Variable num : nat.

(** Between two iterations: the reviews kept are the first
    [fetchedCount] of the store, no more than asked for, and the token
    names the place after them. *)
Definition AtOffset (st : Loop unit) : Prop :=
  allReviews st = firstn (fetchedCount st) avail
  /\ fetchedCount st <= length avail
  /\ fetchedCount st <= num
  /\ (nextToken st = None /\ fetchedCount st = 0
      \/ nextToken st = Some (token_of (fetchedCount st))).

Definition batch_of (st : Loop unit) : list ReviewData :=
  firstn (Nat.min (num - fetchedCount st) 200) (skipn (fetchedCount st) avail).

Lemma token_source_request (st : Loop unit) (w : unit) :
  AtOffset st ->
  token_source avail (request num st) w
  = (inr {| data := batch_of st;
            resultToken :=
              if fetchedCount st + length (batch_of st) <? length avail
              then Some (token_of (fetchedCount st + length (batch_of st)))
              else None |}, w).
Proof.
  intros [_ [_ [_ T]]]. unfold token_source, request, batch_of, batchSize.
  cbn [gplayNum gplayToken].
  replace (Nat.min (Nat.min (num - fetchedCount st) 200) 200)
    with (Nat.min (num - fetchedCount st) 200) by lia.
  destruct T as [[T Z]|T]; rewrite T.
  - cbn [truthy]. rewrite Z. reflexivity.
  - rewrite token_truthy, offset_of_token. reflexivity.
Qed.

Lemma batch_of_length (st : Loop unit) :
  length (batch_of st)
  = Nat.min (Nat.min (num - fetchedCount st) 200)
            (length avail - fetchedCount st).
Proof. unfold batch_of. rewrite length_firstn, length_skipn. reflexivity. Qed.

Lemma kept_with_batch (st : Loop unit) :
  AtOffset st ->
  allReviews st ++ batch_of st
  = firstn (fetchedCount st + Nat.min (num - fetchedCount st) 200) avail.
Proof. intros [A _]. rewrite A. apply firstn_then_more. Qed.

Lemma token_batches (fuel : nat) (st : Loop unit) :
  AtOffset st ->
  num - fetchedCount st <= fuel ->
  exists stop st',
    batches (token_source avail) fuel num st = Some (inr (stop, st'))
    /\ allReviews st' = firstn num avail
    /\ (length avail < num -> stop = StopEmpty \/ stop = StopNoToken).
Proof.
  revert st. induction fuel as [|fuel IH]; intros st P F.
  - exists StopTarget, st. destruct P as [A [B [C _]]]. simpl.
    destruct (Nat.ltb_spec (fetchedCount st) num); [lia|].
    replace num with (fetchedCount st) by lia. split; [reflexivity|].
    split; [exact A | lia].
  - simpl. destruct (Nat.ltb_spec (fetchedCount st) num) as [Lt|Ge].
    2:{ exists StopTarget, st. destruct P as [A [B [C _]]].
        replace num with (fetchedCount st) by lia. split; [reflexivity|].
        split; [exact A | lia]. }
    pose proof (batch_step (token_source avail) num st) as Hs.
    pose proof (kept_with_batch P) as K.
    pose proof (batch_of_length st) as BL.
    pose proof (fun w => token_source_request w P) as R.
    destruct P as [A [B [C T]]].
    destruct (ReviewService.iteration (token_source avail) num st)
      as [failure|[[stop|] st']];
      inversion Hs as [message w G|result w G D|result w G D N|result w G D N];
      subst; rewrite R in G; try discriminate G;
      injection G as G1 G2; subst result; cbn [data resultToken] in *.
    + do 2 eexists. split; [reflexivity|]. cbn [allReviews].
      rewrite D in BL. cbn [length] in BL.
      rewrite A, !firstn_all2 by lia. split; [reflexivity | auto].
    + do 2 eexists. split; [reflexivity|]. cbn [allReviews].
      destruct (Nat.ltb_spec (fetchedCount st + length (batch_of st))
                             (length avail)) as [X|X];
        [rewrite token_truthy in N; discriminate N|].
      rewrite K, !firstn_all2 by lia. split; [reflexivity | auto].
    + destruct (Nat.ltb_spec (fetchedCount st + length (batch_of st))
                             (length avail)) as [X|X];
        [|discriminate N].
      match goal with
      | |- context [batches _ fuel num ?s] => destruct (IH s) as [stop [st'' [E Q]]]
      end.
      * unfold AtOffset. cbn [allReviews fetchedCount nextToken].
        rewrite K. replace (fetchedCount st + length (batch_of st))
          with (fetchedCount st + Nat.min (num - fetchedCount st) 200) by lia.
        repeat split; try lia. right. reflexivity.
      * cbn [fetchedCount]. assert (batch_of st <> []) by exact D.
        destruct (batch_of st); [congruence | cbn [length]; lia].
      * exists stop, st''. split; [exact E | exact Q].
Qed.

End Tokens.

End TokenFacts.

(** ** The App Store aggregation: flag, calls, counts *)

Section AppStoreClaims.

Import AppStoreService AppStoreFacts Storefronts PagedFacts.

Lemma collecting_start (World : Type) (w : World) (totalReviews : nat) :
  1 <= totalReviews ->
  Collecting totalReviews {| allReviews := []; run := appStore_start w |}.
Proof. intros H. split; [reflexivity | exact H]. Qed.

(** The run of [getReviewsWithPagination] from a fresh trace, by its
    exit. *)
Lemma pagination_collected (World : Type)
    (appStore_reviews : nat -> World -> (string + list AppStoreReviewData) * World)
    (totalReviews : nat) (w : World) :
  1 <= totalReviews ->
  let '(response, stop, r) :=
    getReviewsWithPagination appStore_reviews totalReviews (appStore_start w) in
  Collected totalReviews stop {| allReviews := reviews response; run := r |}
  /\ exists k, k <= ceil_div totalReviews 50 /\ calls (trace r) = seq 1 k.
Proof.
  intros H. unfold getReviewsWithPagination, reviewsPerPage.
  pose proof (pages_loop_loops appStore_reviews totalReviews
                (ceil_div totalReviews 50) 1
                {| allReviews := []; run := appStore_start w |}) as L.
  destruct (pages_loop appStore_reviews totalReviews
              (ceil_div totalReviews 50) 1 _) as [stop st]. cbn [fst snd] in L.
  destruct (loops_collected L (collecting_start w H)) as [C K].
  cbn [reviews]. destruct st as [all r]. exact (conj C K).
Qed.

(** The flag of [getReviewsWithPagination], by the exit taken. *)
Lemma pagination_hasMore (World : Type)
    (appStore_reviews : nat -> World -> (string + list AppStoreReviewData) * World)
    (totalReviews : nat) (w : World) :
  let '(response, stop, _) :=
    getReviewsWithPagination appStore_reviews totalReviews (appStore_start w) in
  hasMore response = (length (reviews response) =? totalReviews)
  /\ totalCount response = length (reviews response)
  /\ (stop = StopEmpty \/ stop = StopShortPage ->
      length (reviews response) < totalReviews /\ hasMore response = false)
  /\ (stop = StopTarget ->
      length (reviews response) = totalReviews /\ hasMore response = true).
Proof.
  destruct totalReviews as [|n].
  - cbn. split; [reflexivity|]. split; [reflexivity|].
    split; [intros [E|E]; discriminate E | intros E; discriminate E].
  - pose proof (pagination_collected appStore_reviews w
                  (totalReviews := S n) ltac:(lia)) as P.
    unfold getReviewsWithPagination in *.
    destruct (pages_loop appStore_reviews (S n) _ 1 _) as [stop st].
    cbn [hasMore reviews totalCount] in *. destruct P as [C _].
    split; [reflexivity|]. split; [reflexivity|]. split.
    + intros [E|E]; subst stop; destruct C as [_ C]; cbn [allReviews] in C;
        (split; [exact C | apply Nat.eqb_neq; lia]).
    + intros E. subst stop. destruct C as [e [l [_ [_ [_ C]]]]].
      cbn [allReviews] in C. split; [exact C | apply Nat.eqb_eq, C].
Qed.

(** C10. In the result of [getReviewsWithPagination], [hasMore] is the
    test that as many reviews were collected as asked for: it is false
    when the run left on an empty or a short page, having collected fewer,
    and true when it left on the target, whatever the storefront still
    holds. In the result of [getReviews], [hasMore] is the test that the
    page holds 50 reviews. *)
Theorem hasMore_meaning (World : Type)
    (appStore_reviews : nat -> World -> (string + list AppStoreReviewData) * World)
    (totalReviews : nat) (page : option nat) (w : World)
    (r : Run World) :
  (let '(response, stop, _) :=
     getReviewsWithPagination appStore_reviews totalReviews (appStore_start w) in
   hasMore response = (length (reviews response) =? totalReviews)
   /\ totalCount response = length (reviews response)
   /\ (stop = StopEmpty \/ stop = StopShortPage ->
       length (reviews response) < totalReviews /\ hasMore response = false)
   /\ (stop = StopTarget ->
       length (reviews response) = totalReviews /\ hasMore response = true))
  /\ match fst (getReviews appStore_reviews page r) with
     | inr response =>
         hasMore response = (length (reviews response) =? 50)
         /\ totalCount response = length (reviews response)
     | inl _ => True
     end.
Proof.
  split; [apply pagination_hasMore|].
  unfold getReviews.
  destruct (appStore_reviews _ (world r)) as [[message|result] w']; cbn;
    [exact I|]. rewrite length_map. auto.
Qed.

(** C10 at a storefront with exactly the 100 reviews asked for: the run
    leaves on the target and [hasMore] is true, with nothing left to
    fetch; and at one with 70 of the 100: the run leaves on a short page
    and [hasMore] is false. *)
Lemma hasMore_meaning_witness :
  hasMore (fst (fst (getReviewsWithPagination
                       (paged_source (repeat (appStore_review "ok") 100)) 100
                       (appStore_start tt)))) = true
  /\ hasMore (fst (fst (getReviewsWithPagination
                          (paged_source (repeat (appStore_review "ok") 70)) 100
                          (appStore_start tt)))) = false.
Proof.
  split.
  - pose proof (@hasMore_meaning unit
                  (paged_source (repeat (appStore_review "ok") 100)) 100 None tt
                  (appStore_start tt)) as [M _].
    destruct (getReviewsWithPagination _ 100 (appStore_start tt))
      as [[response stop] r] eqn:E.
    destruct M as [_ [_ [_ M]]]. apply M.
    vm_compute in E. injection E as _ E _. symmetry. exact E.
  - pose proof (@hasMore_meaning unit
                  (paged_source (repeat (appStore_review "ok") 70)) 100 None tt
                  (appStore_start tt)) as [M _].
    destruct (getReviewsWithPagination _ 100 (appStore_start tt))
      as [[response stop] r] eqn:E.
    destruct M as [_ [_ [M _]]]. apply M. right.
    vm_compute in E. injection E as _ E _. symmetry. exact E.
Defined.

(** The run of [getReviewsWithPagination] over a storefront that holds
    [avail]. *)
Lemma pagination_paged (avail : list AppStoreReviewData) (totalReviews : nat) :
  1 <= totalReviews ->
  let '(response, stop, r) :=
    getReviewsWithPagination (paged_source avail) totalReviews (appStore_start tt) in
  reviews response = firstn totalReviews avail
  /\ (totalReviews <= length avail ->
      stop = StopTarget
      /\ trace r = paged_trace avail 1 (ceil_div totalReviews 50))
  /\ (length avail < totalReviews -> stop = StopEmpty \/ stop = StopShortPage).
Proof.
  intros H. unfold getReviewsWithPagination, reviewsPerPage.
  pose proof (pages_loop_loops (paged_source avail) totalReviews
                (ceil_div totalReviews 50) 1
                {| allReviews := []; run := appStore_start tt |}) as L.
  destruct (pages_loop (paged_source avail) totalReviews
              (ceil_div totalReviews 50) 1 _) as [stop st]. cbn [fst snd] in L.
  cbn [reviews]. apply (paged_loops L).
  - unfold AtPage. cbn. repeat split; lia.
  - lia.
Qed.

(** C8. A request for at most 50 App Store reviews is served by
    [getReviews] alone: one call, for page 1, and no pause. A request for
    120 reviews to a storefront that holds at least 120 makes three calls,
    for the pages 1, 2 and 3, with a pause between them, and returns the
    50 reviews of the first page, the 50 of the second and the first 20 of
    the third. *)
Theorem appStore_calls_by_count :
  (forall (World : Type)
          (appStore_reviews :
             nat -> World -> (string + list AppStoreReviewData) * World)
          (numReviews : nat) (r : Run World),
      numReviews <= 50 ->
      Routes.appStoreReviews appStore_reviews numReviews r
      = getReviews appStore_reviews None r
      /\ exists outcome,
          trace (snd (Routes.appStoreReviews appStore_reviews numReviews r))
          = trace r ++ [Call 1 outcome])
  /\ (forall avail : list AppStoreReviewData,
      120 <= length avail ->
      exists response r,
        Routes.appStoreReviews (paged_source avail) 120 (appStore_start tt)
        = (inr response, r)
        /\ trace r
           = [Call 1 (inr (page_of avail 1)); Delay 1000;
              Call 2 (inr (page_of avail 2)); Delay 1000;
              Call 3 (inr (page_of avail 3))]
        /\ calls (trace r) = [1; 2; 3]
        /\ reviews response
           = page_of avail 1 ++ page_of avail 2 ++ firstn 20 (page_of avail 3)
        /\ length (page_of avail 1) = 50
        /\ length (page_of avail 2) = 50
        /\ length (firstn 20 (page_of avail 3)) = 20
        /\ reviews response = firstn 120 avail).
Proof.
  split.
  - intros World appStore_reviews numReviews r H. unfold Routes.appStoreReviews.
    destruct (Nat.leb_spec numReviews 50); [|lia]. split; [reflexivity|].
    unfold getReviews.
    destruct (appStore_reviews 1 (world r)) as [[message|result] w];
      eexists; reflexivity.
  - intros avail H.
    pose proof (@pagination_paged avail 120 ltac:(lia)) as P.
    unfold Routes.appStoreReviews. cbn [Nat.leb].
    destruct (getReviewsWithPagination (paged_source avail) 120 (appStore_start tt))
      as [[response stop] r].
    destruct P as [A [B _]]. destruct (B H) as [_ T].
    exists response, r. split; [reflexivity|].
    change (ceil_div 120 50) with 3 in T. cbn [paged_trace] in T.
    split; [exact T|]. split; [rewrite T; reflexivity|].
    assert (L1 : length (page_of avail 1) = 50)
      by (rewrite page_of_length; cbn [Nat.sub Nat.mul]; lia).
    assert (L2 : length (page_of avail 2) = 50)
      by (rewrite page_of_length; change (50 * (2 - 1)) with 50; lia).
    assert (L3 : length (firstn 20 (page_of avail 3)) = 20).
    { rewrite length_firstn, page_of_length. change (50 * (3 - 1)) with 100. lia. }
    assert (D : firstn 120 avail
                = page_of avail 1 ++ page_of avail 2 ++ firstn 20 (page_of avail 3)).
    { unfold page_of. change (50 * (1 - 1)) with 0. change (50 * (2 - 1)) with 50.
      change (50 * (3 - 1)) with 100. cbn [skipn].
      rewrite firstn_firstn. change (Nat.min 20 50) with 20.
      change (firstn 120 avail) with (firstn (50 + 70) avail).
      rewrite <- (firstn_then_more 50 70 avail). f_equal.
      change (firstn 70 (skipn 50 avail)) with (firstn (50 + 20) (skipn 50 avail)).
      rewrite <- (firstn_then_more 50 20 (skipn 50 avail)). f_equal.
      rewrite skipn_skipn. reflexivity. }
    rewrite A. repeat split; auto.
Qed.

(** C8 at 30 reviews asked of a storefront of 60 and at 120 asked of a
    storefront of 130. *)
Lemma appStore_calls_by_count_witness :
  (exists outcome,
      trace (snd (Routes.appStoreReviews
                    (paged_source (repeat (appStore_review "ok") 60)) 30
                    (appStore_start tt)))
      = [Call 1 outcome])
  /\ exists response r,
      Routes.appStoreReviews
        (paged_source (repeat (appStore_review "ok") 130)) 120 (appStore_start tt)
      = (inr response, r)
      /\ calls (trace r) = [1; 2; 3]
      /\ length (reviews response) = 120.
Proof.
  destruct appStore_calls_by_count as [One Three]. split.
  - destruct (One unit (paged_source (repeat (appStore_review "ok") 60)) 30
                  (appStore_start tt)) as [_ [outcome E]]; [lia|].
    exists outcome. exact E.
  - destruct (Three (repeat (appStore_review "ok") 130)) as [response [r P]].
    { rewrite repeat_length. lia. }
    exists response, r. destruct P as [E [_ [C [_ [_ [_ [_ F]]]]]]].
    split; [exact E|]. split; [exact C|].
    rewrite F, length_firstn, repeat_length. reflexivity.
Defined.

End AppStoreClaims.

(** ** A page that fails: the two loops *)

Section FailureClaims.

Import Storefronts.

Lemma fetchLargeDataset_batches (World : Type)
    (gplay_reviews :
       ReviewService.GplayOptions -> World
       -> (string + ReviewService.GplayResult) * World)
    (fuel : nat) (options : ReviewService.ReviewOptions)
    (r : ReviewService.Run World) :
  ReviewService.fetchLargeDataset gplay_reviews fuel options r
  = match ReviewService.batches gplay_reviews fuel (requested options)
            {| ReviewService.allReviews := []; ReviewService.nextToken := None;
               ReviewService.fetchedCount := 0; ReviewService.run := r |} with
    | None => None
    | Some (inl (message, r')) => Some (inl message, r')
    | Some (inr (stop, st)) =>
        Some (inr ({| ReviewService.reviews := ReviewService.allReviews st;
                      ReviewService.responseToken := ReviewService.nextToken st;
                      ReviewService.totalCount :=
                        length (ReviewService.allReviews st) |}, stop),
              ReviewService.run st)
    end.
Proof. reflexivity. Qed.

(** C2, as the code has it. In the App Store loop a page that fails is
    logged, leaves the reviews collected as they are, and the loop goes on
    with the next page. The Play loop has no [try]: the first call that
    fails ends the whole aggregation with its error, wrapped, and an
    aggregation returns reviews only if no call failed. *)
Theorem page_failure_policy :
  (forall (World : Type)
          (appStore_reviews :
             nat -> World
             -> (string + list AppStoreService.AppStoreReviewData) * World)
          (totalReviews page : nat) (st : AppStoreService.Loop World)
          (message : string) (w : World),
      appStore_reviews page (AppStoreService.world (AppStoreService.run st))
      = (inl message, w) ->
      exists st',
        AppStoreService.iteration appStore_reviews totalReviews page st
        = (None, st')
        /\ AppStoreService.allReviews st' = AppStoreService.allReviews st
        /\ AppStoreService.trace (AppStoreService.run st')
           = AppStoreService.trace (AppStoreService.run st)
             ++ [AppStoreService.Call page (inl message);
                 AppStoreService.ErrorLogged page]
        /\ forall left,
            AppStoreService.pages_loop appStore_reviews totalReviews
              (S left) page st
            = AppStoreService.pages_loop appStore_reviews totalReviews
                left (S page) st')
  /\ (forall (World : Type)
             (gplay_reviews :
                ReviewService.GplayOptions -> World
                -> (string + ReviewService.GplayResult) * World)
             (num fuel : nat) (st : ReviewService.Loop World)
             (message : string) (w : World),
      ReviewService.fetchedCount st < num ->
      gplay_reviews (PlayFacts.request num st)
        (ReviewService.world (ReviewService.run st)) = (inl message, w) ->
      ReviewService.batches gplay_reviews (S fuel) num st
      = Some (inl (("Failed to fetch reviews batch: " ++ message)%string,
                   PlayFacts.after st w
                     [ReviewService.Call (PlayFacts.request num st)
                        (inl message)])))
  /\ (forall (World : Type)
             (gplay_reviews :
                ReviewService.GplayOptions -> World
                -> (string + ReviewService.GplayResult) * World)
             (fuel : nat) (options : ReviewService.ReviewOptions) (w : World)
             out r,
      ReviewService.fetchLargeDataset gplay_reviews fuel options (play_start w)
      = Some (out, r) ->
      match out with
      | inl _ => exists t options cause,
                   ReviewService.trace r
                   = t ++ [ReviewService.Call options (inl cause)]
      | inr _ => existsb PlayFacts.is_failure (ReviewService.trace r) = false
      end).
Proof.
  split; [|split].
  - intros World appStore_reviews totalReviews page st message w E.
    pose proof (AppStoreFacts.iteration_step appStore_reviews totalReviews page st) as Hs.
    destruct (AppStoreService.iteration appStore_reviews totalReviews page st)
      as [o st'] eqn:I. cbn [fst snd] in Hs. exists st'.
    inversion Hs as [m w' G| w' G| res w' G| res w' G| res w' G]; subst;
      rewrite E in G; try discriminate G. injection G as <- <-.
    split; [reflexivity|]. split; [reflexivity|]. split; [reflexivity|].
    intros left. cbn [AppStoreService.pages_loop]. rewrite I. reflexivity.
  - intros World gplay_reviews num fuel st message w L E.
    cbn [ReviewService.batches].
    destruct (Nat.ltb_spec (ReviewService.fetchedCount st) num); [|lia].
    pose proof (PlayFacts.batch_step gplay_reviews num st) as Hs.
    destruct (ReviewService.iteration gplay_reviews num st) as [f|[[s|] st']];
      inversion Hs as [m w' G|res w' G|res w' G|res w' G]; subst;
      rewrite E in G; try discriminate G. injection G as <- <-. reflexivity.
  - intros World gplay_reviews fuel options w out r.
    rewrite fetchLargeDataset_batches.
    destruct (ReviewService.batches gplay_reviews fuel (requested options) _)
      as [[[m r']|[stop st]]|] eqn:B; [| |discriminate].
    + intros E. injection E as <- <-.
      apply PlayFacts.batches_ended in B; [|repeat split].
      destruct B as [t [o [c [T _]]]]. exists t, o, c. exact T.
    + intros E. injection E as <- <-.
      apply PlayFacts.batches_ended in B; [|repeat split].
      destruct B as [[_ [_ N]] _]. exact N.
Qed.

(** C2 at an App Store whose page 2 fails and at a Play store whose first
    call fails. *)
Lemma page_failure_policy_witness :
  (exists st',
      AppStoreService.iteration
        (flaky_pages (repeat (appStore_review "ok") 150) 2) 150 2
        (appStore_loop_start tt) = (None, st')
      /\ AppStoreService.allReviews st' = [])
  /\ ReviewService.batches (flaky_store (play_review "ok") 1) 1 450
       (play_loop_start 0)
     = Some (inl ("Failed to fetch reviews batch: socket hang up"%string,
                  PlayFacts.after (play_loop_start 0) 1
                    [ReviewService.Call
                       (PlayFacts.request 450 (play_loop_start 0))
                       (inl "socket hang up"%string)])).
Proof.
  destruct page_failure_policy as [AppStore [Play _]]. split.
  - destruct (AppStore unit (flaky_pages (repeat (appStore_review "ok") 150) 2)
                150 2 (appStore_loop_start tt) "socket hang up"%string tt)
      as [st' [E [A _]]]; [reflexivity|].
    exists st'. split; [exact E | exact A].
  - apply (Play nat (flaky_store (play_review "ok") 1) 450 0
                (play_loop_start 0) "socket hang up"%string 1);
      [cbn; lia | reflexivity].
Defined.

(** C2 as stated fails for the Play aggregator: with 450 reviews asked for
    and a store whose second call fails, the first batch of 200 is
    fetched, the second call fails, and the aggregation ends with the
    error instead of going on. *)
Lemma play_failure_aborts :
  exists r,
    ReviewService.getReviews (flaky_store (play_review "ok") 2) 450
      (play_options 450) (play_start 0)
    = Some (inl "Failed to fetch reviews batch: socket hang up"%string, r)
    /\ ReviewService.calls (ReviewService.trace r) = [200; 200]
    /\ map (length (A:=ReviewService.ReviewData))
           (ReviewService.fetched (ReviewService.trace r)) = [200].
Proof. eexists. vm_compute. repeat split. Qed.

(** The same failure in the App Store loop: page 2 of 3 fails, pages 1 and
    3 are kept. *)
Example appStore_failure_skipped :
  let '(response, stop, r) :=
    AppStoreService.getReviewsWithPagination
      (flaky_pages (repeat (appStore_review "ok") 150) 2) 150 (appStore_start tt) in
  AppStoreService.calls (AppStoreService.trace r) = [1; 2; 3]
  /\ length (AppStoreService.reviews response) = 100
  /\ stop = AppStoreService.StopPages
  /\ AppStoreService.hasMore response = false.
Proof. vm_compute. repeat split. Qed.

End FailureClaims.

(** ** Termination of the two loops *)

Section TerminationClaims.

Import Storefronts.




End TerminationClaims.

(** ** How many reviews an aggregation returns *)

Section CountClaims.

Import Storefronts.

Lemma play_token_run (avail : list ReviewService.ReviewData) (n : nat) :
  exists response stop r,
    ReviewService.fetchLargeDataset (token_source avail) n (play_options n)
      (play_start tt) = Some (inr (response, stop), r)
    /\ ReviewService.reviews response = firstn n avail
    /\ (length avail < n ->
        stop = ReviewService.StopEmpty \/ stop = ReviewService.StopNoToken).
Proof.
  rewrite fetchLargeDataset_batches. change (requested (play_options n)) with n.
  destruct (@TokenFacts.token_batches avail n n (play_loop_start tt))
    as [stop [st [E [A X]]]].
  - unfold TokenFacts.AtOffset. cbn. repeat split; try lia. left. auto.
  - cbn. lia.
  - unfold play_loop_start in E. rewrite E. do 3 eexists.
    split; [reflexivity|]. split; [exact A | exact X].
Qed.

Lemma play_token_getReviews (avail : list ReviewService.ReviewData) (n : nat) :
  exists response r,
    ReviewService.getReviews (token_source avail) n (play_options n)
      (play_start tt) = Some (inr response, r)
    /\ ReviewService.reviews response = firstn n avail.
Proof.
  unfold ReviewService.getReviews. change (ReviewService.num (play_options n))
    with (Some n). cbv beta iota.
  destruct (Nat.ltb_spec 200 n) as [L|L].
  - destruct (play_token_run avail n) as [response [stop [r [E [A _]]]]].
    rewrite E. exists response, r. split; [reflexivity | exact A].
  - unfold ReviewService.fetchSingleBatch, token_source. cbn.
    do 2 eexists. split; [reflexivity|]. cbn.
    rewrite PlayFacts.play_map_mapReviewData.
    replace (Nat.min n 200) with n by lia. reflexivity.
Qed.

(** C1. The count contract holds in the two aggregation loops and is
    broken on the single-page path of the App Store route. Over a
    storefront that holds [avail] and serves it in order (the App Store
    one by pages of 50, the Play one as many as a call asks for),
    [getReviewsWithPagination] for [totalReviews] reviews and the Play
    [getReviews] for [num] reviews return the first so many reviews of
    [avail]: exactly that many when the storefront holds as many, and all
    of [avail], leaving on an exit of exhaustion, when it holds fewer.
    Over any storefront the App Store result is the start of the pages
    fetched, put one after the other: on the target, the pages before the
    last are kept whole and the last one loses its end; the Play loop cuts
    nothing. The defect: the route serves a request for 50 reviews or
    fewer through [getReviews], which returns the first page whole, so a
    page longer than the count asked for comes back uncut (30 asked of a
    storefront of 60 give 50), whereas the other branch of the same route
    cuts to the count (51 asked of it give 51). *)
Theorem aggregation_count_contract :
  (forall (avail : list AppStoreService.AppStoreReviewData) (totalReviews : nat),
      1 <= totalReviews ->
      let '(response, stop, _) :=
        AppStoreService.getReviewsWithPagination (paged_source avail)
          totalReviews (appStore_start tt) in
      AppStoreService.reviews response = firstn totalReviews avail
      /\ (totalReviews <= length avail ->
          length (AppStoreService.reviews response) = totalReviews
          /\ stop = AppStoreService.StopTarget)
      /\ (length avail < totalReviews ->
          AppStoreService.reviews response = avail
          /\ (stop = AppStoreService.StopEmpty
              \/ stop = AppStoreService.StopShortPage)
          /\ AppStoreService.hasMore response = false))
  /\ (forall (avail : list ReviewService.ReviewData) (num : nat),
      1 <= num ->
      (exists response r,
          ReviewService.getReviews (token_source avail) num (play_options num)
            (play_start tt) = Some (inr response, r)
          /\ ReviewService.reviews response = firstn num avail
          /\ (num <= length avail ->
              length (ReviewService.reviews response) = num)
          /\ (length avail < num -> ReviewService.reviews response = avail))
      /\ exists response stop r,
          ReviewService.fetchLargeDataset (token_source avail) num
            (play_options num) (play_start tt) = Some (inr (response, stop), r)
          /\ ReviewService.reviews response = firstn num avail
          /\ (length avail < num ->
              stop = ReviewService.StopEmpty
              \/ stop = ReviewService.StopNoToken))
  /\ (forall (World : Type)
             (appStore_reviews :
                nat -> World
                -> (string + list AppStoreService.AppStoreReviewData) * World)
             (totalReviews : nat) (w : World),
      1 <= totalReviews ->
      let '(response, stop, r) :=
        AppStoreService.getReviewsWithPagination appStore_reviews totalReviews
          (appStore_start w) in
      AppStoreService.reviews response
      = firstn totalReviews
          (concat (AppStoreService.fetched (AppStoreService.trace r)))
      /\ (stop = AppStoreService.StopTarget ->
          exists earlier lastPage,
            AppStoreService.fetched (AppStoreService.trace r)
            = earlier ++ [lastPage]
            /\ length (concat earlier) < totalReviews
            /\ AppStoreService.reviews response
               = concat earlier
                 ++ firstn (totalReviews - length (concat earlier)) lastPage)
      /\ (stop <> AppStoreService.StopTarget ->
          AppStoreService.reviews response
          = concat (AppStoreService.fetched (AppStoreService.trace r))))
  /\ (forall (World : Type)
             (gplay_reviews :
                ReviewService.GplayOptions -> World
                -> (string + ReviewService.GplayResult) * World)
             (fuel : nat) (options : ReviewService.ReviewOptions) (w : World)
             response stop r,
      ReviewService.fetchLargeDataset gplay_reviews fuel options (play_start w)
      = Some (inr (response, stop), r) ->
      ReviewService.reviews response
      = concat (ReviewService.fetched (ReviewService.trace r)))
  /\ (forall (World : Type)
             (appStore_reviews :
                nat -> World
                -> (string + list AppStoreService.AppStoreReviewData) * World)
             (numReviews : nat) (w w' : World)
             (page : list AppStoreService.AppStoreReviewData),
      numReviews <= 50 ->
      appStore_reviews 1 w = (inr page, w') ->
      exists response r,
        Routes.appStoreReviews appStore_reviews numReviews (appStore_start w)
        = (inr response, r)
        /\ AppStoreService.reviews response = page)
  /\ (forall (avail : list AppStoreService.AppStoreReviewData)
             (numReviews : nat),
      (numReviews <= 50 ->
       exists response r,
         Routes.appStoreReviews (paged_source avail) numReviews (appStore_start tt)
         = (inr response, r)
         /\ AppStoreService.reviews response = firstn 50 avail)
      /\ (50 < numReviews ->
          exists response r,
            Routes.appStoreReviews (paged_source avail) numReviews
              (appStore_start tt) = (inr response, r)
            /\ AppStoreService.reviews response = firstn numReviews avail))
  /\ (exists response r,
        Routes.appStoreReviews (paged_source (repeat (appStore_review "ok") 60))
          30 (appStore_start tt) = (inr response, r)
        /\ length (AppStoreService.reviews response) = 50)
  /\ (exists response r,
        Routes.appStoreReviews (paged_source (repeat (appStore_review "ok") 60))
          51 (appStore_start tt) = (inr response, r)
        /\ length (AppStoreService.reviews response) = 51).
Proof.
  split; [|split; [|split; [|split; [|split; [|split; [|split]]]]]].
  - intros avail n H.
    pose proof (pagination_paged avail H) as P.
    pose proof (pagination_hasMore (paged_source avail) n tt) as M.
    destruct (AppStoreService.getReviewsWithPagination (paged_source avail) n
                (appStore_start tt)) as [[response stop] r].
    destruct P as [A [B C]]. destruct M as [_ [_ [M _]]].
    split; [exact A|]. split.
    + intros L. split; [|apply B, L]. rewrite A, length_firstn. lia.
    + intros L. split; [rewrite A; apply firstn_all2; lia|].
      split; [exact (C L) | apply M, C, L].
  - intros avail n H. split.
    + destruct (play_token_getReviews avail n) as [response [r [E A]]].
      exists response, r. split; [exact E|]. split; [exact A|].
      rewrite A. split; intros L; [rewrite length_firstn; lia|].
      apply firstn_all2. lia.
    + apply play_token_run.
  - intros World appStore_reviews n w H.
    pose proof (pagination_collected appStore_reviews w H) as P.
    destruct (AppStoreService.getReviewsWithPagination appStore_reviews n
                (appStore_start w)) as [[response stop] r].
    destruct P as [C _]. assert (Pre := C).
    apply AppStoreFacts.collected_prefix in Pre.
    cbn [AppStoreService.allReviews AppStoreService.run] in Pre.
    split; [exact Pre|]. split.
    + intros E. subst stop. destruct C as [e [l [F [L [A _]]]]].
      exists e, l. auto.
    + intros E. destruct stop; try congruence; destruct C as [A _]; exact A.
  - intros World gplay_reviews fuel options w response stop r.
    rewrite fetchLargeDataset_batches.
    destruct (ReviewService.batches gplay_reviews fuel (requested options) _)
      as [[[m r']|[stop' st]]|] eqn:B; try discriminate.
    intros E. injection E as <- <- <-.
    apply PlayFacts.batches_ended in B; [|repeat split].
    destruct B as [[A _] _]. exact A.
  - intros World appStore_reviews n w w' page H E.
    unfold Routes.appStoreReviews, AppStoreService.getReviews.
    destruct (Nat.leb_spec n 50); [|lia].
    cbn [AppStoreService.world appStore_start]. rewrite E.
    do 2 eexists. split; [reflexivity|]. cbn [AppStoreService.reviews].
    apply AppStoreFacts.map_mapReviewData.
  - intros avail n. split; intros H; unfold Routes.appStoreReviews.
    + destruct (Nat.leb_spec n 50); [|lia].
      do 2 eexists. split; [reflexivity|]. cbn [AppStoreService.reviews].
      apply AppStoreFacts.map_mapReviewData.
    + destruct (Nat.leb_spec n 50); [lia|].
      pose proof (@pagination_paged avail n ltac:(lia)) as P.
      destruct (AppStoreService.getReviewsWithPagination (paged_source avail) n
                  (appStore_start tt)) as [[response stop] r].
      destruct P as [A _]. do 2 eexists. split; [reflexivity | exact A].
  - do 2 eexists. split; reflexivity.
  - do 2 eexists. split; [vm_compute; reflexivity | reflexivity].
Qed.

(** C1 at 120 App Store reviews asked of storefronts of 130 and of 70, and
    at 250 Play reviews asked of a store of 300. *)
Lemma aggregation_count_contract_witness :
  (let '(response, stop, _) :=
     AppStoreService.getReviewsWithPagination
       (paged_source (repeat (appStore_review "ok") 130)) 120 (appStore_start tt) in
   length (AppStoreService.reviews response) = 120
   /\ stop = AppStoreService.StopTarget)
  /\ (let '(response, stop, _) :=
        AppStoreService.getReviewsWithPagination
          (paged_source (repeat (appStore_review "ok") 70)) 120 (appStore_start tt) in
      AppStoreService.reviews response = repeat (appStore_review "ok") 70
      /\ AppStoreService.hasMore response = false)
  /\ exists response r,
      ReviewService.getReviews (token_source (repeat (play_review "ok") 300)) 250
        (play_options 250) (play_start tt) = Some (inr response, r)
      /\ length (ReviewService.reviews response) = 250.
Proof.
  destruct aggregation_count_contract as [AppStore [Play _]]. split; [|split].
  - pose proof (AppStore (repeat (appStore_review "ok") 130) 120 ltac:(lia)) as P.
    destruct (AppStoreService.getReviewsWithPagination _ 120 (appStore_start tt))
      as [[response stop] r].
    destruct P as [_ [P _]]. apply P. rewrite repeat_length. lia.
  - pose proof (AppStore (repeat (appStore_review "ok") 70) 120 ltac:(lia)) as P.
    destruct (AppStoreService.getReviewsWithPagination _ 120 (appStore_start tt))
      as [[response stop] r].
    destruct P as [_ [_ P]]. destruct P as [A [_ M]];
      [rewrite repeat_length; lia | split; [exact A | exact M]].
  - destruct (Play (repeat (play_review "ok") 300) 250 ltac:(lia))
      as [[response [r [E [_ [L _]]]]] _].
    exists response, r. split; [exact E|]. apply L. rewrite repeat_length. lia.
Defined.

(** The failing request: 30 reviews asked through the route of a
    storefront that holds 60 come back as the whole first page, 50
    reviews. *)
Example single_page_path_not_cut :
  exists response r,
    Routes.appStoreReviews (paged_source (repeat (appStore_review "ok") 60)) 30
      (appStore_start tt) = (inr response, r)
    /\ 30 <= length (repeat (appStore_review "ok") 60)
    /\ length (AppStoreService.reviews response) = 50
    /\ AppStoreService.reviews response
       <> firstn 30 (repeat (appStore_review "ok") 60).
Proof.
  do 2 eexists. split; [reflexivity|]. split; [rewrite repeat_length; lia|].
  split; [reflexivity|]. intros E. apply (f_equal (@length _)) in E.
  vm_compute in E. discriminate E.
Qed.

(** 250 Play reviews: two calls, for 200 and for 50. *)
Example play_two_batches :
  exists response r,
    ReviewService.getReviews (token_source (repeat (play_review "ok") 300)) 250
      (play_options 250) (play_start tt) = Some (inr response, r)
    /\ ReviewService.calls (ReviewService.trace r) = [200; 50]
    /\ length (ReviewService.reviews response) = 250.
Proof. do 2 eexists. vm_compute. repeat split. Qed.

End CountClaims.

(** * Further properties of the code *)

(** ** What the sanitizer keeps and what its output looks like *)

Section SanitizerShape.

Import CSVService SanitizerFacts CsvFacts.

(** The characters that [removeEmojis] neither strips nor treats as white
    space. *)
Definition is_text (c : codeunit) : bool := kept c && negb (is_ws c).

Lemma filter_text_all_ws (w : jsstring) :
  forallb is_ws w = true -> filter is_text w = [].
Proof.
  induction w as [|c w IH]; simpl; [reflexivity|]. intros H.
  apply andb_prop in H. destruct H as [C W]. unfold is_text at 1.
  rewrite C, andb_false_r. apply IH, W.
Qed.

Lemma filter_text_trim (s : jsstring) : filter is_text (trim s) = filter is_text s.
Proof.
  destruct (trim_split s) as [w1 [w2 [E [W1 W2]]]]. rewrite E at 2.
  rewrite !filter_app, (filter_text_all_ws _ W1), (filter_text_all_ws _ W2).
  rewrite app_nil_r. reflexivity.
Qed.

Lemma filter_text_replace_ws_runs (b : bool) (s : jsstring) :
  filter is_text (replace_ws_runs b s) = filter is_text s.
Proof.
  revert b. induction s as [|c s IH]; intros b; simpl; [reflexivity|].
  destruct (is_ws c) eqn:C.
  - unfold is_text at 2. rewrite C, andb_false_r.
    destruct b; [apply IH|]. simpl. apply IH.
  - simpl. rewrite IH. reflexivity.
Qed.

Lemma filter_text_kept (s : jsstring) :
  filter is_text (filter kept s) = filter is_text s.
Proof.
  rewrite filter_twice. apply filter_ext. intros c. unfold is_text.
  destruct (kept c); reflexivity.
Qed.

Lemma scrub_text (cps : list codepoint) :
  filter is_text (scrub cps) = filter is_text cps.
Proof.
  unfold scrub. rewrite filter_text_trim, filter_text_replace_ws_runs.
  apply filter_text_kept.
Qed.

(** X1. What [removeEmojis] returns. For every string the result is
    trimmed, its white space is single plain spaces, each of its code
    units is one of the input or a space, and no code unit of a stripped
    range is left (the stripped symbols of the Basic Multilingual Plane
    are gone). For a string without unpaired surrogates, the UTF-16 form
    of a sequence of scalar values, the result is the form of a sequence
    that holds no stripped code point, the emoji above the plane
    included, and that keeps the code points of the input that are
    neither stripped nor white space, all of them in their order; a
    second pass changes nothing. With unpaired surrogates a second pass
    can change the result: a joiner between D83D and DE00 is taken out
    after the pass for U+1F600, and the pair then left is that emoji. *)
Theorem removeEmojis_normal_form :
  (forall s,
      trim (removeEmojis s) = removeEmojis s
      /\ ws_normal false (removeEmojis s) = true
      /\ forall c, In c (removeEmojis s) ->
           (In c s \/ c = space)
           /\ is_stripped c = false /\ (is_ws c = true -> c = space))
  /\ (forall cps,
      forallb is_scalar cps = true ->
      exists rest,
        removeEmojis (of_code_points cps) = of_code_points rest
        /\ forallb is_scalar rest = true
        /\ (forall c, In c rest -> is_stripped c = false)
        /\ filter is_text rest = filter is_text cps
        /\ removeEmojis (removeEmojis (of_code_points cps))
           = removeEmojis (of_code_points cps))
  /\ removeEmojis [0xD83D%N; 0x200D%N; 0xDE00%N] = [0xD83D%N; 0xDE00%N]
  /\ removeEmojis [0xD83D%N; 0xDE00%N] = [].
Proof.
  split; [|split; [|split; reflexivity]].
  - intros s. split; [apply removeEmojis_trimmed|].
    split; [apply removeEmojis_ws_normal|]. intros c I. split; [|split].
    + destruct (removeEmojis_incl _ _ I) as [[J _]|E]; auto.
    + destruct (removeEmojis_incl _ _ I) as [[_ K]|E]; [exact K|].
      subst c. reflexivity.
    + exact (ws_normal_space _ _ _ (removeEmojis_ws_normal s) I).
  - intros cps S. exists (scrub cps).
    split; [apply removeEmojis_of_code_points, S|].
    split; [apply scrub_scalar, S|].
    split; [apply scrub_not_stripped|].
    split; [apply scrub_text|].
    apply removeEmojis_twice_of_code_points, S.
Qed.

(** X1 at a grinning face, two spaces, a letter, a heart with its
    variation selector and a letter. *)
Lemma removeEmojis_normal_form_witness :
  removeEmojis
    (removeEmojis (of_code_points [0x1F600; 32; 32; 97; 0x2764; 0xFE0F; 98]%N))
  = removeEmojis (of_code_points [0x1F600; 32; 32; 97; 0x2764; 0xFE0F; 98]%N).
Proof.
  destruct (proj1 (proj2 removeEmojis_normal_form)
              [0x1F600; 32; 32; 97; 0x2764; 0xFE0F; 98]%N eq_refl)
    as [rest [_ [_ [_ [_ Twice]]]]].
  exact Twice.
Defined.

Lemma removeEmojis_ends_clean (s : jsstring) :
  starts_clean (removeEmojis s) = true
  /\ starts_clean (rev (removeEmojis s)) = true.
Proof.
  rewrite <- removeEmojis_trimmed.
  split; [apply trim_starts_clean | apply trim_ends_clean].
Qed.

Lemma double_quotes_app (a b : jsstring) :
  double_quotes (a ++ b) = double_quotes a ++ double_quotes b.
Proof. apply flat_map_app. Qed.

Lemma double_quotes_of_code_points (cps : list codepoint) :
  forallb is_scalar cps = true ->
  double_quotes (of_code_points cps) = of_code_points (double_quotes cps).
Proof.
  induction cps as [|cp cps IH]; [reflexivity|]. cbn [forallb]. intros H.
  apply andb_prop in H. destruct H as [S R]. specialize (IH R).
  rewrite of_code_points_cons, double_quotes_app, IH.
  change (cp :: cps) with ([cp] ++ cps).
  rewrite double_quotes_app, of_code_points_app. f_equal.
  destruct (units_of_cases _ S) as [[U _]|[h [l [U [Hh [Ll [_ A]]]]]]]; rewrite U.
  - unfold double_quotes. cbn [flat_map]. rewrite app_nil_r.
    destruct (cp =? dquote)%N; [reflexivity|].
    change (of_code_points [cp]) with (units_of cp ++ []).
    rewrite U. reflexivity.
  - unfold double_quotes. cbn [flat_map].
    pose proof (surrogate_not_dquote (or_introl Hh)) as Nh.
    pose proof (surrogate_not_dquote (or_intror Ll)) as Nl.
    apply N.eqb_neq in Nh. apply N.eqb_neq in Nl. rewrite Nh, Nl.
    destruct (N.eqb_spec cp dquote) as [E|E]; [subst cp; discriminate A|].
    rewrite !app_nil_r.
    change (of_code_points [cp]) with (units_of cp ++ []).
    rewrite U. reflexivity.
Qed.

(** X2. Whatever the field, no code unit of the sanitized value lies in a
    stripped range, its only white space is plain spaces (so no line feed,
    carriage return or tab ever reaches a row), and it neither starts nor
    ends with white space. When the field has no unpaired surrogate the
    sanitized value has none either and holds no stripped code point, the
    emoji above the Basic Multilingual Plane included. *)
Theorem escapeCsvField_output_shape (field : option jsstring) :
  (forall c, In c (escapeCsvField field) ->
     is_stripped c = false /\ (is_ws c = true -> c = space))
  /\ starts_clean (escapeCsvField field) = true
  /\ starts_clean (rev (escapeCsvField field)) = true
  /\ (forall cps,
      forallb is_scalar cps = true -> field = Some (of_code_points cps) ->
      exists out,
        escapeCsvField field = of_code_points out
        /\ forallb is_scalar out = true
        /\ forall c, In c out -> is_stripped c = false).
Proof.
  assert (Plain : forall s c, In c (removeEmojis s) ->
            is_stripped c = false /\ (is_ws c = true -> c = space)).
  { intros s c I. split.
    - destruct (removeEmojis_incl _ _ I) as [[_ K]|E]; [exact K|].
      subst c. reflexivity.
    - exact (ws_normal_space _ _ _ (removeEmojis_ws_normal s) I). }
  assert (Lit : forall l : jsstring,
            forallb (fun c => negb (is_stripped c) && negb (is_ws c)) l = true ->
            forall c, In c l ->
              is_stripped c = false /\ (is_ws c = true -> c = space)).
  { intros l H c I. rewrite forallb_forall in H. specialize (H c I).
    apply andb_prop in H. destruct H as [H1 H2].
    apply negb_true_iff in H1. apply negb_true_iff in H2.
    split; [exact H1 | congruence]. }
  split; [|split; [|split]].
  - destruct field as [s|]; [|apply Lit; reflexivity].
    destruct (sanitized_some s)
      as [[_ E]|[[_ [_ E]]|[[_ [_ [_ E]]]|[_ [_ [_ [_ E]]]]]]]; rewrite E.
    + apply Lit; reflexivity.
    + intros c [].
    + intros c [H|H]; [subst c; split; [reflexivity | discriminate]|].
      apply in_app_or in H. destruct H as [H|[H|[]]].
      * apply double_quotes_incl in H. destruct H as [H|H]; [exact (Plain s c H)|].
        subst c. split; [reflexivity | discriminate].
      * subst c. split; [reflexivity | discriminate].
    + exact (Plain s).
  - destruct field as [s|]; [|reflexivity].
    destruct (sanitized_some s)
      as [[_ E]|[[_ [_ E]]|[[_ [_ [_ E]]]|[_ [_ [_ [_ E]]]]]]]; rewrite E;
      try reflexivity.
    apply removeEmojis_ends_clean.
  - destruct field as [s|]; [|reflexivity].
    destruct (sanitized_some s)
      as [[_ E]|[[_ [_ E]]|[[_ [_ [_ E]]]|[_ [_ [_ [_ E]]]]]]]; rewrite E;
      try reflexivity.
    + cbn [rev]. rewrite rev_app_distr. reflexivity.
    + apply removeEmojis_ends_clean.
  - intros cps S ->.
    destruct (sanitized_some (of_code_points cps))
      as [[_ E]|[[_ [_ E]]|[[_ [_ [_ E]]]|[_ [_ [_ [_ E]]]]]]]; rewrite E.
    + exists (lit "Nan"). split; [reflexivity|]. split; [reflexivity|].
      intros c I. apply (Lit (lit "Nan") eq_refl c I).
    + exists []. split; [reflexivity|]. split; [reflexivity|]. intros c [].
    + exists (dquote :: double_quotes (scrub cps) ++ [dquote]).
      assert (In_out : forall c,
                In c (dquote :: double_quotes (scrub cps) ++ [dquote]) ->
                c = dquote \/ In c (scrub cps)).
      { intros c [H|H]; [left; symmetry; exact H|].
        apply in_app_or in H. destruct H as [H|[H|[]]].
        - apply double_quotes_incl in H. tauto.
        - left. symmetry. exact H. }
      split; [|split].
      * rewrite (removeEmojis_of_code_points _ S).
        rewrite (double_quotes_of_code_points _ (scrub_scalar _ S)).
        rewrite of_code_points_cons, of_code_points_app. reflexivity.
      * apply forallb_forall. intros c I.
        destruct (In_out c I) as [->|J]; [reflexivity|].
        pose proof (scrub_scalar _ S) as R. rewrite forallb_forall in R.
        exact (R c J).
      * intros c I. destruct (In_out c I) as [->|J]; [reflexivity|].
        exact (scrub_not_stripped _ _ J).
    + exists (scrub cps). split; [apply removeEmojis_of_code_points, S|].
      split; [apply scrub_scalar, S | apply scrub_not_stripped].
Qed.

(** X2 at a text with a comma and a rocket, U+1F680: the value is quoted
    and the rocket is gone. *)
Lemma escapeCsvField_output_shape_witness :
  exists out,
    escapeCsvField (Some (of_code_points (lit "fast, " ++ [0x1F680%N])))
    = of_code_points out
    /\ forallb is_scalar out = true
    /\ forall c, In c out -> is_stripped c = false.
Proof.
  apply (proj2 (proj2 (proj2 (escapeCsvField_output_shape _)))
           (lit "fast, " ++ [0x1F680%N])); reflexivity.
Defined.

Lemma double_quotes_injective (s t : jsstring) :
  double_quotes s = double_quotes t -> s = t.
Proof.
  revert t. induction s as [|a s IH]; intros [|b t]; simpl.
  - reflexivity.
  - destruct (b =? dquote)%N; discriminate.
  - destruct (a =? dquote)%N; discriminate.
  - destruct (N.eqb_spec a dquote) as [A|A], (N.eqb_spec b dquote) as [B|B];
      cbn [app]; intros E.
    + injection E as E. subst a b. f_equal. apply IH, E.
    + injection E as E1 E2. congruence.
    + injection E as E1 E2. congruence.
    + injection E as E1 E2. subst b. f_equal. apply IH, E2.
Qed.

(** X3. Quoting loses nothing: two present, non-blank values with the
    same sanitized value have the same scrubbed text. *)
Theorem escapeCsvField_determines_text (s t : jsstring) :
  forallb is_ws s = false -> forallb is_ws t = false ->
  escapeCsvField (Some s) = escapeCsvField (Some t) ->
  removeEmojis s = removeEmojis t.
Proof.
  intros Ws Wt.
  destruct (sanitized_some s)
    as [[W _]|[[_ [Xs Es]]|[[_ [Xs [Qs Es]]]|[_ [Xs [Cs [Ds Es]]]]]]];
    [congruence| | |];
    destruct (sanitized_some t)
      as [[W _]|[[_ [Xt Et]]|[[_ [Xt [Qt Et]]]|[_ [Xt [Ct [Dt Et]]]]]]];
    try congruence; rewrite Es, Et; intros E.
  - apply (f_equal (@tl codeunit)) in E. cbn [tl] in E.
    apply app_inv_tail in E. apply double_quotes_injective, E.
  - exfalso. apply (includes_false _ _ Dt). rewrite <- E. left. reflexivity.
  - exfalso. apply (includes_false _ _ Ds). rewrite E. left. reflexivity.
Qed.

(** X3 at two spellings of the same text, one with doubled spaces and one
    with outer spaces and the grinning face, the pair D83D DE00. *)
Lemma escapeCsvField_determines_text_witness :
  removeEmojis (lit "so  good")
  = removeEmojis (32%N :: lit "so good " ++ [0xD83D%N; 0xDE00%N]).
Proof.
  apply escapeCsvField_determines_text; reflexivity.
Defined.

End SanitizerShape.

(** ** Reading the CSV text back *)

Section CsvRoundTrip.

Import CSVService SanitizerFacts CsvFacts.

(** A Play review whose text holds a line feed and whose version is set. *)
Definition play_review_two_lines : ReviewService.ReviewData :=
  {| ReviewService.id := Some (lit "gp:2");
     ReviewService.userName := None;
     ReviewService.userImage := None;
     ReviewService.date := Some (lit "2025-08-26");
     ReviewService.score := 1;
     ReviewService.scoreText := None;
     ReviewService.url := None;
     ReviewService.text := Some (lit "slow" ++ newline :: lit "and big");
     ReviewService.replyDate := None;
     ReviewService.replyText := None;
     ReviewService.version := Some (lit "3.0.1");
     ReviewService.thumbsUp := 0 |}.

(** X4. When no text field of the records holds a semicolon, cutting the
    text at the line feeds and each line at the delimiter gives back the
    header names and, record by record in the order given, the sanitized
    fields: nothing is merged, split or reordered. *)
Theorem csv_text_parses_back :
  (forall reviews : list ReviewService.ReviewData,
      Forall (play_free_of semicolon) reviews ->
      map (split delimiter) (split [newline] (playContent reviews))
      = playHeader :: map playFields reviews)
  /\ (forall reviews : list AppStoreService.AppStoreReviewData,
      Forall (appStore_free_of semicolon) reviews ->
      map (split delimiter) (split [newline] (appStoreContent reviews))
      = appStoreHeader :: map appStoreFields reviews).
Proof.
  split; intros reviews F.
  - rewrite play_lines. cbn [map].
    change (split delimiter (join delimiter playHeader)) with playHeader.
    f_equal. rewrite map_map. apply map_ext_in. intros review I.
    apply play_row_fields. rewrite Forall_forall in F. apply F, I.
  - rewrite appStore_lines. cbn [map].
    change (split delimiter (join delimiter appStoreHeader)) with appStoreHeader.
    f_equal. rewrite map_map. apply map_ext_in. intros review I.
    apply appStore_row_fields. rewrite Forall_forall in F. apply F, I.
Qed.

(** X4 at two Play reviews, one with a comma and one with a line feed in
    its text, and at one App Store review. *)
Lemma csv_text_parses_back_witness :
  map (split delimiter)
      (split [newline]
         (playContent [play_review "good, cheap"; play_review_two_lines]))
  = playHeader
    :: map playFields [play_review "good, cheap"; play_review_two_lines]
  /\ map (split delimiter)
         (split [newline] (appStoreContent [appStore_review "nice"]))
     = appStoreHeader :: map appStoreFields [appStore_review "nice"].
Proof.
  destruct csv_text_parses_back as [Play AppStore].
  split; [apply Play | apply AppStore];
    repeat constructor; simpl; intuition discriminate.
Defined.

End CsvRoundTrip.

(** ** What the Play loop asks of the store *)

Module PlayRequests.

Import ReviewService PlayFacts.

(** The token a call carries for the token held: none when it is falsy. *)
Definition sent (token : option string) : option string :=
  if truthy token then token else None.

(** A call asks for 1 to 200 reviews, paginated; a pause lasts 500 ms. *)
Definition well_formed (e : Event) : Prop :=
  match e with
  | Call options _ =>
      1 <= gplayNum options <= 200 /\ gplayPaginate options = true
  | Delay ms => ms = 500
  end.

(** Every call carries the token [expected]: at first the one given, then
    the one the call before it returned; a call that fails is the last
    event. *)
Fixpoint threaded (expected : option string) (t : list Event) : Prop :=
  match t with
  | [] => True
  | Call options (inr result) :: t' =>
      gplayToken options = expected /\ threaded (resultToken result) t'
  | Call options (inl _) :: t' => gplayToken options = expected /\ t' = []
  | Delay _ :: t' => threaded expected t'
  end.

(** A store that serves exactly what is asked for, from an endless supply,
    always with a token. *)
Definition endless_store (review : ReviewData) (options : GplayOptions) (w : unit)
  : (string + GplayResult) * unit :=
  (inr {| data := repeat review (gplayNum options);
          resultToken := Some "more"%string |}, w).

Section AnyUpstream.

Variable World : Type.
Variable gplay_reviews : GplayOptions -> World -> (string + GplayResult) * World.

Definition final_run (out : string * Run World + Stop * Loop World) : Run World :=
  match out with
  | inl (_, r) => r
  | inr (_, st) => run st
  end.

Lemma request_well_formed (num : nat) (st : Loop World) outcome :
  fetchedCount st < num ->
  well_formed (Call (request num st) outcome)
  /\ gplayToken (request num st) = sent (nextToken st).
Proof.
  intros L. unfold well_formed, request, batchSize, sent.
  cbn [gplayNum gplayPaginate gplayToken]. repeat split; lia.
Qed.

Lemma batches_trace (fuel num : nat) (st : Loop World) out :
  batches gplay_reviews fuel num st = Some out ->
  exists suffix,
    trace (final_run out) = trace (run st) ++ suffix
    /\ threaded (sent (nextToken st)) suffix
    /\ Forall well_formed suffix
    /\ length (calls suffix) <= num - fetchedCount st.
Proof.
  revert st. induction fuel as [|fuel IH]; intros st; simpl.
  - destruct (fetchedCount st <? num); [discriminate|].
    intros E. injection E as <-. exists []. cbn. rewrite app_nil_r.
    repeat split; [constructor | lia].
  - destruct (Nat.ltb_spec (fetchedCount st) num) as [L|L].
    2:{ intros E. injection E as <-. exists []. cbn. rewrite app_nil_r.
        repeat split; [constructor | lia]. }
    pose proof (batch_step gplay_reviews num st) as Hs.
    pose proof (fun outcome => @request_well_formed num st outcome L) as R.
    destruct (ReviewService.iteration gplay_reviews num st)
      as [failure|[[stop|] st']];
      inversion Hs as [message w G|result w G D|result w G D T|result w G D T];
      subst.
    + intros E. injection E as <-. eexists. split; [reflexivity|].
      destruct (R (inl message)) as [W K]. cbn. repeat split; auto. lia.
    + intros E. injection E as <-. eexists. split; [reflexivity|].
      destruct (R (inr result)) as [W K]. cbn. repeat split; auto. lia.
    + intros E. injection E as <-. eexists. split; [reflexivity|].
      destruct (R (inr result)) as [W K]. cbn. repeat split; auto. lia.
    + intros E. destruct (IH _ E) as [suffix [A [B [C F]]]].
      cbn [run nextToken fetchedCount after trace] in *.
      exists ([Call (request num st) (inr result); Delay 500] ++ suffix).
      destruct (R (inr result)) as [W K].
      split; [rewrite A, <- app_assoc; reflexivity|]. split; [|split].
      * cbn. split; [exact K|]. unfold sent in B. rewrite T in B. exact B.
      * constructor; [exact W|]. constructor; [reflexivity | exact C].
      * change (calls ([Call (request num st) (inr result); Delay 500] ++ suffix))
          with (gplayNum (request num st) :: calls suffix).
        cbn [length]. destruct (data result) as [|x l]; [congruence|].
        cbn [length] in F. lia.
Qed.

(** The store serves no more than asked for. *)
Definition Honest : Prop :=
  forall options w result w',
    gplay_reviews options w = (inr result, w') ->
    length (data result) <= gplayNum options.

Lemma batches_bounded (fuel num : nat) (st st' : Loop World) (stop : Stop) :
  Honest ->
  batches gplay_reviews fuel num st = Some (inr (stop, st')) ->
  fetchedCount st <= num ->
  length (allReviews st) = fetchedCount st ->
  length (allReviews st') = fetchedCount st'
  /\ fetchedCount st' <= num
  /\ (stop = StopTarget -> fetchedCount st' = num).
Proof.
  intros H. revert st. induction fuel as [|fuel IH]; intros st; simpl.
  - destruct (Nat.ltb_spec (fetchedCount st) num); [discriminate|].
    intros E B A. injection E as <- <-. repeat split; auto. lia.
  - destruct (Nat.ltb_spec (fetchedCount st) num) as [L|L].
    2:{ intros E B A. injection E as <- <-. repeat split; auto. lia. }
    pose proof (batch_step gplay_reviews num st) as Hs.
    destruct (ReviewService.iteration gplay_reviews num st)
      as [failure|[[stop'|] st'']];
      inversion Hs as [message w G|result w G D|result w G D T|result w G D T];
      subst; try discriminate.
    + intros E B A. injection E as <- <-. cbn. repeat split; auto. discriminate.
    + intros E B A. injection E as <- <-. cbn.
      pose proof (H _ _ _ _ G) as Le. unfold request, batchSize in Le.
      cbn [gplayNum] in Le. rewrite length_app.
      repeat split; try lia. discriminate.
    + intros E B A. apply (IH _ E); cbn.
      * pose proof (H _ _ _ _ G) as Le. unfold request, batchSize in Le.
        cbn [gplayNum] in Le. lia.
      * rewrite length_app. lia.
Qed.

(** The store serves exactly what is asked for, with a token. *)
Definition Full : Prop :=
  forall options w,
    exists result w',
      gplay_reviews options w = (inr result, w')
      /\ length (data result) = gplayNum options
      /\ truthy (resultToken result) = true.

End AnyUpstream.

(** The sizes of the calls for [n] reviews: 200 while that many are
    missing, then the rest. *)
Definition chunks (n : nat) : list nat :=
  repeat 200 (n / 200) ++ (if n mod 200 =? 0 then [] else [n mod 200]).

Lemma chunks_step (n : nat) :
  1 <= n -> chunks n = Nat.min n 200 :: chunks (n - Nat.min n 200).
Proof.
  intros H. unfold chunks. destruct (Nat.lt_ge_cases n 200) as [L|L].
  - rewrite Nat.min_l, Nat.sub_diag by lia.
    rewrite (Nat.div_small n 200), (Nat.mod_small n 200) by lia.
    destruct (Nat.eqb_spec n 0); [lia | reflexivity].
  - rewrite Nat.min_r by lia.
    pose proof (Nat.div_mod_eq n 200) as E.
    pose proof (Nat.mod_upper_bound n 200 ltac:(lia)) as U.
    assert (Q : 1 <= n / 200) by nia.
    assert (D : (n - 200) / 200 = n / 200 - 1).
    { symmetry. apply Nat.div_unique with (r := n mod 200); lia. }
    assert (M : (n - 200) mod 200 = n mod 200).
    { symmetry. apply Nat.mod_unique with (q := n / 200 - 1); lia. }
    rewrite D, M. destruct (n / 200) as [|q]; [lia|].
    cbn [repeat Nat.sub app]. rewrite Nat.sub_0_r. reflexivity.
Qed.

End PlayRequests.

Section PlayRequestClaims.

Import Storefronts.

Lemma batches_full (World : Type)
    (gplay_reviews :
       ReviewService.GplayOptions -> World
       -> (string + ReviewService.GplayResult) * World)
    (fuel num : nat) (st : ReviewService.Loop World) :
  PlayRequests.Full gplay_reviews ->
  ReviewService.fetchedCount st <= num ->
  num - ReviewService.fetchedCount st <= fuel ->
  exists st',
    ReviewService.batches gplay_reviews fuel num st
    = Some (inr (ReviewService.StopTarget, st'))
    /\ ReviewService.calls (ReviewService.trace (ReviewService.run st'))
       = ReviewService.calls (ReviewService.trace (ReviewService.run st))
         ++ PlayRequests.chunks (num - ReviewService.fetchedCount st)
    /\ length (ReviewService.allReviews st')
       = length (ReviewService.allReviews st)
         + (num - ReviewService.fetchedCount st).
Proof.
  intros H. revert st. induction fuel as [|fuel IH]; intros st B F.
  - exists st. simpl.
    destruct (Nat.ltb_spec (ReviewService.fetchedCount st) num); [lia|].
    replace (num - ReviewService.fetchedCount st) with 0 by lia.
    cbn. rewrite app_nil_r, Nat.add_0_r. auto.
  - simpl. destruct (Nat.ltb_spec (ReviewService.fetchedCount st) num) as [L|L].
    2:{ exists st. replace (num - ReviewService.fetchedCount st) with 0 by lia.
        cbn. rewrite app_nil_r, Nat.add_0_r. auto. }
    pose proof (PlayFacts.batch_step gplay_reviews num st) as Hs.
    destruct (H (PlayFacts.request num st)
                (ReviewService.world (ReviewService.run st)))
      as [res [w' [G [Len Tok]]]].
    unfold PlayFacts.request, ReviewService.batchSize in Len.
    cbn [ReviewService.gplayNum] in Len.
    destruct (ReviewService.iteration gplay_reviews num st)
      as [failure|[[stop|] st'']];
      inversion Hs as [message w G'|result w G' D|result w G' D T|result w G' D T];
      subst; rewrite G in G'; try discriminate G';
      injection G' as <- <-.
    + rewrite D in Len. cbn [length] in Len. lia.
    + congruence.
    + match goal with
      | |- context [ReviewService.batches _ fuel num ?s] =>
          destruct (IH s) as [st' [E [C A]]]
      end.
      * cbn. lia.
      * cbn. lia.
      * exists st'. split; [exact E|].
        cbn [ReviewService.run ReviewService.fetchedCount ReviewService.allReviews
             PlayFacts.after ReviewService.trace] in C, A.
        rewrite PlayFacts.play_calls_app in C.
        change (ReviewService.calls
                  [ReviewService.Call (PlayFacts.request num st) (inr res);
                   ReviewService.Delay 500])
          with [ReviewService.gplayNum (PlayFacts.request num st)] in C.
        unfold PlayFacts.request, ReviewService.batchSize in C.
        cbn [ReviewService.gplayNum] in C.
        rewrite (PlayRequests.chunks_step
                   (n := num - ReviewService.fetchedCount st)) by lia.
        rewrite length_app in A. split.
        -- rewrite C, <- app_assoc. cbn [app].
           replace (Nat.min (Nat.min (num - ReviewService.fetchedCount st) 200) 200)
             with (Nat.min (num - ReviewService.fetchedCount st) 200) by lia.
           replace (num - (ReviewService.fetchedCount st
                           + length (ReviewService.data res)))
             with (num - ReviewService.fetchedCount st
                   - Nat.min (num - ReviewService.fetchedCount st) 200) by lia.
           reflexivity.
        -- lia.
Qed.

(** X5. In any run of [fetchLargeDataset], whatever the store answers:
    every call asks for at least 1 and at most 200 reviews with pagination
    on, every pause lasts 500 ms, the first call carries no token, every
    later call carries the token that the call before it returned, and
    nothing follows a call that failed. *)
Theorem play_requests_well_formed (World : Type)
    (gplay_reviews :
       ReviewService.GplayOptions -> World
       -> (string + ReviewService.GplayResult) * World)
    (fuel : nat) (options : ReviewService.ReviewOptions) (w : World) :
  match ReviewService.fetchLargeDataset gplay_reviews fuel options
          (play_start w) with
  | Some (_, r) =>
      Forall PlayRequests.well_formed (ReviewService.trace r)
      /\ PlayRequests.threaded None (ReviewService.trace r)
  | None => True
  end.
Proof.
  rewrite fetchLargeDataset_batches.
  destruct (ReviewService.batches gplay_reviews fuel (requested options) _)
    as [out|] eqn:B; [|exact I].
  apply PlayRequests.batches_trace in B.
  destruct B as [suffix [A [T [W _]]]]. cbn in A.
  destruct out as [[m r]|[stop st]]; cbn in A; rewrite A; auto.
Qed.

(** X6. The Play loop makes at most as many calls as reviews were asked
    for, whatever the store answers. *)
Theorem play_calls_bounded (World : Type)
    (gplay_reviews :
       ReviewService.GplayOptions -> World
       -> (string + ReviewService.GplayResult) * World)
    (fuel : nat) (options : ReviewService.ReviewOptions) (w : World) :
  match ReviewService.fetchLargeDataset gplay_reviews fuel options
          (play_start w) with
  | Some (_, r) =>
      length (ReviewService.calls (ReviewService.trace r)) <= requested options
  | None => True
  end.
Proof.
  rewrite fetchLargeDataset_batches.
  destruct (ReviewService.batches gplay_reviews fuel (requested options) _)
    as [out|] eqn:B; [|exact I].
  apply PlayRequests.batches_trace in B.
  destruct B as [suffix [A [_ [_ L]]]]. cbn in A, L.
  destruct out as [[m r]|[stop st]]; cbn in A; rewrite A; lia.
Qed.

(** X7. When the store never returns more reviews than a call asks for,
    the Play [getReviews] never returns more reviews than were asked
    for. *)
Theorem play_never_exceeds (World : Type)
    (gplay_reviews :
       ReviewService.GplayOptions -> World
       -> (string + ReviewService.GplayResult) * World)
    (fuel : nat) (options : ReviewService.ReviewOptions) (w : World) :
  PlayRequests.Honest gplay_reviews ->
  match ReviewService.getReviews gplay_reviews fuel options (play_start w) with
  | Some (inr response, _) =>
      length (ReviewService.reviews response) <= requested options
  | _ => True
  end.
Proof.
  intros H. unfold ReviewService.getReviews. fold (requested options).
  destruct (Nat.ltb_spec 200 (requested options)) as [L|L].
  - rewrite fetchLargeDataset_batches.
    destruct (ReviewService.batches gplay_reviews fuel (requested options) _)
      as [[[m r]|[stop st]]|] eqn:B; try exact I.
    destruct (@PlayRequests.batches_bounded World gplay_reviews fuel
                (requested options) _ st stop H B) as [A [Le _]];
      cbn; try lia.
  - unfold ReviewService.fetchSingleBatch. fold (requested options).
    match goal with
    | |- context [gplay_reviews ?o ?x] =>
        destruct (gplay_reviews o x) as [[m|res] w'] eqn:G
    end; [exact I|].
    apply H in G. cbn in G. cbn. rewrite length_map. lia.
Qed.

Lemma token_source_honest (avail : list ReviewService.ReviewData) :
  PlayRequests.Honest (token_source avail).
Proof.
  intros options w result w' E. unfold token_source in E.
  injection E as <- _. cbn. rewrite length_firstn. lia.
Qed.

(** X7 at 250 reviews asked of a store of 300. *)
Lemma play_never_exceeds_witness :
  match ReviewService.getReviews (token_source (repeat (play_review "ok") 300))
          250 (play_options 250) (play_start tt) with
  | Some (inr response, _) => length (ReviewService.reviews response) <= 250
  | _ => True
  end.
Proof.
  apply (@play_never_exceeds unit (token_source (repeat (play_review "ok") 300))
           250 (play_options 250) tt).
  apply token_source_honest.
Defined.

(** X8. When every call returns exactly as many reviews as it asked for,
    with a token, a request for [num] reviews is served by calls for 200
    reviews each, as many as fit, and one call for the rest when there is
    a rest; the [num] reviews come back and the loop leaves on its
    condition. *)
Theorem play_batch_sizes (World : Type)
    (gplay_reviews :
       ReviewService.GplayOptions -> World
       -> (string + ReviewService.GplayResult) * World)
    (fuel num : nat) (w : World) :
  PlayRequests.Full gplay_reviews ->
  num <= fuel ->
  exists response r,
    ReviewService.fetchLargeDataset gplay_reviews fuel (play_options num)
      (play_start w)
    = Some (inr (response, ReviewService.StopTarget), r)
    /\ ReviewService.calls (ReviewService.trace r)
       = repeat 200 (num / 200)
         ++ (if num mod 200 =? 0 then [] else [num mod 200])
    /\ length (ReviewService.reviews response) = num.
Proof.
  intros H F. rewrite fetchLargeDataset_batches.
  change (requested (play_options num)) with num.
  destruct (@batches_full World gplay_reviews fuel num (play_loop_start w) H)
    as [st [E [C A]]]; cbn; try lia.
  unfold play_loop_start in E. rewrite E. do 2 eexists.
  split; [reflexivity|]. cbn in C, A. rewrite Nat.sub_0_r in C, A.
  split; [exact C | exact A].
Qed.

(** X8 at 450 reviews: calls for 200, 200 and 50. *)
Lemma play_batch_sizes_witness :
  exists response r,
    ReviewService.fetchLargeDataset
      (PlayRequests.endless_store (play_review "ok")) 450 (play_options 450)
      (play_start tt)
    = Some (inr (response, ReviewService.StopTarget), r)
    /\ ReviewService.calls (ReviewService.trace r) = [200; 200; 50]
    /\ length (ReviewService.reviews response) = 450.
Proof.
  apply (@play_batch_sizes unit (PlayRequests.endless_store (play_review "ok"))
           450 450 tt); [|lia].
  intros options w. do 2 eexists. split; [reflexivity|].
  cbn. rewrite repeat_length. auto.
Defined.

End PlayRequestClaims.

(** ** The App Store aggregation: bound and small requests *)

Section AppStoreBounds.

Import AppStoreService AppStoreFacts.

(** X9. [getReviewsWithPagination] never returns more reviews than were
    asked for, whatever the storefront answers and however large its
    pages are, and [totalCount] is the number of reviews returned. *)
Theorem pagination_never_exceeds (World : Type)
    (appStore_reviews : nat -> World -> (string + list AppStoreReviewData) * World)
    (totalReviews : nat) (w : World) :
  let '(response, _, _) :=
    getReviewsWithPagination appStore_reviews totalReviews (appStore_start w) in
  length (reviews response) <= totalReviews
  /\ totalCount response = length (reviews response).
Proof.
  destruct totalReviews as [|n].
  - cbn. auto.
  - pose proof (pagination_collected appStore_reviews w
                  (totalReviews := S n) ltac:(lia)) as P.
    destruct (getReviewsWithPagination appStore_reviews (S n) (appStore_start w))
      as [[response stop] r] eqn:E.
    assert (T : totalCount response = length (reviews response)).
    { unfold getReviewsWithPagination in E.
      destruct (pages_loop appStore_reviews (S n) _ 1 _) as [stop' st].
      injection E as <- _ _. reflexivity. }
    split; [|exact T]. destruct P as [C _].
    destruct stop; cbn [Collected allReviews] in C.
    2:{ destruct C as [e [l [_ [_ [_ C]]]]]. lia. }
    all: destruct C as [_ C]; lia.
Qed.

(** X10. For 1 to 50 reviews, [getReviewsWithPagination] makes the one
    call that [getReviews] makes. When the call succeeds it returns the
    first [totalReviews] reviews of that page and leaves the same trace;
    when the call fails, [getReviews] throws while
    [getReviewsWithPagination] logs the error and returns no review, with
    [hasMore] false. *)
Theorem pagination_of_one_page (World : Type)
    (appStore_reviews : nat -> World -> (string + list AppStoreReviewData) * World)
    (totalReviews : nat) (w : World) :
  1 <= totalReviews <= 50 ->
  let '(response, _, r) :=
    getReviewsWithPagination appStore_reviews totalReviews (appStore_start w) in
  match getReviews appStore_reviews None (appStore_start w) with
  | (inr page, r1) =>
      reviews response = firstn totalReviews (reviews page)
      /\ trace r = trace r1
  | (inl _, r1) =>
      reviews response = [] /\ hasMore response = false
      /\ trace r = trace r1 ++ [ErrorLogged 1]
  end.
Proof.
  intros H. unfold getReviewsWithPagination, reviewsPerPage.
  rewrite (@ceil_div_unique totalReviews 1) by lia.
  cbn [pages_loop].
  pose proof (iteration_step appStore_reviews totalReviews 1
                {| allReviews := []; run := appStore_start w |}) as Hs.
  destruct (iteration appStore_reviews totalReviews 1 _) as [o st].
  cbn [fst snd] in Hs. unfold getReviews.
  inversion Hs as [m w' G|w' G|res w' G NE T|res w' G NE T F|res w' G NE T F];
    subst; unfold appStore_start in *;
    cbn [allReviews run world trace] in *; rewrite G;
    cbn [reviews hasMore allReviews run trace app length];
    rewrite ?map_mapReviewData.
  - destruct totalReviews; [lia|]. auto.
  - destruct totalReviews; auto.
  - auto.
  - cbn [app length] in T. rewrite firstn_all2 by lia. auto.
  - cbn [app length] in T. lia.
Qed.

(** X10 at 30 reviews asked of a storefront of 60, and of a storefront
    whose first page fails. *)
Lemma pagination_of_one_page_witness :
  (let '(response, _, _) :=
     getReviewsWithPagination
       (Storefronts.paged_source (repeat (appStore_review "ok") 60)) 30
       (appStore_start tt) in
   length (reviews response) = 30)
  /\ (let '(response, _, _) :=
        getReviewsWithPagination
          (Storefronts.flaky_pages (repeat (appStore_review "ok") 60) 1) 30
          (appStore_start tt) in
      reviews response = []).
Proof.
  split.
  - pose proof (@pagination_of_one_page unit
                  (Storefronts.paged_source (repeat (appStore_review "ok") 60))
                  30 tt ltac:(lia)) as P.
    destruct (getReviewsWithPagination _ 30 (appStore_start tt))
      as [[response stop] r].
    cbn in P. destruct P as [P _]. rewrite P. reflexivity.
  - pose proof (@pagination_of_one_page unit
                  (Storefronts.flaky_pages (repeat (appStore_review "ok") 60) 1)
                  30 tt ltac:(lia)) as P.
    destruct (getReviewsWithPagination _ 30 (appStore_start tt))
      as [[response stop] r].
    cbn in P. destruct P as [P _]. exact P.
Defined.

End AppStoreBounds.

(** ** Application ids in storefront URLs

    [extractAppIdFromUrl] and [extractAppStoreIdFromUrl] of csvService.ts,
    and [extractAppIdFromUrl] of appStoreService.ts, which has the body of
    [extractAppStoreIdFromUrl]. None of the patterns has the [u] or the
    [g] flag: [url.match] gives the leftmost match, and every character
    the patterns name is ASCII. *)

Module UrlIds.

Definition slash : codeunit := 47%N.
Definition ampersand : codeunit := 38%N.
Definition question : codeunit := 63%N.

(** [\d] *)
Definition is_digit (c : codeunit) : bool := in_range 48 57 c.

(** The longest run, from the start, of characters of a class: what a
    greedy [+] takes when whatever follows it in the pattern cannot start
    with a character of the class. *)
Fixpoint take_while (f : codeunit -> bool) (s : jsstring) : jsstring :=
  match s with
  | [] => []
  | c :: s' => if f c then c :: take_while f s' else []
  end.

(** [s.match(pattern)]: the group captured at the leftmost place where the
    pattern matches; [here] is the pattern matched at the start of its
    argument. *)
Fixpoint first_match (here : jsstring -> option jsstring) (s : jsstring)
  : option jsstring :=
  match here s with
  | Some captured => Some captured
  | None =>
      match s with
      | [] => None
      | _ :: s' => first_match here s'
      end
  end.

Definition digits_here (s : jsstring) : option jsstring :=
  match take_while is_digit s with
  | [] => None
  | c :: d => Some (c :: d)
  end.

(** [/\/id(\d+)/] *)
Definition id_here (s : jsstring) : option jsstring :=
  if starts_with (lit "/id") s then digits_here (skipn 3 s) else None.

(** [/\/app\/[^\/]+\/id(\d+)/]: the name after [/app/] runs up to the next
    slash, where [/id] and the digits must follow. *)
Definition app_name_id_here (s : jsstring) : option jsstring :=
  if starts_with (lit "/app/") s
  then
    let rest := skipn 5 s in
    let name := take_while (fun c => negb (c =? slash)%N) rest in
    match name with
    | [] => None
    | _ :: _ => id_here (skipn (length name) rest)
    end
  else None.

(** [/\/app\/id(\d+)/] *)
Definition app_id_here (s : jsstring) : option jsstring :=
  if starts_with (lit "/app/id") s then digits_here (skipn 7 s) else None.

(** The loop over the patterns: the first one with a match whose group is
    not empty decides. *)
Fixpoint first_capture (patterns : list (jsstring -> option jsstring))
    (url : jsstring) : option jsstring :=
  match patterns with
  | [] => None
  | pattern :: rest =>
      match first_match pattern url with
      | Some (c :: d) => Some (c :: d)
      | _ => first_capture rest url
      end
  end.

Definition extractAppStoreIdFromUrl (url : jsstring) : option jsstring :=
  first_capture [id_here; app_name_id_here; app_id_here] url.

(** [/[?&]id=([^&]+)/] *)
Definition query_id_here (s : jsstring) : option jsstring :=
  match s with
  | [] => None
  | c :: s' =>
      if ((c =? question)%N || (c =? ampersand)%N)
         && starts_with (lit "id=") s'
      then
        match take_while (fun c => negb (c =? ampersand)%N) (skipn 3 s') with
        | [] => None
        | a :: v => Some (a :: v)
        end
      else None
  end.

Definition extractAppIdFromUrl (url : jsstring) : option jsstring :=
  first_match query_id_here url.

End UrlIds.

Example appStore_url_id :
  UrlIds.extractAppStoreIdFromUrl
    (lit "https://apps.apple.com/tr/app/whatsapp-messenger/id310633997")
  = Some (lit "310633997").
Proof. reflexivity. Qed.

Example play_url_id :
  UrlIds.extractAppIdFromUrl
    (lit "https://play.google.com/store/apps/details?id=com.whatsapp&hl=tr")
  = Some (lit "com.whatsapp").
Proof. reflexivity. Qed.

Example url_without_id :
  UrlIds.extractAppStoreIdFromUrl (lit "https://apps.apple.com/app/idea") = None
  /\ UrlIds.extractAppIdFromUrl (lit "https://play.google.com/store?hl=tr&id=") = None.
Proof. split; reflexivity. Qed.

Module UrlFacts.

Import UrlIds.

Lemma take_while_all (f : codeunit -> bool) (s : jsstring) :
  forallb f (take_while f s) = true.
Proof.
  induction s as [|c s IH]; simpl; [reflexivity|].
  destruct (f c) eqn:F; simpl; [rewrite F; exact IH | reflexivity].
Qed.

(** The run and what follows it: the string is the two put together, and
    what follows does not start with a character of the class. *)
Lemma take_while_split (f : codeunit -> bool) (s : jsstring) :
  exists post,
    s = take_while f s ++ post
    /\ match post with [] => True | c :: _ => f c = false end.
Proof.
  induction s as [|c s [post [E P]]]; simpl.
  - exists []. auto.
  - destruct (f c) eqn:F.
    + exists post. split; [simpl; f_equal; exact E | exact P].
    + exists (c :: s). auto.
Qed.

Lemma take_while_app (f : codeunit -> bool) (v post : jsstring) :
  forallb f v = true ->
  match post with [] => True | c :: _ => f c = false end ->
  take_while f (v ++ post) = v.
Proof.
  intros V P. induction v as [|c v IH]; simpl.
  - destruct post as [|c post]; [reflexivity|]. simpl. rewrite P. reflexivity.
  - simpl in V. apply andb_prop in V. destruct V as [C V].
    rewrite C, (IH V). reflexivity.
Qed.

Lemma starts_with_split (p s : jsstring) :
  starts_with p s = true -> s = p ++ skipn (length p) s.
Proof.
  revert s. induction p as [|a p IH]; intros s; simpl; [reflexivity|].
  destruct s as [|b s]; [discriminate|]. intros H.
  apply andb_prop in H. destruct H as [E H]. apply N.eqb_eq in E. subst b.
  f_equal. apply IH, H.
Qed.

Lemma skipn_after (pre t : jsstring) : skipn (length pre) (pre ++ t) = t.
Proof. induction pre as [|c pre IH]; simpl; [reflexivity | exact IH]. Qed.

Lemma first_match_none (here : jsstring -> option jsstring) (s : jsstring) :
  first_match here s = None -> forall n, here (skipn n s) = None.
Proof.
  induction s as [|c s IH]; simpl.
  - destruct (here []) eqn:H; [discriminate|]. intros _ n.
    destruct n; exact H.
  - destruct (here (c :: s)) eqn:H; [discriminate|]. intros E n.
    destruct n as [|n]; [exact H | apply IH, E].
Qed.

(** The match found is the leftmost. *)
Lemma first_match_some (here : jsstring -> option jsstring) (s d : jsstring) :
  first_match here s = Some d ->
  exists n,
    n <= length s /\ here (skipn n s) = Some d
    /\ forall m, m < n -> here (skipn m s) = None.
Proof.
  induction s as [|c s IH]; simpl.
  - destruct (here []) eqn:H; [|discriminate]. intros E. exists 0.
    split; [lia|]. split; [rewrite <- E; exact H | intros m L; lia].
  - destruct (here (c :: s)) eqn:H.
    + intros E. exists 0. split; [lia|].
      split; [rewrite <- E; exact H | intros m L; lia].
    + intros E. destruct (IH E) as [n [B [F L]]]. exists (S n).
      split; [lia|]. split; [exact F|]. intros [|m] M; [exact H|].
      apply L. lia.
Qed.

Lemma digits_here_some (s d : jsstring) :
  digits_here s = Some d ->
  d <> [] /\ forallb is_digit d = true
  /\ exists post,
      s = d ++ post
      /\ match post with [] => True | c :: _ => is_digit c = false end.
Proof.
  unfold digits_here. pose proof (take_while_all is_digit s) as A.
  destruct (take_while_split is_digit s) as [post [E P]].
  destruct (take_while is_digit s) as [|c t]; [discriminate|].
  intros H. injection H as <-. split; [discriminate|]. split; [exact A|].
  exists post. auto.
Qed.

Lemma id_here_some (s d : jsstring) :
  id_here s = Some d ->
  d <> [] /\ forallb is_digit d = true
  /\ exists post,
      s = lit "/id" ++ d ++ post
      /\ match post with [] => True | c :: _ => is_digit c = false end.
Proof.
  unfold id_here. destruct (starts_with (lit "/id") s) eqn:S; [|discriminate].
  intros H. apply digits_here_some in H. destruct H as [N [D [post [E P]]]].
  split; [exact N|]. split; [exact D|]. exists post. split; [|exact P].
  rewrite (starts_with_split _ _ S) at 1. change (length (lit "/id")) with 3.
  rewrite E. reflexivity.
Qed.

Lemma id_here_at (c : codeunit) (post : jsstring) :
  is_digit c = true ->
  id_here (lit "/id" ++ c :: post) = Some (c :: take_while is_digit post).
Proof.
  intros D. unfold id_here.
  rewrite (starts_with_app (lit "/id") (c :: post)).
  change (skipn 3 (lit "/id" ++ c :: post)) with (c :: post).
  unfold digits_here. simpl. rewrite D. reflexivity.
Qed.

(** Where the second or the third pattern matches, the first one matches
    a little further on, with the same digits. *)
Lemma app_name_id_here_id (s d : jsstring) :
  app_name_id_here s = Some d -> exists n, id_here (skipn n s) = Some d.
Proof.
  unfold app_name_id_here. destruct (starts_with (lit "/app/") s); [|discriminate].
  cbv zeta. destruct (take_while _ (skipn 5 s)) as [|a name]; [discriminate|].
  rewrite skipn_skipn. intros H. eexists. exact H.
Qed.

Lemma app_id_here_id (s d : jsstring) :
  app_id_here s = Some d -> id_here (skipn 4 s) = Some d.
Proof.
  unfold app_id_here. destruct (starts_with (lit "/app/id") s) eqn:S; [|discriminate].
  intros H. rewrite (starts_with_split _ _ S).
  change (length (lit "/app/id")) with 7.
  change (skipn 4 (lit "/app/id" ++ skipn 7 s)) with (lit "/id" ++ skipn 7 s).
  unfold id_here. rewrite (starts_with_app (lit "/id") (skipn 7 s)).
  change (skipn 3 (lit "/id" ++ skipn 7 s)) with (skipn 7 s). exact H.
Qed.

Lemma later_patterns_idle (url : jsstring) :
  first_match id_here url = None ->
  first_match app_name_id_here url = None
  /\ first_match app_id_here url = None.
Proof.
  intros N. pose proof (first_match_none _ _ N) as Z. split.
  - destruct (first_match app_name_id_here url) as [d|] eqn:E; [|reflexivity].
    apply first_match_some in E. destruct E as [n [_ [E _]]].
    apply app_name_id_here_id in E. destruct E as [k E].
    rewrite skipn_skipn, Z in E. discriminate E.
  - destruct (first_match app_id_here url) as [d|] eqn:E; [|reflexivity].
    apply first_match_some in E. destruct E as [n [_ [E _]]].
    apply app_id_here_id in E. rewrite skipn_skipn, Z in E. discriminate E.
Qed.

End UrlFacts.

Section UrlClaims.

Import UrlIds UrlFacts.

(** X11. The App Store id of a URL is decided by the first pattern alone:
    the patterns with [/app/] never add a match. The id is the run of
    digits, as long as it goes, after the leftmost [/id] that a digit
    follows; without such a place there is no id. *)
Theorem appStore_id_of_url (url : jsstring) :
  extractAppStoreIdFromUrl url = first_match id_here url
  /\ match extractAppStoreIdFromUrl url with
     | Some d =>
         d <> [] /\ forallb is_digit d = true
         /\ exists pre post,
             url = pre ++ lit "/id" ++ d ++ post
             /\ match post with [] => True | c :: _ => is_digit c = false end
             /\ forall pre' c post',
                 is_digit c = true ->
                 url = pre' ++ lit "/id" ++ c :: post' ->
                 length pre <= length pre'
     | None =>
         forall pre c post,
           is_digit c = true -> url <> pre ++ lit "/id" ++ c :: post
     end.
Proof.
  assert (A : extractAppStoreIdFromUrl url = first_match id_here url).
  { unfold extractAppStoreIdFromUrl, first_capture.
    destruct (first_match id_here url) as [d|] eqn:E.
    - pose proof E as F. apply first_match_some in F.
      destruct F as [n [_ [F _]]]. apply id_here_some in F.
      destruct d; [destruct F as [F _]; congruence | reflexivity].
    - destruct (later_patterns_idle _ E) as [E2 E3]. rewrite E2, E3.
      reflexivity. }
  split; [exact A|]. rewrite A.
  destruct (first_match id_here url) as [d|] eqn:E.
  - apply first_match_some in E. destruct E as [n [B [F L]]].
    destruct (id_here_some _ F) as [N [D [post [S P]]]].
    split; [exact N|]. split; [exact D|].
    exists (firstn n url), post. split; [|split; [exact P|]].
    + rewrite <- S. symmetry. apply firstn_skipn.
    + intros pre' c post' C U. rewrite length_firstn.
      destruct (Nat.lt_ge_cases (length pre') n) as [Lt|Ge]; [|lia].
      exfalso. specialize (L _ Lt). rewrite U, skipn_after in L.
      rewrite (@id_here_at c post' C) in L. discriminate L.
  - intros pre c post C U.
    pose proof (first_match_none _ _ E (length pre)) as Z.
    rewrite U, skipn_after, (@id_here_at c post C) in Z. discriminate Z.
Qed.

Lemma no_ampersand (v : jsstring) :
  forallb (fun c => negb (c =? ampersand)%N) v = true <-> ~ In ampersand v.
Proof.
  rewrite forallb_forall. split.
  - intros H I. specialize (H _ I). discriminate H.
  - intros H c I. apply negb_true_iff, N.eqb_neq. intros E. subst c. exact (H I).
Qed.

Lemma first_match_at (here : jsstring -> option jsstring) (s d : jsstring)
    (n : nat) :
  here (skipn n s) = Some d ->
  (forall m, m < n -> here (skipn m s) = None) ->
  first_match here s = Some d.
Proof.
  revert n. induction s as [|c s IH]; intros n F L.
  - rewrite skipn_nil in F. simpl. rewrite F. reflexivity.
  - destruct n as [|n].
    + cbn [skipn] in F. cbn [first_match]. rewrite F. reflexivity.
    + cbn [first_match]. pose proof (L 0 ltac:(lia)) as Z.
      cbn [skipn] in Z. rewrite Z.
      apply (IH n F). intros m M. apply (L (S m)). lia.
Qed.

(** A place where the pattern [/[?&]id=([^&]+)/] matches: a mark, [id=]
    and a character that is no ampersand. *)
Definition is_mark (c : codeunit) : Prop := c = question \/ c = ampersand.

Lemma query_id_here_at (mark c : codeunit) (post : jsstring) :
  is_mark mark -> c <> ampersand ->
  query_id_here (mark :: lit "id=" ++ c :: post)
  = Some (c :: take_while (fun c => negb (c =? ampersand)%N) post).
Proof.
  intros M C. unfold query_id_here.
  assert (T : ((mark =? question) || (mark =? ampersand))%N = true).
  { destruct M as [->| ->]; reflexivity. }
  rewrite T, (starts_with_app (lit "id=") (c :: post)).
  change (skipn 3 (lit "id=" ++ c :: post)) with (c :: post).
  cbn [andb take_while]. apply N.eqb_neq in C. rewrite C. reflexivity.
Qed.

Lemma query_id_here_some (s v : jsstring) :
  query_id_here s = Some v ->
  exists mark post,
    s = mark :: lit "id=" ++ v ++ post
    /\ is_mark mark /\ v <> [] /\ ~ In ampersand v
    /\ match post with [] => True | c :: _ => c = ampersand end.
Proof.
  unfold query_id_here. destruct s as [|mark s']; [discriminate|].
  destruct ((mark =? question)%N || (mark =? ampersand)%N) eqn:M;
    [|discriminate].
  destruct (starts_with (lit "id=") s') eqn:S; [|discriminate].
  cbn [andb].
  pose proof (take_while_all (fun c => negb (c =? ampersand)%N) (skipn 3 s')) as A.
  destruct (take_while_split (fun c => negb (c =? ampersand)%N) (skipn 3 s'))
    as [post [T P]].
  destruct (take_while _ (skipn 3 s')) as [|a w]; [discriminate|].
  intros F. injection F as <-. exists mark, post. split; [|split; [|split; [|split]]].
  - f_equal. rewrite (starts_with_split _ _ S) at 1.
    change (length (lit "id=")) with 3. rewrite T at 1. reflexivity.
  - apply orb_prop in M. destruct M as [M|M]; apply N.eqb_eq in M;
      [left | right]; exact M.
  - discriminate.
  - apply no_ampersand, A.
  - destruct post as [|c post]; [exact I|].
    apply negb_false_iff, N.eqb_eq in P. exact P.
Qed.

(** X12. The Play id of a URL is found at the leftmost place where [?id=]
    or [&id=] is followed by a character that is no ampersand, and is
    what follows the mark there, up to the next ampersand or the end: the
    function gives [v] exactly when the URL reads so, with [v] not empty
    and without ampersand, and it gives nothing exactly when the URL has
    no such place. A mark that an ampersand follows at once is passed
    over. *)
Theorem play_id_of_url (url : jsstring) :
  (forall v,
      extractAppIdFromUrl url = Some v
      <-> exists pre mark post,
            url = pre ++ mark :: lit "id=" ++ v ++ post
            /\ is_mark mark /\ v <> [] /\ ~ In ampersand v
            /\ match post with [] => True | c :: _ => c = ampersand end
            /\ forall pre' mark' c post',
                 is_mark mark' -> c <> ampersand ->
                 url = pre' ++ mark' :: lit "id=" ++ c :: post' ->
                 length pre <= length pre')
  /\ (extractAppIdFromUrl url = None
      <-> forall pre mark c post,
            is_mark mark -> c <> ampersand ->
            url <> pre ++ mark :: lit "id=" ++ c :: post).
Proof.
  unfold extractAppIdFromUrl.
  assert (Forth : forall v,
    first_match query_id_here url = Some v ->
    exists pre mark post,
      url = pre ++ mark :: lit "id=" ++ v ++ post
      /\ is_mark mark /\ v <> [] /\ ~ In ampersand v
      /\ match post with [] => True | c :: _ => c = ampersand end
      /\ forall pre' mark' c post',
           is_mark mark' -> c <> ampersand ->
           url = pre' ++ mark' :: lit "id=" ++ c :: post' ->
           length pre <= length pre').
  { intros v E. apply first_match_some in E. destruct E as [n [_ [F L]]].
    destruct (query_id_here_some _ F) as [mark [post [S [M [N [A P]]]]]].
    exists (firstn n url), mark, post.
    split; [rewrite <- S; symmetry; apply firstn_skipn|].
    do 4 (split; [assumption|]).
    intros pre' mark' c post' M' C U. rewrite length_firstn.
    destruct (Nat.lt_ge_cases (length pre') n) as [Lt|Ge]; [|lia].
    exfalso. specialize (L _ Lt). rewrite U, skipn_after in L.
    rewrite (query_id_here_at post' M' C) in L. discriminate L. }
  split.
  - intros v. split; [apply Forth|].
    intros [pre [mark [post [U [M [N [A [P L]]]]]]]].
    apply first_match_at with (n := length pre).
    + rewrite U, skipn_after. destruct v as [|c v]; [congruence|].
      cbn [app]. rewrite query_id_here_at.
      * f_equal. f_equal. apply take_while_app.
        -- apply no_ampersand. intros X. apply A. right. exact X.
        -- destruct post as [|x post]; [exact P|]. subst x. reflexivity.
      * exact M.
      * intros X. apply A. left. exact X.
    + intros m Lt. destruct (query_id_here (skipn m url)) as [w|] eqn:Q;
        [|reflexivity].
      exfalso. destruct (query_id_here_some _ Q)
        as [mark' [post' [S [M' [N' [A' _]]]]]].
      destruct w as [|c w]; [congruence|].
      assert (C : c <> ampersand).
      { intros X. apply A'. left. exact X. }
      specialize (L (firstn m url) mark' c (w ++ post') M' C).
      rewrite length_firstn in L.
      assert (X : url = firstn m url ++ mark' :: lit "id=" ++ c :: w ++ post').
      { rewrite <- (firstn_skipn m url) at 1. f_equal. exact S. }
      specialize (L X). lia.
  - split.
    + intros E pre mark c post M C U.
      pose proof (first_match_none _ _ E (length pre)) as Z.
      rewrite U, skipn_after, (query_id_here_at post M C) in Z. discriminate Z.
    + intros H. destruct (first_match query_id_here url) as [v|] eqn:E;
        [|reflexivity].
      exfalso. destruct (Forth v eq_refl)
        as [pre [mark [post [U [M [N [A _]]]]]]].
      destruct v as [|c v]; [congruence|].
      apply (H pre mark c (v ++ post) M).
      * intros X. apply A. left. exact X.
      * exact U.
Qed.

(** X12 at a URL whose first mark is followed at once by an ampersand:
    the id is read at the second mark. *)
Lemma play_id_of_url_witness :
  exists pre mark post,
    lit "a?id=&id=abc&x=1" = pre ++ mark :: lit "id=" ++ lit "abc" ++ post
    /\ is_mark mark /\ lit "abc" <> [] /\ ~ In ampersand (lit "abc")
    /\ match post with [] => True | c :: _ => c = ampersand end
    /\ forall pre' mark' c post',
         is_mark mark' -> c <> ampersand ->
         lit "a?id=&id=abc&x=1" = pre' ++ mark' :: lit "id=" ++ c :: post' ->
         length pre <= length pre'.
Proof.
  apply (proj1 (proj1 (play_id_of_url (lit "a?id=&id=abc&x=1")) (lit "abc"))).
  reflexivity.
Defined.

(** The URL of an application page with a language parameter, the URL
    above, and a URL whose only mark has nothing after it. *)
Example play_id_examples :
  extractAppIdFromUrl
    (lit "https://play.google.com/store/apps/details?id=com.whatsapp&hl=tr")
  = Some (lit "com.whatsapp")
  /\ extractAppIdFromUrl (lit "a?id=&id=abc&x=1") = Some (lit "abc")
  /\ extractAppIdFromUrl (lit "a?b=1&idx=3&id=") = None.
Proof. repeat split; reflexivity. Qed.

End UrlClaims.

(** ** The version column of the two schemas *)

Section VersionColumn.

Import CSVService SanitizerFacts.

(** X13. The two exports treat a missing version differently. In a Play
    row the version goes through [version || ''] first: an absent or
    empty version gives [Nan], and the column reads [Null] only when the
    version text itself scrubs to the word. In an App Store row an absent
    version gives [Null] and an empty one [Nan]. *)
Theorem version_column :
  (forall review : ReviewService.ReviewData,
      (ReviewService.version review = None
       \/ ReviewService.version review = Some []) ->
      nth 6 (playFields review) [] = lit "Nan")
  /\ (forall review : ReviewService.ReviewData,
      nth 6 (playFields review) [] = lit "Null" ->
      exists s,
        ReviewService.version review = Some s
        /\ removeEmojis s = lit "Null")
  /\ (forall review : AppStoreService.AppStoreReviewData,
      (AppStoreService.version review = None ->
       nth 5 (appStoreFields review) [] = lit "Null")
      /\ (AppStoreService.version review = Some [] ->
          nth 5 (appStoreFields review) [] = lit "Nan")).
Proof.
  split; [|split].
  - intros review [E|E]; unfold playFields; cbn [nth]; rewrite E; reflexivity.
  - intros review. unfold playFields. cbn [nth].
    destruct (ReviewService.version review) as [[|c s]|];
      cbn [or_empty]; try (intros H; discriminate H).
    intros H. exists (c :: s). split; [reflexivity|].
    destruct (sanitized_some (c :: s))
      as [[_ E]|[[_ [_ E]]|[[_ [_ [_ E]]]|[_ [_ [_ [_ E]]]]]]];
      pose proof (eq_trans (eq_sym E) H) as X; try discriminate X. exact X.
  - intros review. unfold appStoreFields. cbn [nth].
    split; intros E; rewrite E; reflexivity.
Qed.

(** X13 at the sample Play review, which has no version. *)
Lemma version_column_witness :
  nth 6 (playFields (play_review "ok")) [] = lit "Nan".
Proof.
  destruct version_column as [Play _]. apply Play. left. reflexivity.
Defined.

End VersionColumn.

(** ** csvService.ts: the list of exports *)

From Stdlib Require Import Permutation Sorted.

Module ExportListing.

(** What [fs.statSync] tells of a file; times in milliseconds, as
    [getTime] gives them. *)
Record Stats := { size : Z; birthtime : Z; mtime : Z }.

(** The file system as [listExports] reads it: [fs.existsSync], the names
    that [fs.readdirSync] gives for a directory, in its order, and
    [fs.statSync]; [None] where the call throws. *)
Record Disk := {
  existsSync : string -> bool;
  readdirSync : string -> option (list string);
  statSync : string -> option Stats
}.

(** An entry of the list; [fileSizeFormatted], computed in floating point,
    is left out. *)
Record ExportFile := {
  fileName : string;
  filePath : string;
  fileSize : Z;
  createdAt : Z;
  modifiedAt : Z
}.

Fixpoint ascii_prefix (p s : list ascii) : bool :=
  match p, s with
  | [], _ => true
  | _ :: _, [] => false
  | a :: p', b :: s' => Ascii.eqb a b && ascii_prefix p' s'
  end.

(** [s.endsWith(suffix)] *)
Definition endsWith (s suffix : string) : bool :=
  ascii_prefix (rev (list_ascii_of_string suffix)) (rev (list_ascii_of_string s)).

(** [files.sort((a, b) => b.modifiedAt.getTime() - a.modifiedAt.getTime())].
    [sort] is stable and the comparator puts the later time first: each
    file, taken from the last to the first, goes in front of the first
    file that is not later than it. *)
Fixpoint insert (x : ExportFile) (l : list ExportFile) : list ExportFile :=
  match l with
  | [] => [x]
  | y :: l' =>
      if (modifiedAt y <=? modifiedAt x)%Z then x :: l else y :: insert x l'
  end.

Fixpoint sort (l : list ExportFile) : list ExportFile :=
  match l with
  | [] => []
  | x :: l' => insert x (sort l')
  end.

(** [names.map(f)] for a function that can throw: the first throw ends
    it. *)
Fixpoint map_throwing (A B : Type) (f : A -> option B) (l : list A)
  : option (list B) :=
  match l with
  | [] => Some []
  | a :: l' =>
      match f a with
      | None => None
      | Some b =>
          match map_throwing f l' with
          | None => None
          | Some bs => Some (b :: bs)
          end
      end
  end.

Section Environment.

(** [path.resolve] and [path.join] of Node's [path] module, as in the
    exports, and the file system. *)
Variable path_resolve : string -> string.
Variable path_join : string -> string -> string.
Variable disk : Disk.

(** The function given to [map]. *)
Definition describe (fullOutputDir file : string) : option ExportFile :=
  let filePath := path_join fullOutputDir file in
  match statSync disk filePath with
  | None => None
  | Some stats =>
      Some {| fileName := file;
              filePath := filePath;
              fileSize := size stats;
              createdAt := birthtime stats;
              modifiedAt := mtime stats |}
  end.

(** [listExports]; [None] is the error thrown from the [catch], when
    [readdirSync] or a [statSync] throws. *)
Definition listExports (outputDir : option string)
  : option (list ExportFile) :=
  let outputDir :=
    match outputDir with
    | Some d => d
    | None => CSVService.DEFAULT_OUTPUT_DIR
    end in
  let fullOutputDir := path_resolve outputDir in
  if negb (existsSync disk fullOutputDir) then Some []
  else
    match readdirSync disk fullOutputDir with
    | None => None
    | Some names =>
        match map_throwing (describe fullOutputDir)
                (filter (fun file => endsWith file ".csv") names) with
        | None => None
        | Some files => Some (sort files)
        end
    end.

End Environment.

(** [b] is not later than [a]. *)
Definition not_later (a b : ExportFile) : Prop :=
  (modifiedAt b <= modifiedAt a)%Z.

Lemma insert_perm (x : ExportFile) (l : list ExportFile) :
  Permutation (insert x l) (x :: l).
Proof.
  induction l as [|y l IH]; simpl; [apply Permutation_refl|].
  destruct (modifiedAt y <=? modifiedAt x)%Z; [apply Permutation_refl|].
  apply perm_trans with (y :: x :: l); [apply perm_skip, IH | apply perm_swap].
Qed.

Lemma sort_perm (l : list ExportFile) : Permutation (sort l) l.
Proof.
  induction l as [|x l IH]; simpl; [apply Permutation_refl|].
  apply perm_trans with (x :: sort l); [apply insert_perm | apply perm_skip, IH].
Qed.

Lemma insert_sorted (x : ExportFile) (l : list ExportFile) :
  StronglySorted not_later l -> StronglySorted not_later (insert x l).
Proof.
  induction l as [|y l IH]; simpl; intros H.
  - constructor; [constructor | constructor].
  - inversion H as [|y' l' Hl Hy]; subst.
    destruct (Z.leb_spec (modifiedAt y) (modifiedAt x)) as [L|L].
    + constructor; [exact H|]. constructor; [exact L|].
      apply Forall_impl with (2 := Hy). unfold not_later. intros z Z. lia.
    + constructor; [apply IH, Hl|].
      apply (Permutation_Forall (Permutation_sym (insert_perm x l))).
      constructor; [unfold not_later; lia | exact Hy].
Qed.

Lemma sort_sorted (l : list ExportFile) : StronglySorted not_later (sort l).
Proof.
  induction l as [|x l IH]; simpl; [constructor | apply insert_sorted, IH].
Qed.

Lemma map_throwing_some (A B : Type) (f : A -> option B) (l : list A)
    (bs : list B) :
  map_throwing f l = Some bs -> Forall2 (fun a b => f a = Some b) l bs.
Proof.
  revert bs. induction l as [|a l IH]; intros bs; simpl.
  - intros E. injection E as <-. constructor.
  - destruct (f a) as [b|] eqn:F; [|discriminate].
    destruct (map_throwing f l) as [bs'|]; [|discriminate].
    intros E. injection E as <-. constructor; [exact F | apply IH; reflexivity].
Qed.

Lemma map_throwing_none (A B : Type) (f : A -> option B) (l : list A) :
  map_throwing f l = None -> exists a, In a l /\ f a = None.
Proof.
  induction l as [|a l IH]; simpl; [discriminate|].
  destruct (f a) as [b|] eqn:F.
  - destruct (map_throwing f l) as [bs'|]; [discriminate|].
    intros _. destruct (IH eq_refl) as [x [I X]]. exists x. auto.
  - intros _. exists a. auto.
Qed.

End ExportListing.

Section ExportListingClaims.

Import ExportListing.

(** What [describe] says of a file: the name it was given, the path
    joined from the directory and the name, and the size and the times
    that [statSync] tells of that path. *)
Definition described (path_join : string -> string -> string) (disk : Disk)
    (dir : string) (file : ExportFile) : Prop :=
  filePath file = path_join dir (fileName file)
  /\ exists stats,
      statSync disk (filePath file) = Some stats
      /\ fileSize file = size stats
      /\ createdAt file = birthtime stats
      /\ modifiedAt file = mtime stats.

(** X14. [listExports] looks at the resolved directory. When it does not
    exist the list is empty. When [readdirSync] throws, or [statSync]
    throws for one of the names that end in [.csv], the call throws.
    Otherwise the list holds the names that end in [.csv], each once and
    no other, each with the path joined from the resolved directory and
    the name and with what [statSync] tells of that path, the most
    recently modified first. *)
Theorem listExports_sorted_csv (path_resolve : string -> string)
    (path_join : string -> string -> string) (disk : Disk)
    (outputDir : option string) :
  let dir :=
    path_resolve
      match outputDir with
      | Some d => d
      | None => CSVService.DEFAULT_OUTPUT_DIR
      end in
  let result := listExports path_resolve path_join disk outputDir in
  (existsSync disk dir = false -> result = Some [])
  /\ (existsSync disk dir = true -> readdirSync disk dir = None ->
      result = None)
  /\ (forall names,
      existsSync disk dir = true -> readdirSync disk dir = Some names ->
      match result with
      | Some files =>
          Permutation (map fileName files)
            (filter (fun file => endsWith file ".csv") names)
          /\ StronglySorted not_later files
          /\ Forall (described path_join disk dir) files
      | None =>
          exists file,
            In file names /\ endsWith file ".csv" = true
            /\ statSync disk (path_join dir file) = None
      end).
Proof.
  cbv zeta. unfold listExports.
  set (dir := path_resolve match outputDir with Some d => d | None => _ end).
  split; [intros E; rewrite E; reflexivity|].
  split; [intros E R; rewrite E, R; reflexivity|].
  intros names E R. rewrite E, R. cbn [negb].
  destruct (map_throwing _ _) as [files|] eqn:M.
  - apply map_throwing_some in M.
    assert (Names : map fileName files
                    = filter (fun file => endsWith file ".csv") names
                    /\ Forall (described path_join disk dir) files).
    { induction M as [|file entry l l' D M IH]; [split; constructor|].
      destruct IH as [IH1 IH2]. unfold describe in D.
      destruct (statSync disk (path_join dir file)) as [stats|] eqn:St;
        [|discriminate D].
      injection D as <-. split; [cbn; rewrite IH1; reflexivity|].
      constructor; [|exact IH2]. split; [reflexivity|].
      exists stats. cbn. auto. }
    destruct Names as [N D]. split; [|split].
    + rewrite <- N. apply Permutation_map, sort_perm.
    + apply sort_sorted.
    + apply (Permutation_Forall (Permutation_sym (sort_perm files))), D.
  - apply map_throwing_none in M. destruct M as [file [I D]].
    apply filter_In in I. destruct I as [I C]. exists file.
    split; [exact I|]. split; [exact C|]. unfold describe in D.
    destruct (statSync disk (path_join dir file)); [discriminate D | reflexivity].
Qed.

(** A working directory [/srv/api] with four names in [exports], one of
    them no export. *)
Definition sample_resolve (dir : string) : string := ("/srv/api/" ++ dir)%string.

Definition sample_join (dir name : string) : string :=
  (dir ++ "/" ++ name)%string.

Definition sample_names : list string :=
  ["a.csv"; "notes.txt"; "b.csv"; "c.csv"]%string.

Definition sample_disk : Disk :=
  {| existsSync := fun dir => String.eqb dir "/srv/api/exports";
     readdirSync := fun _ => Some sample_names;
     statSync := fun path =>
       if String.eqb path "/srv/api/exports/b.csv"
       then Some {| size := 20; birthtime := 3; mtime := 7 |}
       else Some {| size := 10; birthtime := 1; mtime := 5 |} |}.

(** X14 at that directory. *)
Lemma listExports_sorted_csv_witness :
  match listExports sample_resolve sample_join sample_disk None with
  | Some files =>
      Permutation (map fileName files)
        (filter (fun file => endsWith file ".csv") sample_names)
      /\ StronglySorted not_later files
      /\ Forall (described sample_join sample_disk "/srv/api/exports") files
  | None =>
      exists file,
        In file sample_names /\ endsWith file ".csv" = true
        /\ statSync sample_disk (sample_join "/srv/api/exports" file) = None
  end.
Proof.
  exact (proj2 (proj2 (listExports_sorted_csv sample_resolve sample_join
                         sample_disk None))
           sample_names eq_refl eq_refl).
Defined.

(** The exports come back with the latest first, and files of the same
    time in the order of the directory. *)
Example listExports_sample :
  option_map (map filePath)
    (listExports sample_resolve sample_join sample_disk None)
  = Some ["/srv/api/exports/b.csv"; "/srv/api/exports/a.csv";
          "/srv/api/exports/c.csv"]%string.
Proof. reflexivity. Qed.

End ExportListingClaims.
